(** * jackrabbit: exchanges, queues and reply correlation over an AMQP client

    A shallow embedding of [src/exchange.ts], [src/queue.ts] and
    [src/jackrabbit.ts] (with the places where the legacy [lib/*.js] modules
    differ), and the properties of the readiness gate, the deferred
    publishes, the reply table and the consumer's acknowledgment primitives.

    The AMQP client, [EventEmitter], [JSON], [Buffer] and [uuid] are the
    program's collaborators.  The client is modelled by the calls the program
    makes on it (recorded in a log) and by the completions it hands back
    (events of the environment); the built-ins are the fields of [Platform]. *)

From Stdlib Require Import ZArith Lia Ascii String.
From stdpp Require Import base option list gmap strings pretty.

Local Open Scope string_scope.
Local Open Scope list_scope.
Local Open Scope stdpp_scope.

(** ** JavaScript values, truthiness and completions *)

Module JS.

Inductive error :=
| TypeError (what : string)
| SyntaxError (what : string)
| Error (message : string).

(** The values a message, a decoded body or a reply payload can be.  A
    [Buffer] is an object; [object] stands for every other object. *)
Inductive value :=
| undefined
| null
| boolean (b : bool)
| number (n : Z)
| str (s : string)
| Buffer (bytes : string)
| object (id : nat).

Inductive completion (A : Type) :=
| Normal (a : A)
| Throw (e : error).
Arguments Normal {A} a.
Arguments Throw {A} e.

#[global] Instance error_eq_dec : EqDecision error.
Proof. solve_decision. Defined.
#[global] Instance value_eq_dec : EqDecision value.
Proof. solve_decision. Defined.

(** [!v] is [negb (truthy v)]. *)
Definition truthy (v : value) : bool :=
  match v with
  | undefined | null => false
  | boolean b => b
  | number n => negb (n =? 0)%Z
  | str s => negb (bool_decide (s = ""))
  | Buffer _ | object _ => true
  end.

(** A property that is either [undefined] or a string. *)
Definition truthy_str (o : option string) : bool :=
  match o with
  | Some s => negb (bool_decide (s = ""))
  | None => false
  end.

Definition isBuffer (v : value) : bool :=
  match v with Buffer _ => true | _ => false end.

End JS.
Export JS.

(** The built-ins the program calls.  [JSON_parse] is [None] where
    [JSON.parse] throws its [SyntaxError]; [JSON_stringify] is [Throw e]
    where [JSON.stringify] throws [e] (a circular object, a [toJSON] that
    throws) and [Normal None] where it returns [undefined];
    [Buffer_from_object] is what [Buffer.from] makes of an object that is
    not a [Buffer] ([None] where it throws its [TypeError]);
    [ToPropertyKey_object] is the property key an object converts to
    ([None] where the conversion throws its [TypeError]); [uuid_v4 n] is
    the identifier the [n]-th call of [v4()] returns, a UUID. *)
Class Platform := {
  JSON_parse : string → option value;
  JSON_stringify : value → completion (option string);
  Buffer_from_object : nat → option string;
  ToPropertyKey_object : nat → option string;
  uuid_v4 : nat → string;
}.

(** [Buffer.from]: the bytes of a string, a copy of a [Buffer]; a
    [TypeError] ([None]) on [undefined], [null], a boolean or a number. *)
Definition Buffer_from `{Platform} (v : value) : option string :=
  match v with
  | str s => Some s
  | Buffer b => Some b
  | object id => Buffer_from_object id
  | undefined | null | boolean _ | number _ => None
  end.

(** [ToPropertyKey]: [None] where the conversion throws. *)
Definition ToPropertyKey `{Platform} (v : value) : option string :=
  match v with
  | undefined => Some "undefined"
  | null => Some "null"
  | boolean b => Some (if b then "true" else "false")
  | number n => Some (pretty n)
  | str s | Buffer s => Some s
  | object id => ToPropertyKey_object id
  end.

(** What a plain object ([{}]) inherits from [Object.prototype] under a
    key of which it has no own property. *)
Inductive Inherited :=
| ProtoObject
    (* "__proto__": the prototype itself, an object that is no function *)
| NeedsFunction
    (* __defineGetter__, __defineSetter__: throw for want of a function as
       second argument *)
| ReadsKey
    (* hasOwnProperty, propertyIsEnumerable, __lookupGetter__,
       __lookupSetter__: convert their argument to a property key *)
| CallsToString
    (* toLocaleString: calls this.toString() *)
| Returns.
    (* constructor, toString, valueOf, isPrototypeOf *)

Definition Object_prototype (key : string) : option Inherited :=
  if bool_decide (key = "__proto__") then Some ProtoObject
  else if bool_decide (key ∈ ["__defineGetter__"; "__defineSetter__"])
  then Some NeedsFunction
  else if bool_decide (key ∈ ["hasOwnProperty"; "propertyIsEnumerable";
                              "__lookupGetter__"; "__lookupSetter__"])
  then Some ReadsKey
  else if bool_decide (key = "toLocaleString") then Some CallsToString
  else if bool_decide (key ∈ ["constructor"; "toString"; "valueOf"; "isPrototypeOf"])
  then Some Returns
  else None.

(** ** The data model *)

Definition Connection := nat.
Definition Channel := nat.

(** A function of the caller, known by its identity; or the exchange's own
    [onReply], which it hands to its reply queue as the consumer callback. *)
Inductive Callback :=
| UserFn (id : nat)
| OnReply.

#[global] Instance Callback_eq_dec : EqDecision Callback.
Proof. solve_decision. Defined.

Record Properties := {
  contentType : option string;
  replyTo : option string;
  correlationId : option string;
}.

Record Message := {
  content : string;
  properties : Properties;
  routingKey : string;
}.

#[global] Instance Properties_eq_dec : EqDecision Properties.
Proof. solve_decision. Defined.
#[global] Instance Message_eq_dec : EqDecision Message.
Proof. solve_decision. Defined.

(** A property of an options object that has a default: absent, or
    present with a value, which may be [undefined] ([None]).  [extend]
    copies a present property over the default whatever its value. *)
Inductive prop (A : Type) :=
| absent
| present (v : option A).
Arguments absent {A}.
Arguments present {A} v.

#[global] Instance prop_eq_dec {A} `{EqDecision A} : EqDecision (prop A).
Proof. solve_decision. Defined.

(** The value read from the property. *)
Definition read {A} (p : prop A) : option A :=
  match p with
  | absent => None
  | present v => v
  end.

(** One property of [extend({}, d, o)]. *)
Definition assign {A} (o d : prop A) : prop A :=
  match o with
  | absent => d
  | present _ => o
  end.

(** [PublishOptions]: a field without a default is [None] when the
    property is absent or [undefined], which the program does not tell
    apart; [reply] is the identity of the caller's reply function. *)
Record PublishOptions := {
  key : option string;
  pContentType : prop string;
  mandatory : prop bool;
  persistent : prop bool;
  reply : option nat;
  pReplyTo : option string;
  pCorrelationId : option string;
}.

#[global] Instance PublishOptions_eq_dec : EqDecision PublishOptions.
Proof. solve_decision. Defined.

Record ExchangeOptions := {
  durable : option bool;
  internal : option bool;
  autoDelete : option bool;
  alternateExchange : option string;
  noReply : option bool;
}.

Record QueueOptions := {
  qname : option string;
  exclusive : option bool;
  qdurable : option bool;
  prefetch : option nat;
  qkey : option string;
  keys : option (list string);
}.

Record ConsumeOptions := {
  consumerTagOpt : option string;
  noAck : option bool;
}.

Record NackOptions := {
  allUpTo : option bool;
  requeue : option bool;
}.

#[global] Instance ExchangeOptions_eq_dec : EqDecision ExchangeOptions.
Proof. solve_decision. Defined.
#[global] Instance QueueOptions_eq_dec : EqDecision QueueOptions.
Proof. solve_decision. Defined.
#[global] Instance ConsumeOptions_eq_dec : EqDecision ConsumeOptions.
Proof. solve_decision. Defined.

(** Which [Queue] object: the exchange's hidden reply queue, or the [i]-th
    queue made by [Exchange.queue]. *)
Inductive QRef :=
| ReplyQ
| UserQ (i : nat).

Inductive Obj :=
| TheExchange
| TheQueue (q : QRef).

#[global] Instance QRef_eq_dec : EqDecision QRef.
Proof. solve_decision. Defined.
#[global] Instance Obj_eq_dec : EqDecision Obj.
Proof. solve_decision. Defined.

(** *** Listeners

    A listener is a closure of the program; each constructor is one closure
    of the source, with the variables it captures.  [ExListener] are the
    closures attached to the exchange, [QListener] those attached to a
    queue. *)
Inductive ExListener :=
| LSendMessage (message : value) (options : PublishOptions)
    (* Exchange.publish: sendMessage.bind(this) *)
| LConnectQueue (q : nat)
    (* Exchange.#createQueue: () => newQueue.connect(this.#connection!) *)
| LUserE (id : nat).
    (* a listener of the caller, taken to observe; its invocation is
       recorded *)

Inductive QListener :=
| LBindKeys (q : nat) (options : QueueOptions)
    (* Exchange.#createQueue: the new queue's once("ready", ...) *)
| LBail
    (* this.bail.bind(this) of the exchange, on a queue's "close" *)
| LIsReady
    (* Exchange.onExchange: isReady, on the reply queue's "ready" *)
| LConsume (callback : Callback) (options : ConsumeOptions)
    (* Queue.consume: the once("ready", ...) that starts consuming *)
| LUserQ (id : nat).
    (* a listener of the caller, taken to observe; its invocation is
       recorded *)

#[global] Instance ExListener_eq_dec : EqDecision ExListener.
Proof. solve_decision. Defined.
#[global] Instance QListener_eq_dec : EqDecision QListener.
Proof. solve_decision. Defined.

(** One registration on an [EventEmitter]. *)
Record Reg (L : Type) := {
  rid : nat;
  event : string;
  once : bool;
  fn : L;
}.
Arguments rid {L} _.
Arguments event {L} _.
Arguments once {L} _.
Arguments fn {L} _.

(** ** The two objects *)

Module QueueState.
Record t := {
  channel : option Channel;
  consumerTag : option string;
  name : option string;
  options : QueueOptions;
  listeners : list (Reg QListener);
}.

Definition with_channel (v : option Channel) (s : t) : t :=
  {| channel := v; consumerTag := consumerTag s; name := name s;
     options := options s; listeners := listeners s |}.
Definition with_consumerTag (v : option string) (s : t) : t :=
  {| channel := channel s; consumerTag := v; name := name s;
     options := options s; listeners := listeners s |}.
Definition with_name (v : option string) (s : t) : t :=
  {| channel := channel s; consumerTag := consumerTag s; name := v;
     options := options s; listeners := listeners s |}.
Definition with_options (v : QueueOptions) (s : t) : t :=
  {| channel := channel s; consumerTag := consumerTag s; name := name s;
     options := v; listeners := listeners s |}.
Definition with_listeners (v : list (Reg QListener)) (s : t) : t :=
  {| channel := channel s; consumerTag := consumerTag s; name := name s;
     options := options s; listeners := v |}.
End QueueState.

Module ExchangeState.
Record t := {
  name : string;
  type : string;
  options : ExchangeOptions;
  ready : bool;
  connection : option Connection;
  channel : option Channel;
  publishing : Z;
  replyQueue : option QueueState.t;
  pendingReplies : gmap string nat;
  listeners : list (Reg ExListener);
}.

Definition with_name (v : string) (s : t) : t :=
  {| name := v; type := type s; options := options s; ready := ready s;
     connection := connection s; channel := channel s;
     publishing := publishing s; replyQueue := replyQueue s;
     pendingReplies := pendingReplies s; listeners := listeners s |}.
Definition with_type (v : string) (s : t) : t :=
  {| name := name s; type := v; options := options s; ready := ready s;
     connection := connection s; channel := channel s;
     publishing := publishing s; replyQueue := replyQueue s;
     pendingReplies := pendingReplies s; listeners := listeners s |}.
Definition with_options (v : ExchangeOptions) (s : t) : t :=
  {| name := name s; type := type s; options := v; ready := ready s;
     connection := connection s; channel := channel s;
     publishing := publishing s; replyQueue := replyQueue s;
     pendingReplies := pendingReplies s; listeners := listeners s |}.
Definition with_ready (v : bool) (s : t) : t :=
  {| name := name s; type := type s; options := options s; ready := v;
     connection := connection s; channel := channel s;
     publishing := publishing s; replyQueue := replyQueue s;
     pendingReplies := pendingReplies s; listeners := listeners s |}.
Definition with_connection (v : option Connection) (s : t) : t :=
  {| name := name s; type := type s; options := options s;
     ready := ready s; connection := v; channel := channel s;
     publishing := publishing s; replyQueue := replyQueue s;
     pendingReplies := pendingReplies s; listeners := listeners s |}.
Definition with_channel (v : option Channel) (s : t) : t :=
  {| name := name s; type := type s; options := options s;
     ready := ready s; connection := connection s; channel := v;
     publishing := publishing s; replyQueue := replyQueue s;
     pendingReplies := pendingReplies s; listeners := listeners s |}.
Definition with_publishing (v : Z) (s : t) : t :=
  {| name := name s; type := type s; options := options s;
     ready := ready s; connection := connection s; channel := channel s;
     publishing := v; replyQueue := replyQueue s;
     pendingReplies := pendingReplies s; listeners := listeners s |}.
Definition with_replyQueue (v : option QueueState.t) (s : t) : t :=
  {| name := name s; type := type s; options := options s;
     ready := ready s; connection := connection s; channel := channel s;
     publishing := publishing s; replyQueue := v;
     pendingReplies := pendingReplies s; listeners := listeners s |}.
Definition with_pendingReplies (v : gmap string nat) (s : t) : t :=
  {| name := name s; type := type s; options := options s;
     ready := ready s; connection := connection s; channel := channel s;
     publishing := publishing s; replyQueue := replyQueue s;
     pendingReplies := v; listeners := listeners s |}.
Definition with_listeners (v : list (Reg ExListener)) (s : t) : t :=
  {| name := name s; type := type s; options := options s;
     ready := ready s; connection := connection s; channel := channel s;
     publishing := publishing s; replyQueue := replyQueue s;
     pendingReplies := pendingReplies s; listeners := v |}.
End ExchangeState.

(** ** The AMQP client: calls made on it, and what it hands back *)

Inductive ChanCall :=
| Prefetch (count : nat)
| AssertExchange (name type : string) (options : ExchangeOptions)
| AssertQueue (name : option string) (options : QueueOptions)
| BindQueue (queue : option string) (exchange key : string)
| Publish (exchange : string) (key : option string) (content : string)
    (options : PublishOptions)
| Consume (queue : option string) (options : ConsumeOptions)
| Ack (msg : Message)
| Nack (msg : Message) (allUpTo requeue : bool).

(** An asynchronous call in flight, named by the callback it will run. *)
Inductive Request :=
| ReqCreateChannel (o : Obj)
| ReqAssertExchange
| ReqAssertQueue (q : QRef)
| ReqBindQueue (q : nat) (key : string)
| ReqConsume (q : QRef).

Inductive Response :=
| Failed (e : error)
| Opened (ch : Channel)
| Done
| Declared (queue : string)
| ConsumeOk (tag : string).

#[global] Instance ChanCall_eq_dec : EqDecision ChanCall.
Proof. solve_decision. Defined.
#[global] Instance Request_eq_dec : EqDecision Request.
Proof. solve_decision. Defined.
#[global] Instance Response_eq_dec : EqDecision Response.
Proof. solve_decision. Defined.

(** What can be observed of a run, in order: the events emitted, the calls
    on the client, the caller's functions invoked, and the completions the
    client delivered. *)
Inductive Action :=
| Emit (o : Obj) (ev : string) (err : option error)
| CreateChannel (o : Obj) (con : Connection)
| OnChannel (ch : Channel) (call : ChanCall)
| Invoke (f : nat) (data : value) (msg : Message)
| InvokeReply (f : nat) (data : value)
| Listen (id : nat)
| Completes (r : Request) (resp : Response)
| Uncaught (e : error).

#[global] Instance Action_eq_dec : EqDecision Action.
Proof. solve_decision. Defined.

(** [Promise.all] over the bindings of one queue: how many are still to
    resolve, and whether the joint promise is settled. *)
Record Join := {
  remaining : nat;
  settled : bool;
}.

(** The reactions of [bindKeys(...).then(...).catch(...)], run as microtasks. *)
Inductive Task :=
| TBound (q : nat)
| TBail (e : error).

Record World := {
  ex : ExchangeState.t;
  queues : list QueueState.t;
  joins : gmap nat Join;
  pending : list Request;
  closeHandlers : list (Channel * Obj);
  consumers : list (QRef * Callback);
  microtasks : list Task;
  immediates : nat;
  log : list Action;
  nextRid : nat;
  uuids : nat;
  writes : nat;
  writable : nat → bool;
}.

(** *** Field updates *)

Definition set_ex (f : ExchangeState.t → ExchangeState.t) (w : World) : World :=
  {| ex := f (ex w); queues := queues w; joins := joins w; pending := pending w;
     closeHandlers := closeHandlers w; consumers := consumers w;
     microtasks := microtasks w; immediates := immediates w; log := log w;
     nextRid := nextRid w; uuids := uuids w; writes := writes w;
     writable := writable w |}.
Definition set_queues (f : list QueueState.t → list QueueState.t) (w : World) : World :=
  {| ex := ex w; queues := f (queues w); joins := joins w; pending := pending w;
     closeHandlers := closeHandlers w; consumers := consumers w;
     microtasks := microtasks w; immediates := immediates w; log := log w;
     nextRid := nextRid w; uuids := uuids w; writes := writes w;
     writable := writable w |}.
Definition set_joins (f : gmap nat Join → gmap nat Join) (w : World) : World :=
  {| ex := ex w; queues := queues w; joins := f (joins w); pending := pending w;
     closeHandlers := closeHandlers w; consumers := consumers w;
     microtasks := microtasks w; immediates := immediates w; log := log w;
     nextRid := nextRid w; uuids := uuids w; writes := writes w;
     writable := writable w |}.
Definition set_pending (f : list Request → list Request) (w : World) : World :=
  {| ex := ex w; queues := queues w; joins := joins w; pending := f (pending w);
     closeHandlers := closeHandlers w; consumers := consumers w;
     microtasks := microtasks w; immediates := immediates w; log := log w;
     nextRid := nextRid w; uuids := uuids w; writes := writes w;
     writable := writable w |}.
Definition set_closeHandlers (f : list (Channel * Obj) → list (Channel * Obj))
    (w : World) : World :=
  {| ex := ex w; queues := queues w; joins := joins w; pending := pending w;
     closeHandlers := f (closeHandlers w); consumers := consumers w;
     microtasks := microtasks w; immediates := immediates w; log := log w;
     nextRid := nextRid w; uuids := uuids w; writes := writes w;
     writable := writable w |}.
Definition set_consumers (f : list (QRef * Callback) → list (QRef * Callback))
    (w : World) : World :=
  {| ex := ex w; queues := queues w; joins := joins w; pending := pending w;
     closeHandlers := closeHandlers w; consumers := f (consumers w);
     microtasks := microtasks w; immediates := immediates w; log := log w;
     nextRid := nextRid w; uuids := uuids w; writes := writes w;
     writable := writable w |}.
Definition set_microtasks (f : list Task → list Task) (w : World) : World :=
  {| ex := ex w; queues := queues w; joins := joins w; pending := pending w;
     closeHandlers := closeHandlers w; consumers := consumers w;
     microtasks := f (microtasks w); immediates := immediates w; log := log w;
     nextRid := nextRid w; uuids := uuids w; writes := writes w;
     writable := writable w |}.
Definition set_immediates (f : nat → nat) (w : World) : World :=
  {| ex := ex w; queues := queues w; joins := joins w; pending := pending w;
     closeHandlers := closeHandlers w; consumers := consumers w;
     microtasks := microtasks w; immediates := f (immediates w); log := log w;
     nextRid := nextRid w; uuids := uuids w; writes := writes w;
     writable := writable w |}.
Definition set_log (f : list Action → list Action) (w : World) : World :=
  {| ex := ex w; queues := queues w; joins := joins w; pending := pending w;
     closeHandlers := closeHandlers w; consumers := consumers w;
     microtasks := microtasks w; immediates := immediates w; log := f (log w);
     nextRid := nextRid w; uuids := uuids w; writes := writes w;
     writable := writable w |}.
Definition set_nextRid (f : nat → nat) (w : World) : World :=
  {| ex := ex w; queues := queues w; joins := joins w; pending := pending w;
     closeHandlers := closeHandlers w; consumers := consumers w;
     microtasks := microtasks w; immediates := immediates w; log := log w;
     nextRid := f (nextRid w); uuids := uuids w; writes := writes w;
     writable := writable w |}.
Definition set_uuids (f : nat → nat) (w : World) : World :=
  {| ex := ex w; queues := queues w; joins := joins w; pending := pending w;
     closeHandlers := closeHandlers w; consumers := consumers w;
     microtasks := microtasks w; immediates := immediates w; log := log w;
     nextRid := nextRid w; uuids := f (uuids w); writes := writes w;
     writable := writable w |}.
Definition set_writes (f : nat → nat) (w : World) : World :=
  {| ex := ex w; queues := queues w; joins := joins w; pending := pending w;
     closeHandlers := closeHandlers w; consumers := consumers w;
     microtasks := microtasks w; immediates := immediates w; log := log w;
     nextRid := nextRid w; uuids := uuids w; writes := f (writes w);
     writable := writable w |}.

(** ** Handlers: state and exceptions

    Every method and callback of the program is a function of the [World]
    that may throw.  A [Throw] keeps the state reached so far. *)

Definition M (A : Type) : Type := World → World * completion A.

#[global] Instance M_ret : MRet M := λ A a w, (w, Normal a).
#[global] Instance M_bind : MBind M := λ A B f m w,
  match m w with
  | (w', Normal a) => f a w'
  | (w', Throw e) => (w', Throw e)
  end.

Definition throw {A} (e : error) : M A := λ w, (w, Throw e).
Definition gets {A} (f : World → A) : M A := λ w, (w, Normal (f w)).
Definition modify (f : World → World) : M unit := λ w, (f w, Normal tt).
Definition tell (a : Action) : M unit := modify (set_log (λ l, l ++ [a])).
Definition when (b : bool) (m : M unit) : M unit := if b then m else mret tt.

Fixpoint forEach {A} (f : A → M unit) (l : list A) : M unit :=
  match l with
  | [] => mret tt
  | x :: rest => f x ;; forEach f rest
  end.

(** [try { m } catch (e) { h e }] *)
Definition try_catch {A} (m : M A) (h : error → M A) : M A := λ w,
  match m w with
  | (w', Normal a) => (w', Normal a)
  | (w', Throw e) => h e w'
  end.

(** The state a handler leaves, and its completion. *)
Definition exec {A} (m : M A) (w : World) : World := (m w).1.
Definition outcome {A} (m : M A) (w : World) : completion A := (m w).2.

Definition request (r : Request) : M unit := modify (set_pending (λ p, p ++ [r])).
Definition queueMicrotask (t : Task) : M unit :=
  modify (set_microtasks (λ ts, ts ++ [t])).

(** *** Queues by reference *)

Definition get_queue (q : QRef) (w : World) : option QueueState.t :=
  match q with
  | ReplyQ => ExchangeState.replyQueue (ex w)
  | UserQ i => queues w !! i
  end.

Definition update_queue (q : QRef) (f : QueueState.t → QueueState.t)
    (w : World) : World :=
  match q with
  | ReplyQ =>
      set_ex (λ e, ExchangeState.with_replyQueue
                     (f <$> ExchangeState.replyQueue e) e) w
  | UserQ i => set_queues (alter f i) w
  end.

(** Reading a property of a queue; of [null] (an exchange made with
    [noReply]) it is a [TypeError]. *)
Definition the_queue (q : QRef) : M QueueState.t := λ w,
  match get_queue q w with
  | Some s => (w, Normal s)
  | None => (w, Throw (TypeError "Cannot read properties of null"))
  end.

(** ** EventEmitter

    [on] and [once] append a registration; [emit] calls the listeners
    registered for the event at the time of the call, in registration order;
    a [once] registration is removed just before its listener is called; a
    listener that throws ends the emit; an ["error"] event nobody listens to
    is thrown. *)

Module EventEmitter.
Section Emitter.
Context {L : Type}.
Variable getL : World → list (Reg L).
Variable setL : (list (Reg L) → list (Reg L)) → World → World.
Variable who : Obj.
Variable call : L → option error → M unit.

Definition addListener (ev : string) (o : bool) (f : L) : M unit :=
  modify (λ w,
    set_nextRid S
      (setL (λ ls, ls ++ [{| rid := nextRid w; event := ev; once := o; fn := f |}]) w)).

Definition removeListener (id : nat) : M unit :=
  modify (setL (filter (λ r, rid r ≠ id))).

Fixpoint fire (snapshot : list (Reg L)) (arg : option error) : M unit :=
  match snapshot with
  | [] => mret tt
  | r :: rest =>
      when (once r) (removeListener (rid r)) ;;
      call (fn r) arg ;;
      fire rest arg
  end.

Definition emit (ev : string) (arg : option error) : M unit :=
  ls ← gets (λ w, filter (λ r, event r = ev) (getL w));
  match ls with
  | [] =>
      if bool_decide (ev = "error")
      then throw (default (Error "Unhandled error.") arg)
      else tell (Emit who ev arg)
  | _ => tell (Emit who ev arg) ;; fire ls arg
  end.
End Emitter.
End EventEmitter.

Definition or_else {A} (o d : option A) : option A :=
  match o with Some v => Some v | None => d end.

(** ** src/queue.ts: the [Queue] class, the methods that emit nothing *)

Module Queue.
Import QueueState.

Definition DEFAULT_CONSUME_OPTIONS : ConsumeOptions :=
  {| consumerTagOpt := None; noAck := Some false |}.

Definition extend_consume (d o : ConsumeOptions) : ConsumeOptions :=
  {| consumerTagOpt := or_else (consumerTagOpt o) (consumerTagOpt d);
     noAck := or_else (noAck o) (noAck d) |}.

Definition no_options : QueueOptions :=
  {| qname := None; exclusive := None; qdurable := None; prefetch := None;
     qkey := None; keys := None |}.

(** [constructor(options)] *)
Definition new (options : QueueOptions) : t :=
  {| channel := None; consumerTag := None; name := qname options;
     options := options; listeners := [] |}.

(** [export default (options = {}) => new Queue(options)] *)
Definition queue (options : option QueueOptions) : t :=
  new (default no_options options).

Definition getL (q : QRef) (w : World) : list (Reg QListener) :=
  from_option listeners [] (get_queue q w).
Definition setL (q : QRef) (f : list (Reg QListener) → list (Reg QListener))
    (w : World) : World :=
  update_queue q (λ s, with_listeners (f (listeners s)) s) w.

Definition on (q : QRef) (ev : string) (f : QListener) : M unit :=
  EventEmitter.addListener (setL q) ev false f.
Definition once (q : QRef) (ev : string) (f : QListener) : M unit :=
  EventEmitter.addListener (setL q) ev true f.

(** [connect(connection)]: asks for a channel; [onChannel] is its callback. *)
Definition connect (q : QRef) (connection : option Connection) : M unit :=
  match connection with
  | None => throw (TypeError "Cannot read properties of undefined (reading 'createChannel')")
  | Some con =>
      tell (CreateChannel (TheQueue q) con) ;;
      request (ReqCreateChannel (TheQueue q))
  end.

(** [consume(callback, options)]: deferred to the next "ready". *)
Definition consume (q : QRef) (callback : Callback) (options : ConsumeOptions)
    : M unit :=
  once q "ready" (LConsume callback options).

Section Codec.
Context `{Platform}.

(** [encodeMessage(message, contentType): Buffer] *)
Definition encodeMessage (message : value) (contentType : option string)
    : completion string :=
  if bool_decide (contentType = Some "application/json") then
    match JSON_stringify message with
    | Throw e => Throw e
    | Normal (Some s) => Normal s
    | Normal None =>
        Throw (TypeError "The first argument must be of type string or an instance of Buffer")
    end
  else
    match message with
    | Buffer b => Normal b
    | _ => Throw (Error "Unsupported message type for encoding")
    end.

(** [parseMessage(msg)] *)
Definition parseMessage (msg : Message) : completion value :=
  if bool_decide (contentType (properties msg) = Some "application/json") then
    match JSON_parse (content msg) with
    | Some v => Normal v
    | None => Throw (SyntaxError "Unexpected token in JSON")
    end
  else Normal (Buffer (content msg)).
End Codec.
End Queue.

(** ** src/exchange.ts: the [Exchange] class *)

Module Exchange.
Import ExchangeState.

Definition DEFAULT_EXCHANGES (type : string) : option string :=
  if bool_decide (type = "direct") then Some "amq.direct"
  else if bool_decide (type = "fanout") then Some "amq.fanout"
  else if bool_decide (type = "topic") then Some "amq.topic"
  else None.

Definition DEFAULT_EXCHANGE_OPTIONS : ExchangeOptions :=
  {| durable := Some true; internal := Some false; autoDelete := Some false;
     alternateExchange := None; noReply := Some false |}.

Definition DEFAULT_PUBLISH_OPTIONS : PublishOptions :=
  {| key := None; pContentType := present (Some "application/json");
     mandatory := present (Some false); persistent := present (Some false);
     reply := None; pReplyTo := None; pCorrelationId := None |}.

(** [extend({}, defaults, options)] *)
Definition extend_exchange (d o : ExchangeOptions) : ExchangeOptions :=
  {| durable := or_else (durable o) (durable d);
     internal := or_else (internal o) (internal d);
     autoDelete := or_else (autoDelete o) (autoDelete d);
     alternateExchange := or_else (alternateExchange o) (alternateExchange d);
     noReply := or_else (noReply o) (noReply d) |}.

Definition extend_publish (d o : PublishOptions) : PublishOptions :=
  {| key := or_else (key o) (key d);
     pContentType := assign (pContentType o) (pContentType d);
     mandatory := assign (mandatory o) (mandatory d);
     persistent := assign (persistent o) (persistent d);
     reply := or_else (reply o) (reply d);
     pReplyTo := or_else (pReplyTo o) (pReplyTo d);
     pCorrelationId := or_else (pCorrelationId o) (pCorrelationId d) |}.

Definition no_options : ExchangeOptions :=
  {| durable := None; internal := None; autoDelete := None;
     alternateExchange := None; noReply := None |}.
Definition no_publish_options : PublishOptions :=
  {| key := None; pContentType := absent; mandatory := absent;
     persistent := absent; reply := None; pReplyTo := None;
     pCorrelationId := None |}.

Definition isDefaultType (type : string) : bool :=
  bool_decide (type ∈ ["direct"; "fanout"; "topic"]).

Definition isDefault (name type : string) : bool :=
  isDefaultType type && bool_decide (DEFAULT_EXCHANGES type = Some name).

Definition isNameless (name : option string) : bool :=
  bool_decide (name = Some "").

(** [constructor(name, type, options = {})].  [name] and [type] are [None]
    when [undefined]. *)
Definition new (name type : option string) (options : ExchangeOptions)
    : completion t :=
  if negb (truthy_str type) then Throw (Error "missing exchange type")
  else
    let type := default "" type in
    let resolved :=
      if negb (isNameless name) then
        let _name :=
          if truthy_str name then name
          else if isDefaultType type then DEFAULT_EXCHANGES type
          else Some "" in
        if negb (truthy_str _name) then Throw (Error "missing exchange name")
        else Normal _name
      else Normal name in
    match resolved with
    | Throw e => Throw e
    | Normal _name =>
        let options := extend_exchange DEFAULT_EXCHANGE_OPTIONS options in
        Normal
          {| name := default "" _name; type := type; options := options;
             ready := false; connection := None; channel := None;
             publishing := 0;
             replyQueue :=
               if default false (noReply options) then None
               else Some (Queue.new
                 {| qname := None; exclusive := Some true; qdurable := None;
                    prefetch := None; qkey := None; keys := None |});
             pendingReplies := ∅; listeners := [] |}
    end.

Definition getL (w : World) : list (Reg ExListener) := listeners (ex w).
Definition setL (f : list (Reg ExListener) → list (Reg ExListener))
    (w : World) : World :=
  set_ex (λ e, with_listeners (f (listeners e)) e) w.

Definition on (ev : string) (f : ExListener) : M unit :=
  EventEmitter.addListener setL ev false f.
Definition once (ev : string) (f : ExListener) : M unit :=
  EventEmitter.addListener setL ev true f.

Section Methods.
Context `{Platform}.

(** [encodeMessage(message, contentType)] *)
Definition encodeMessage (message : value) (contentType : option string)
    : completion value :=
  if bool_decide (contentType = Some "application/json") then
    match JSON_stringify message with
    | Throw e => Throw e
    | Normal (Some s) => Normal (str s)
    | Normal None => Normal undefined
    end
  else Normal message.

(** [Buffer.isBuffer(msg) ? msg : Buffer.from(msg)] *)
Definition toBuffer (msg : value) : option string :=
  if isBuffer msg then
    match msg with Buffer b => Some b | _ => None end
  else Buffer_from msg.

(** The bytes [sendMessage] hands to [channel.publish]; [None] where
    [encodeMessage] or [Buffer.from] throws. *)
Definition encoded (message : value) (options : PublishOptions)
    : option string :=
  match encodeMessage message
          (read (pContentType (extend_publish DEFAULT_PUBLISH_OPTIONS options))) with
  | Normal msg => toBuffer msg
  | Throw _ => None
  end.

(** [onDrain()]: the decrement is left to [setImmediate]. *)
Definition onDrain : M unit := modify (set_immediates S).

(** [uuid.v4()] *)
Definition v4 : M string :=
  id ← gets (λ w, uuid_v4 (uuids w));
  modify (set_uuids S) ;;
  mret id.

(** [sendMessage], the closure of [publish]. *)
Definition sendMessage (message : value) (options : PublishOptions) : M unit :=
  let opts := extend_publish DEFAULT_PUBLISH_OPTIONS options in
  msg ←
    match encodeMessage message (read (pContentType opts)) with
    | Normal msg => mret msg
    | Throw e => throw e
    end;
  opts ←
    match reply opts with
    | Some f =>
        rq ← the_queue ReplyQ;
        id ← v4;
        modify (set_ex (λ e, with_pendingReplies (<[id := f]> (pendingReplies e)) e)) ;;
        mret {| key := key opts; pContentType := pContentType opts;
                mandatory := mandatory opts; persistent := persistent opts;
                reply := None; pReplyTo := QueueState.name rq;
                pCorrelationId := Some id |}
    | None => mret opts
    end;
  ch ← gets (λ w, channel (ex w));
  match ch with
  | None => throw (TypeError "Cannot read properties of undefined (reading 'publish')")
  | Some ch =>
      match toBuffer msg with
      | None => throw (TypeError "The first argument must be of type string or an instance of Buffer")
      | Some bytes =>
          nm ← gets (λ w, name (ex w));
          tell (OnChannel ch (Publish nm (key opts) bytes opts)) ;;
          drained ← gets (λ w, writable w (writes w));
          modify (set_writes S) ;;
          when drained onDrain
      end
  end.

(** What the exchange's listeners do when called.  A listener of the
    caller is taken to observe: it returns without calling into the
    exchange or its queues and without writing their fields, and its call
    is recorded.  What the caller does to the exchange and its queues is an
    [Event] of its own turn. *)
Definition call (l : ExListener) (arg : option error) : M unit :=
  match l with
  | LSendMessage message options => sendMessage message options
  | LConnectQueue q =>
      con ← gets (λ w, connection (ex w));
      Queue.connect (UserQ q) con
  | LUserE id => tell (Listen id)
  end.

Definition emit : string → option error → M unit :=
  EventEmitter.emit getL setL TheExchange call.

(** [isReady], the closure of [onExchange]. *)
Definition isReady : M unit :=
  modify (set_ex (with_ready true)) ;;
  emit "ready" None.

(** [bail(err)] *)
Definition bail (err : option error) : M unit :=
  modify (set_ex (with_connection None)) ;;
  modify (set_ex (with_channel None)) ;;
  emit "close" err.

(** The call of a function the table inherits, with the table as [this]
    and the data as argument. *)
Definition inherited (m : Inherited) (data : value) : M unit :=
  match m with
  | ProtoObject => throw (TypeError "this[#pendingReplies][...] is not a function")
  | NeedsFunction =>
      throw (TypeError "Object.prototype.__defineGetter__: Expecting function")
  | ReadsKey =>
      match ToPropertyKey data with
      | Some _ => mret tt
      | None => throw (TypeError "Cannot convert object to primitive value")
      end
  | CallsToString =>
      replies ← gets (λ w, pendingReplies (ex w));
      match replies !! "toString" with
      | Some f => tell (InvokeReply f undefined)
      | None => mret tt
      end
  | Returns => mret tt
  end.

(** [onReply(data, ack, nack, msg)]: [this.#pendingReplies[id]?.(data)].
    The property key of an [undefined] correlation id is the string
    "undefined".  The table is a plain object: [pendingReplies] holds its
    own properties, and a key it does not hold is looked up on
    [Object.prototype].  (An entry is stored under the result of [v4()]
    only; a UUID is never "__proto__", the one key whose assignment would
    replace the prototype instead.) *)
Definition onReply (data : value) (msg : Message) : M unit :=
  replies ← gets (λ w, pendingReplies (ex w));
  let id := default "undefined" (correlationId (properties msg)) in
  match replies !! id with
  | Some f => tell (InvokeReply f data)
  | None =>
      match Object_prototype id with
      | Some m => inherited m data
      | None => mret tt
      end
  end.

(** [publish(message, options = {})] *)
Definition publish (message : value) (options : PublishOptions) : M unit :=
  modify (set_ex (λ e, with_publishing (publishing e + 1) e)) ;;
  r ← gets (λ w, ready (ex w));
  if (r : bool) then sendMessage message options
  else once "ready" (LSendMessage message options).

(** [connect(con)] *)
Definition connect (con : Connection) : M unit :=
  modify (set_ex (with_connection (Some con))) ;;
  tell (CreateChannel TheExchange con) ;;
  request (ReqCreateChannel TheExchange) ;;
  rq ← gets (λ w, replyQueue (ex w));
  match rq with
  | Some _ =>
      Queue.on ReplyQ "close" LBail ;;
      Queue.consume ReplyQ OnReply {| consumerTagOpt := None; noAck := Some true |}
  | None => mret tt
  end.
(** *** Queues made through the exchange *)

Definition set_join (q : nat) (j : Join) : M unit :=
  modify (set_joins <[q := j]>).

(** [(options?.keys || [options?.key]).filter(Boolean)] *)
Definition requested_keys (options : QueueOptions) : list string :=
  match keys options with
  | Some ks => filter (λ k, k ≠ "") ks
  | None =>
      match qkey options with
      | Some k => filter (λ k, k ≠ "") [k]
      | None => []
      end
  end.

(** [bindKey(key)]: the executor of one promise.  Without a channel it
    throws, which rejects the promise. *)
Definition bindKey (q : nat) (key : string) : M unit :=
  ch ← gets (λ w, channel (ex w));
  match ch with
  | None => mret tt
  | Some ch =>
      qn ← gets (λ w, from_option QueueState.name None (get_queue (UserQ q) w));
      nm ← gets (λ w, name (ex w));
      tell (OnChannel ch (BindQueue qn nm key)) ;;
      request (ReqBindQueue q key)
  end.

(** [#bindKeys(newQueue, keys).then(...).catch(...)]: [Promise.all] is
    resolved at once for no key, rejected at once when the executors
    threw, and pending otherwise. *)
Definition bindKeys (q : nat) (keys : list string) : M unit :=
  ch ← gets (λ w, channel (ex w));
  forEach (bindKey q) keys ;;
  match keys, ch with
  | [], _ =>
      set_join q {| remaining := 0; settled := true |} ;;
      queueMicrotask (TBound q)
  | _ :: _, None =>
      set_join q {| remaining := length keys; settled := true |} ;;
      queueMicrotask
        (TBail (TypeError "Cannot read properties of undefined (reading 'bindQueue')"))
  | _ :: _, Some _ =>
      set_join q {| remaining := length keys; settled := false |}
  end.

(** The callback of one [bindQueue], through its promise and
    [Promise.all]: the first rejection rejects the joint promise, the
    last resolution resolves it, and a settled promise stays as it is. *)
Definition onBind (q : nat) (err : option error) : M unit :=
  j ← gets (λ w, joins w !! q);
  match j with
  | None => mret tt
  | Some j =>
      if settled j then mret tt
      else
        match err with
        | Some e =>
            set_join q {| remaining := remaining j; settled := true |} ;;
            queueMicrotask (TBail e)
        | None =>
            if bool_decide (remaining j ≤ 1)%nat then
              set_join q {| remaining := 0; settled := true |} ;;
              queueMicrotask (TBound q)
            else
              set_join q {| remaining := remaining j - 1; settled := false |}
        end
  end.

(** The closure [#createQueue] registers on the new queue's "ready". *)
Definition onQueueReady (q : nat) (options : QueueOptions) : M unit :=
  nm ← gets (λ w, name (ex w));
  if negb (isNameless (Some nm)) then bindKeys q (requested_keys options)
  else mret tt.

(** [#createQueue(options)]; the result is the new queue. *)
Definition createQueue (options : option QueueOptions) : M nat :=
  i ← gets (λ w, length (queues w));
  modify (set_queues (λ qs, qs ++ [Queue.queue options])) ;;
  Queue.on (UserQ i) "close" LBail ;;
  Queue.once (UserQ i) "ready" (LBindKeys i (default Queue.no_options options)) ;;
  con ← gets (λ w, connection (ex w));
  match con with
  | Some c => Queue.connect (UserQ i) (Some c)
  | None => once "ready" (LConnectQueue i)
  end ;;
  mret i.

(** *** Callbacks of the client *)

(** [onExchange(err, info)] *)
Definition onExchange (err : option error) : M unit :=
  match err with
  | Some e => bail (Some e)
  | None =>
      rq ← gets (λ w, replyQueue (ex w));
      match rq with
      | Some _ =>
          con ← gets (λ w, connection (ex w));
          Queue.connect ReplyQ con ;;
          Queue.once ReplyQ "ready" LIsReady
      | None => isReady
      end
  end.

(** [onChannel(err, chan)] *)
Definition onChannel (err : option error) (chan : Channel) : M unit :=
  match err with
  | Some e => bail (Some e)
  | None =>
      modify (set_ex (with_channel (Some chan))) ;;
      modify (set_closeHandlers (λ hs, hs ++ [(chan, TheExchange)])) ;;
      emit "connected" None ;;
      e ← gets ex;
      if isDefault (name e) (type e) || isNameless (Some (name e))
      then onExchange None
      else
        tell (OnChannel chan (AssertExchange (name e) (type e) (options e))) ;;
        request ReqAssertExchange
  end.

(** The function [onDrain] hands to [setImmediate]. *)
Definition afterDrain : M unit :=
  modify (set_ex (λ e, with_publishing (publishing e - 1) e)) ;;
  p ← gets (λ w, publishing (ex w));
  if bool_decide (p = 0%Z) then emit "drain" None else mret tt.
End Methods.
End Exchange.

(** ** src/queue.ts: the callbacks of a [Queue] and the events it emits *)

Module QueueEvents.
Import QueueState.

Section Methods.
Context `{Platform}.

(** The closure [consume] registers on "ready". *)
Definition startConsume (q : QRef) (callback : Callback)
    (options : ConsumeOptions) : M unit :=
  s ← the_queue q;
  match channel s with
  | None => throw (TypeError "Cannot read properties of undefined (reading 'consume')")
  | Some ch =>
      tell (OnChannel ch
              (Consume (name s) (Queue.extend_consume Queue.DEFAULT_CONSUME_OPTIONS options))) ;;
      request (ReqConsume q) ;;
      modify (set_consumers (λ cs, cs ++ [(q, callback)]))
  end.

(** What a queue's listeners do when called; a listener of the caller is
    taken to observe, as on the exchange. *)
Definition call (q : QRef) (l : QListener) (arg : option error) : M unit :=
  match l with
  | LBindKeys i options => Exchange.onQueueReady i options
  | LBail => Exchange.bail arg
  | LIsReady => Exchange.isReady
  | LConsume callback options => startConsume q callback options
  | LUserQ id => tell (Listen id)
  end.

Definition emit (q : QRef) : string → option error → M unit :=
  EventEmitter.emit (Queue.getL q) (Queue.setL q) (TheQueue q) (call q).

(** [bail(err)] *)
Definition bail (q : QRef) (err : option error) : M unit :=
  modify (update_queue q (with_channel None)) ;;
  modify (update_queue q (with_name None)) ;;
  modify (update_queue q (with_consumerTag None)) ;;
  emit q "close" err.

(** The callback of [assertQueue] in [connect]. *)
Definition onQueue (q : QRef) (err : option error) (ok_queue : string) : M unit :=
  match err with
  | Some e => bail q (Some e)
  | None =>
      modify (update_queue q (with_name (Some ok_queue))) ;;
      emit q "ready" None
  end.

(** The callback of [createChannel] in [connect]. *)
Definition onChannel (q : QRef) (err : option error) (chan : Channel) : M unit :=
  match err with
  | Some e => bail q (Some e)
  | None =>
      modify (update_queue q (with_channel (Some chan))) ;;
      s ← the_queue q;
      tell (OnChannel chan (Prefetch (default 1 (prefetch (options s))))) ;;
      modify (set_closeHandlers (λ hs, hs ++ [(chan, TheQueue q)])) ;;
      emit q "connected" None ;;
      s ← the_queue q;
      tell (OnChannel chan (AssertQueue (name s) (options s))) ;;
      request (ReqAssertQueue q)
  end.

(** [onConsume(err, info)] *)
Definition onConsume (q : QRef) (err : option error) (tag : string) : M unit :=
  match err with
  | Some e => bail q (Some e)
  | None =>
      modify (update_queue q (with_consumerTag (Some tag))) ;;
      emit q "consuming" None
  end.

(** The call [channel.publish("", replyTo, buffer, { correlationId: id,
    contentType })] of [ack]. *)
Definition reply_call (msg : Message) (buffer : string) : ChanCall :=
  Publish "" (replyTo (properties msg)) buffer
    {| key := None; pContentType := present (contentType (properties msg));
       mandatory := absent; persistent := absent; reply := None;
       pReplyTo := None; pCorrelationId := correlationId (properties msg) |}.

(** [replyTo && id] *)
Definition wants_reply (msg : Message) : bool :=
  truthy_str (replyTo (properties msg))
  && truthy_str (correlationId (properties msg)).

(** [ack(reply)], bound to the queue and the message. *)
Definition ack (q : QRef) (msg : Message) (reply : value) : M unit :=
  (if wants_reply msg then
     match Queue.encodeMessage reply (contentType (properties msg)) with
     | Throw e => throw e
     | Normal buffer =>
         s ← the_queue q;
         match channel s with
         | None => throw (TypeError "Cannot read properties of undefined (reading 'publish')")
         | Some ch =>
             tell (OnChannel ch (reply_call msg buffer)) ;;
             modify (set_writes S)
         end
     end
   else mret tt) ;;
  s ← the_queue q;
  match channel s with
  | None => throw (TypeError "Cannot read properties of undefined (reading 'ack')")
  | Some ch => tell (OnChannel ch (Ack msg))
  end.

(** [nack(opts)], bound to the queue and the message. *)
Definition nack (q : QRef) (msg : Message) (opts : NackOptions) : M unit :=
  s ← the_queue q;
  match channel s with
  | None => throw (TypeError "Cannot read properties of undefined (reading 'nack')")
  | Some ch =>
      tell (OnChannel ch
              (Nack msg (default false (allUpTo opts)) (default true (requeue opts))))
  end.

(** [onMessage(msg)], the delivery handler [consume] gives the client;
    [callback] is the consumer's function. *)
Definition onMessage (q : QRef) (callback : Callback) (msg : option Message)
    : M unit :=
  match msg with
  | None => mret tt
  | Some msg =>
      match Queue.parseMessage msg with
      | Throw e => throw e
      | Normal data =>
          if negb (truthy data) then mret tt
          else
            match callback with
            | UserFn f => tell (Invoke f data msg)
            | OnReply => Exchange.onReply data msg
            end
      end
  end.
End Methods.
End QueueEvents.

(** ** The event loop

    One [Event] is one turn of the loop: a call of the caller on the
    exchange or on one of its queues, or a callback of the client.  The
    client only completes requests that are in flight, with a response of
    the right kind, and only delivers to registered consumers. *)

Module System.

Inductive Event :=
| Connect (con : Connection)
| CallPublish (message : value) (options : PublishOptions)
| CallQueue (options : option QueueOptions)
| CallConsume (q : nat) (f : nat) (options : ConsumeOptions)
| CallAck (q : QRef) (msg : Message) (reply : value)
| CallNack (q : QRef) (msg : Message) (opts : NackOptions)
| ListenExchange (ev : string) (o : bool) (id : nat)
| ListenQueue (q : nat) (ev : string) (o : bool) (id : nat)
| Complete (i : nat) (resp : Response)
| ChannelClose (ch : Channel)
| ChannelDrain (ch : Channel)
| Deliver (i : nat) (msg : option Message)
| Immediate.

(** The responses a request can get. *)
Definition answers (r : Request) (resp : Response) : bool :=
  match r, resp with
  | _, Failed _ => true
  | ReqCreateChannel _, Opened _ => true
  | ReqAssertExchange, Done => true
  | ReqAssertQueue _, Declared _ => true
  | ReqBindQueue _ _, Done => true
  | ReqConsume _, ConsumeOk _ => true
  | _, _ => false
  end.

Definition failure (resp : Response) : option error :=
  match resp with Failed e => Some e | _ => None end.

Section Loop.
Context `{Platform}.

(** The callback a completed request runs. *)
Definition callback (r : Request) (resp : Response) : M unit :=
  match r with
  | ReqCreateChannel TheExchange =>
      Exchange.onChannel (failure resp)
        (match resp with Opened ch => ch | _ => 0 end)
  | ReqCreateChannel (TheQueue q) =>
      QueueEvents.onChannel q (failure resp)
        (match resp with Opened ch => ch | _ => 0 end)
  | ReqAssertExchange => Exchange.onExchange (failure resp)
  | ReqAssertQueue q =>
      QueueEvents.onQueue q (failure resp)
        (match resp with Declared n => n | _ => "" end)
  | ReqBindQueue q _ => Exchange.onBind q (failure resp)
  | ReqConsume q =>
      QueueEvents.onConsume q (failure resp)
        (match resp with ConsumeOk t => t | _ => "" end)
  end.

Definition onClose (h : Channel * Obj) : M unit :=
  match h.2 with
  | TheExchange => Exchange.bail (Some (Error "Channel closed"))
  | TheQueue q => QueueEvents.bail q (Some (Error "Channel closed"))
  end.

Definition react (e : Event) : M unit :=
  match e with
  | Connect con => Exchange.connect con
  | CallPublish message options => Exchange.publish message options
  | CallQueue options => Exchange.createQueue options ;; mret tt
  | CallConsume q f options => Queue.consume (UserQ q) (UserFn f) options
  | CallAck q msg reply => QueueEvents.ack q msg reply
  | CallNack q msg opts => QueueEvents.nack q msg opts
  | ListenExchange ev o id =>
      EventEmitter.addListener Exchange.setL ev o (LUserE id)
  | ListenQueue q ev o id =>
      EventEmitter.addListener (Queue.setL (UserQ q)) ev o (LUserQ id)
  | Complete i resp =>
      p ← gets pending;
      match p !! i with
      | Some r =>
          if answers r resp then
            modify (set_pending (delete i)) ;;
            tell (Completes r resp) ;;
            callback r resp
          else mret tt
      | None => mret tt
      end
  | ChannelClose ch =>
      hs ← gets closeHandlers;
      forEach onClose (filter (λ h, h.1 = ch) hs)
  | ChannelDrain ch =>
      hs ← gets closeHandlers;
      forEach (λ _, Exchange.onDrain)
        (filter (λ h, h.1 = ch ∧ h.2 = TheExchange) hs)
  | Deliver i msg =>
      cs ← gets consumers;
      match cs !! i with
      | Some (q, f) => QueueEvents.onMessage q f msg
      | None => mret tt
      end
  | Immediate =>
      n ← gets immediates;
      match n with
      | O => mret tt
      | S n' => modify (set_immediates (λ _, n')) ;; Exchange.afterDrain
      end
  end.

(** The reactions of the promises settled during the turn. *)
Definition runTask (t : Task) : M unit :=
  match t with
  | TBound q => QueueEvents.emit (UserQ q) "bound" None
  | TBail e => Exchange.bail (Some e)
  end.

(** An exception nobody catches ends the handler; it is recorded. *)
Definition settle (m : M unit) (w : World) : World :=
  match m w with
  | (w', Normal _) => w'
  | (w', Throw e) => set_log (λ l, l ++ [Uncaught e]) w'
  end.

Definition runMicrotasks (w : World) : World :=
  foldl (λ w t, settle (runTask t) w)
        (set_microtasks (λ _, []) w) (microtasks w).

Definition step (w : World) (e : Event) : World :=
  runMicrotasks (settle (react e) w).

Definition run (w : World) (es : list Event) : World := foldl step w es.
End Loop.

(** The world around a newly constructed exchange. *)
Definition init (e : ExchangeState.t) (writable : nat → bool) : World :=
  {| ex := e; queues := []; joins := ∅; pending := []; closeHandlers := [];
     consumers := []; microtasks := []; immediates := 0; log := [];
     nextRid := 0; uuids := 0; writes := 0; writable := writable |}.
End System.

(** ** src/jackrabbit.ts: the connection manager *)

Module Jackrabbit.

Inductive Action :=
| Emit (ev : string) (err : option error)
| Close (con : Connection)
| Callback (f : nat) (err : option error)
| ConsoleLog (e : error)
| Listen (id : nat).

#[global] Instance Action_eq_dec : EqDecision Action.
Proof. solve_decision. Defined.

(** [closing] holds the completion handlers given to
    [connection.close] and not yet called, each with the caller's
    [callback]; [listeners] are the caller's, by event. *)
Record t := {
  connection : option Connection;
  closing : list (option nat);
  listeners : list (string * nat);
  log : list Action;
}.

Definition tell (a : Action) (r : t) : t :=
  {| connection := connection r; closing := closing r;
     listeners := listeners r; log := log r ++ [a] |}.
Definition with_connection (c : option Connection) (r : t) : t :=
  {| connection := c; closing := closing r; listeners := listeners r;
     log := log r |}.
Definition with_closing (l : list (option nat)) (r : t) : t :=
  {| connection := connection r; closing := l; listeners := listeners r;
     log := log r |}.

(** [new Jackrabbit()] *)
Definition new : t :=
  {| connection := None; closing := []; listeners := []; log := [] |}.

Definition on (ev : string) (id : nat) (r : t) : t :=
  {| connection := connection r; closing := closing r;
     listeners := listeners r ++ [(ev, id)]; log := log r |}.

Definition emit (ev : string) (err : option error) (r : t) : t * completion unit :=
  match filter (λ l, l.1 = ev) (listeners r) with
  | [] =>
      if bool_decide (ev = "error")
      then (r, Throw (default (Error "Unhandled error.") err))
      else (tell (Emit ev err) r, Normal tt)
  | ls => (foldl (λ r l, tell (Listen l.2) r) (tell (Emit ev err) r) ls, Normal tt)
  end.

(** [callback?.(err)] *)
Definition invoke (callback : option nat) (err : option error) (r : t) : t :=
  match callback with
  | Some f => tell (Callback f err) r
  | None => r
  end.

(** [close(callback)].  [throws] is what [connection.close] does when
    called: [Some e] when it throws [e], [None] when it takes the handler. *)
Definition close (callback : option nat) (throws : option error) (r : t) : t :=
  match connection r with
  | None => r
  | Some con =>
      match throws with
      | None => with_closing (closing r ++ [callback]) (tell (Close con) r)
      | Some e => invoke callback (Some e) (tell (ConsoleLog e) (tell (Close con) r))
      end
  end.


(** [#bail(err)], the listener of the connection's "close". *)
Definition bail (err : option error) (r : t) : t * completion unit :=
  emit "error" err (with_connection None r).



End Jackrabbit.

(** ** lib/queue.js and lib/jackrabbit.js: where the legacy modules differ *)

Module Legacy.

Section Methods.
Context `{Platform}.

(** [parseMessage(msg)] of lib/queue.js: the [try] is around
    [JSON.parse] only; the [catch] emits "error" and returns
    [undefined]. *)
Definition parseMessage (q : QRef) (msg : Message) : M value :=
  if bool_decide (contentType (properties msg) = Some "application/json") then
    match JSON_parse (content msg) with
    | Some v => mret v
    | None =>
        QueueEvents.emit q "error"
          (Some (Error "unable to parse message as JSON")) ;;
        mret undefined
    end
  else mret (Buffer (content msg)).

(** [onMessage(msg)] of lib/queue.js, up to the call of the consumer's
    function; the [ack] and [nack] closures it hands over are those of
    lib/queue.js, which are not embedded here. *)
Definition onMessage (q : QRef) (callback : Callback) (msg : option Message)
    : M unit :=
  match msg with
  | None => throw (TypeError "Cannot read properties of null (reading 'properties')")
  | Some msg =>
      data ← parseMessage q msg;
      if negb (truthy data) then mret tt
      else
        match callback with
        | UserFn f => tell (Invoke f data msg)
        | OnReply => Exchange.onReply data msg
        end
  end.
End Methods.

(** [close(callback)] of lib/jackrabbit.js: [connection.close] is called
    on the variable as it is, inside the [try]. *)
Definition close (callback : option nat) (throws : option error)
    (r : Jackrabbit.t) : Jackrabbit.t :=
  match Jackrabbit.connection r with
  | None =>
      Jackrabbit.invoke callback
        (Some (TypeError "Cannot read properties of undefined (reading 'close')")) r
  | Some con =>
      match throws with
      | None =>
          Jackrabbit.with_closing (Jackrabbit.closing r ++ [callback])
            (Jackrabbit.tell (Jackrabbit.Close con) r)
      | Some e =>
          Jackrabbit.invoke callback (Some e)
            (Jackrabbit.tell (Jackrabbit.Close con) r)
      end
  end.
End Legacy.

(** ** A platform for the examples

    JSON restricted to its scalar texts: [null], [true], [false], the
    unsigned integers and the strings without escapes.  The theorems below
    hold for every [Platform]; the examples only parse and print scalars,
    where [scalars] does what [JSON] does. *)

Module Scalars.

Definition quote : ascii := ascii_of_nat 34.
Definition backslash : ascii := ascii_of_nat 92.

Definition is_digit (c : ascii) : bool :=
  (48 <=? nat_of_ascii c)%nat && (nat_of_ascii c <=? 57)%nat.

Fixpoint digits (s : string) (acc : Z) : option Z :=
  match s with
  | EmptyString => Some acc
  | String c rest =>
      if is_digit c
      then digits rest (acc * 10 + Z.of_nat (nat_of_ascii c - 48))%Z
      else None
  end.

(** The characters of a string literal after its opening quote. *)
Fixpoint chars (s : string) : option string :=
  match s with
  | EmptyString => None
  | String c rest =>
      if bool_decide (c = quote) then
        match rest with EmptyString => Some EmptyString | _ => None end
      else if bool_decide (c = backslash) || (nat_of_ascii c <? 32)%nat then None
      else String c <$> chars rest
  end.

Definition parse (s : string) : option value :=
  if bool_decide (s = "null") then Some null
  else if bool_decide (s = "true") then Some (boolean true)
  else if bool_decide (s = "false") then Some (boolean false)
  else
    match s with
    | EmptyString => None
    | String c rest =>
        if bool_decide (c = quote) then str <$> chars rest
        else if bool_decide (c = "0"%char) then
          match rest with EmptyString => Some (number 0) | _ => None end
        else number <$> digits s 0
    end.

Definition stringify (v : value) : option string :=
  match v with
  | undefined => None
  | null => Some "null"
  | boolean true => Some "true"
  | boolean false => Some "false"
  | number n => Some (pretty n)
  | str s => Some (String quote s +:+ String quote EmptyString)
  | Buffer _ | object _ => Some "{}"
  end.

(** Of the objects, [object 0] is circular and [object 1] cannot be
    converted to a primitive value; the others are empty. *)
Definition scalars : Platform :=
  {| JSON_parse := parse;
     JSON_stringify := λ v,
       if bool_decide (v = object 0)
       then Throw (TypeError "Converting circular structure to JSON")
       else Normal (stringify v);
     Buffer_from_object := λ _, None;
     ToPropertyKey_object := λ id,
       if bool_decide (id = 1) then None else Some "[object Object]";
     uuid_v4 := λ n, "uuid-" +:+ pretty n |}.
End Scalars.

(** ** Example runs *)

Module Examples.
Import System Scalars.

Definition or_blank (c : completion ExchangeState.t) : ExchangeState.t :=
  match c with
  | Normal e => e
  | Throw _ =>
      {| ExchangeState.name := ""; ExchangeState.type := "";
         ExchangeState.options := Exchange.no_options;
         ExchangeState.ready := false; ExchangeState.connection := None;
         ExchangeState.channel := None; ExchangeState.publishing := 0;
         ExchangeState.replyQueue := None;
         ExchangeState.pendingReplies := ∅; ExchangeState.listeners := [] |}
  end.

(** [exchange("", "direct")] *)
Definition nameless : ExchangeState.t :=
  or_blank (Exchange.new (Some "") (Some "direct") Exchange.no_options).

(** [exchange("", "direct", { noReply: true })] *)
Definition nameless_noReply : ExchangeState.t :=
  or_blank (Exchange.new (Some "") (Some "direct")
    {| durable := None; internal := None; autoDelete := None;
       alternateExchange := None; noReply := Some true |}).

(** [exchange("test.topic.bindings", "topic")] *)
Definition topic : ExchangeState.t :=
  or_blank (Exchange.new (Some "test.topic.bindings") (Some "topic")
              Exchange.no_options).

Definition never_drained : nat → bool := λ _, false.

(** The exchange connects, its channel opens, its reply queue gets its
    channel, is declared and consumes. *)
Definition opening : list Event :=
  [Connect 1; Complete 0 (Opened 10); Complete 0 (Opened 11);
   Complete 0 (Declared "amq.gen-1"); Complete 0 (ConsumeOk "amq.ctag-0")].

Definition rpc_ready : World :=
  run (H := scalars) (init nameless never_drained) opening.

Definition rpc_queue : QueueState.t :=
  default (Queue.new Queue.no_options) (ExchangeState.replyQueue (ex rpc_ready)).

Definition publish_options (k : string) (f : option nat) : PublishOptions :=
  {| key := Some k; pContentType := absent; mandatory := absent;
     persistent := absent; reply := f; pReplyTo := None;
     pCorrelationId := None |}.

Definition quoted (s : string) : string :=
  String quote s +:+ String quote EmptyString.

Definition message (type : option string) (body : string)
    (replyTo id : option string) : Message :=
  {| content := body;
     properties := {| contentType := type; replyTo := replyTo;
                      correlationId := id |};
     routingKey := "rpc" |}.

(** A request that asks for a reply, and the same reply delivered twice. *)
Definition pong : Message :=
  message (Some "application/json") (quoted "pong") None (Some "uuid-0").

Definition two_replies : World :=
  run (H := scalars) rpc_ready
    [CallPublish (str "ping") (publish_options "rpc" (Some 5));
     Deliver 0 (Some pong); Deliver 0 (Some pong)].

(** A queue made through the exchange, with a consumer, declared as
    "tasks". *)
Definition tasks_options : QueueOptions :=
  {| qname := Some "tasks"; exclusive := None; qdurable := None;
     prefetch := None; qkey := None; keys := None |}.

Definition consuming : World :=
  run (H := scalars) rpc_ready
    [CallQueue (Some tasks_options);
     CallConsume 0 7 {| consumerTagOpt := None; noAck := None |};
     Complete 0 (Opened 12); Complete 0 (Declared "tasks");
     Complete 0 (ConsumeOk "amq.ctag-1")].

Definition tasks_queue : QueueState.t :=
  default (Queue.new Queue.no_options) (queues consuming !! 0).

(** The same, with a listener of the caller on the queue's "error". *)
Definition consuming_watched : World :=
  run (H := scalars) consuming [ListenQueue 0 "error" false 9].

(** A request in plain text that asks for a reply. *)
Definition plain_request : Message :=
  message (Some "text/plain") "work" (Some "amq.gen-1") (Some "uuid-0").

(** A request in JSON that asks for a reply. *)
Definition json_request : Message :=
  message (Some "application/json") (quoted "work") (Some "amq.gen-1")
    (Some "uuid-0").

(** A message whose body is not JSON, and one whose raw body is empty. *)
Definition malformed : Message :=
  message (Some "application/json") "{" None None.
Definition empty_raw : Message :=
  message (Some "application/octet-stream") "" None None.
Definition json_null : Message :=
  message (Some "application/json") "null" None None.

(** An exchange whose channel is open and whose reply queue is not yet
    declared; and three publishes, the second asking for a reply. *)
Definition waiting : World :=
  run (H := scalars) (init nameless never_drained)
    [Connect 1; Complete 0 (Opened 10)].

Definition three : list (value * PublishOptions) :=
  [(str "one", publish_options "a" None);
   (str "two", publish_options "b" (Some 5));
   (number 3, publish_options "c" None)].

(** The same publishes made while the exchange opens: before it connects,
    before its channel opens, before its reply queue is declared; and the
    declaration of the reply queue. *)
Definition buffered : list Event :=
  [CallPublish (str "one") (publish_options "a" None);
   Connect 1;
   CallPublish (str "two") (publish_options "b" (Some 5));
   Complete 0 (Opened 10);
   CallPublish (number 3) (publish_options "c" None);
   Complete 0 (Opened 11)].

Definition flushing : Event := Complete 0 (Declared "amq.gen-1").

(** The same publishes on an exchange made with [noReply], whose channel
    opens afterwards. *)
Definition poisoned : World :=
  run (H := scalars) (init nameless_noReply never_drained)
    [Connect 1;
     CallPublish (str "one") (publish_options "a" None);
     CallPublish (str "two") (publish_options "b" (Some 5));
     CallPublish (number 3) (publish_options "c" None);
     Complete 0 (Opened 10)].

(** The exchange "test.topic.bindings" connects: its channel opens, it is
    declared, then its reply queue opens, is declared and consumes. *)
Definition topic_opening : list Event :=
  [Connect 1; Complete 0 (Opened 10); Complete 0 Done; Complete 0 (Opened 11);
   Complete 0 (Declared "amq.gen-1"); Complete 0 (ConsumeOk "amq.ctag-0")].

Definition topic_ready : World :=
  run (H := scalars) (init topic never_drained) topic_opening.

(** A queue with two routing keys made through it, up to its declaration. *)
Definition two_keys : QueueOptions :=
  {| qname := Some "events"; exclusive := None; qdurable := None;
     prefetch := None; qkey := None; keys := Some ["a.*"; "b.*"] |}.

Definition declaring : list Event :=
  topic_opening ++
  [CallQueue (Some two_keys); Complete 0 (Opened 12); Complete 0 (Declared "events")].

(** Both bindings succeed; only the first has completed; the second fails. *)
Definition both_bound : World :=
  run (H := scalars) (init topic never_drained)
    (declaring ++ [Complete 0 Done; Complete 0 Done]).

Definition one_bound : World :=
  run (H := scalars) (init topic never_drained) (declaring ++ [Complete 0 Done]).

Definition one_refused : World :=
  run (H := scalars) (init topic never_drained)
    (declaring ++ [Complete 0 Done; Complete 0 (Failed (Error "NOT_FOUND"))]).
End Examples.

(** ** Reading the log *)

(** The messages handed to [channel.publish], in order: exchange, routing
    key and bytes. *)
Definition publication (a : Action) : option (string * option string * string) :=
  match a with
  | OnChannel _ (Publish exchange key bytes _) => Some (exchange, key, bytes)
  | _ => None
  end.

Definition published (l : list Action) : list (string * option string * string) :=
  omap publication l.

(** The acknowledgments, positive or negative, in the log. *)
Definition is_settlement (a : Action) : bool :=
  match a with
  | OnChannel _ (Ack _) | OnChannel _ (Nack _ _ _) => true
  | _ => false
  end.

(** The calls of the caller's functions (consumer and reply callbacks). *)
Definition is_invocation (a : Action) : bool :=
  match a with
  | Invoke _ _ _ | InvokeReply _ _ => true
  | _ => false
  end.

(** ** The publishes waiting for "ready" *)

(** The arguments of a [sendMessage] registered for "ready". *)
Definition send_of (r : Reg ExListener) : option (value * PublishOptions) :=
  match fn r with
  | LSendMessage m o => Some (m, o)
  | _ => None
  end.

Definition pending_send (r : Reg ExListener) : option (value * PublishOptions) :=
  if bool_decide (event r = "ready") then send_of r else None.

(** The deferred publishes, in the order they were issued. *)
Definition deferred (w : World) : list (value * PublishOptions) :=
  omap pending_send (Exchange.getL w).

(** What a send leaves as it was. *)
Definition same_gate (w w' : World) : Prop :=
  ExchangeState.name (ex w') = ExchangeState.name (ex w)
  ∧ ExchangeState.channel (ex w') = ExchangeState.channel (ex w)
  ∧ ExchangeState.connection (ex w') = ExchangeState.connection (ex w)
  ∧ ExchangeState.replyQueue (ex w') = ExchangeState.replyQueue (ex w).

Section Sendable.
Context `{Platform}.

(** A publish whose [sendMessage] can complete: its message can be made a
    [Buffer], and it asks for a reply only of an exchange that has a reply
    queue. *)
Definition sendable (w : World) (p : value * PublishOptions) : Prop :=
  is_Some (Exchange.encoded p.1 p.2)
  ∧ (is_Some (reply p.2) → is_Some (ExchangeState.replyQueue (ex w))).

(** What [channel.publish] gets for it: exchange, routing key, bytes. *)
Definition sent (w : World) (p : value * PublishOptions)
    : string * option string * string :=
  (ExchangeState.name (ex w), key p.2, default "" (Exchange.encoded p.1 p.2)).

(** A listener of the exchange that completes when called: a deferred send
    is registered with [once] and is sendable; a deferred [connect] of a
    queue finds the connection. *)
Definition runs (w : World) (r : Reg ExListener) : Prop :=
  match fn r with
  | LSendMessage m o => once r = true ∧ sendable w (m, o)
  | LConnectQueue _ => is_Some (ExchangeState.connection (ex w))
  | LUserE _ => True
  end.

(** Every listener registered for "ready" completes when called. *)
Definition gate_ready (w : World) : Prop :=
  Forall (λ r, event r = "ready" → runs w r) (Exchange.getL w).
End Sendable.

(** [exchange.publish] for each, in order. *)
Definition publishAll `{Platform} (ps : list (value * PublishOptions)) : M unit :=
  forEach (λ p, Exchange.publish p.1 p.2) ps.

Local Open Scope nat_scope.

(** ** What a run has seen: the gate of "ready" and the bindings of a queue *)

(** How many elements of a list a boolean test accepts. *)
Definition count {A} (p : A → bool) (l : list A) : nat :=
  length (List.filter p l).

(** The exchange emits "ready". *)
Definition is_ready_emit (a : Action) : bool :=
  match a with
  | Emit TheExchange ev _ => String.eqb ev "ready"
  | _ => false
  end.

(** The exchange's channel has been opened. *)
Definition opened (l : list Action) : Prop :=
  ∃ ch, Completes (ReqCreateChannel TheExchange) (Opened ch) ∈ l.

(** [isDefault(name, type) || isNameless(name)]: no declaration is made. *)
Definition undeclared (e : ExchangeState.t) : bool :=
  Exchange.isDefault (ExchangeState.name e) (ExchangeState.type e)
  || Exchange.isNameless (Some (ExchangeState.name e)).

(** The declaration of the exchange has completed, or none is made. *)
Definition declared (e : ExchangeState.t) (l : list Action) : Prop :=
  Completes ReqAssertExchange Done ∈ l ∨ undeclared e = true.

(** The reply queue, if the exchange has one, has emitted "ready". *)
Definition replied (e : ExchangeState.t) (l : list Action) : Prop :=
  is_Some (ExchangeState.replyQueue e) →
  ∃ arg, Emit (TheQueue ReplyQ) "ready" arg ∈ l.

(** What has to come before the "ready" of the exchange constructed as [e]. *)
Definition gate (e : ExchangeState.t) (l : list Action) : Prop :=
  opened l ∧ declared e l ∧ replied e l.

(** Every "ready" of the exchange in the log comes after the gate. *)
Definition guarded (e : ExchangeState.t) (l : list Action) : Prop :=
  ∀ pre a post, l = pre ++ a :: post → is_ready_emit a = true → gate e pre.

(** The [i]-th queue made through the exchange emits "bound"; one of its
    bindings succeeds, or fails; one is in flight; the reaction that emits
    "bound" is queued; a reaction that bails is queued. *)
Definition is_bound (i : nat) (a : Action) : bool :=
  match a with
  | Emit (TheQueue (UserQ j)) ev _ => Nat.eqb j i && String.eqb ev "bound"
  | _ => false
  end.

Definition is_bind_ok (i : nat) (a : Action) : bool :=
  match a with
  | Completes (ReqBindQueue j _) Done => Nat.eqb j i
  | _ => false
  end.

Definition is_bind_failure (i : nat) (a : Action) : bool :=
  match a with
  | Completes (ReqBindQueue j _) (Failed _) => Nat.eqb j i
  | _ => false
  end.

Definition is_bind_request (i : nat) (r : Request) : bool :=
  match r with
  | ReqBindQueue j _ => Nat.eqb j i
  | _ => false
  end.

Definition is_TBound (i : nat) (t : Task) : bool :=
  match t with
  | TBound j => Nat.eqb j i
  | _ => false
  end.

Definition is_TBail (t : Task) : bool :=
  match t with
  | TBail _ => true
  | _ => false
  end.

(** The closure [#createQueue] registers on the queue's "ready". *)
Definition is_bind (l : QListener) : bool :=
  match l with
  | LBindKeys _ _ => true
  | _ => false
  end.

(** The exchange has emitted "close" with an error. *)
Definition closed (l : list Action) : Prop :=
  ∃ e, Emit TheExchange "close" (Some e) ∈ l.

(** The routing keys asked for the [i]-th queue, and their number. *)
Definition keys_of (i : nat) (w : World) : list string :=
  Exchange.requested_keys
    (from_option QueueState.options Queue.no_options (queues w !! i)).

Definition bindings (i : nat) (w : World) : nat := length (keys_of i w).

(** Where the bindings of the [i]-th queue stand. *)
Record Progress := {
  oks : nat;
  failures : nat;
  inflight : nat;
  bounds : nat;
  tbounds : nat;
}.

Definition progress (i : nat) (ts : list Task) (w : World) : Progress :=
  {| oks := count (is_bind_ok i) (log w);
     failures := count (is_bind_failure i) (log w);
     inflight := count (is_bind_request i) (pending w);
     bounds := count (is_bound i) (log w);
     tbounds := count (is_TBound i) (ts ++ microtasks w) |}.

(** The exchange has bailed, or is about to. *)
Definition bailing (ts : list Task) (w : World) : Prop :=
  closed (log w) ∨ count is_TBail (ts ++ microtasks w) ≠ 0.

(** The states of [Promise.all] over the bindings, read off the world:
    not started; pending; resolved; rejected by a failed binding; rejected
    because the exchange had no channel. *)
Definition joined (i : nat) (ts : list Task) (w : World) : Prop :=
  let p := progress i ts w in
  let k := bindings i w in
  match joins w !! i with
  | None =>
      oks p = 0 ∧ failures p = 0 ∧ inflight p = 0 ∧ bounds p = 0 ∧ tbounds p = 0
  | Some j =>
      (settled j = false ∧ (1 ≤ remaining j)%nat ∧ inflight p = remaining j
       ∧ oks p + inflight p = k ∧ failures p = 0 ∧ bounds p = 0 ∧ tbounds p = 0)
      ∨ (settled j = true ∧ inflight p = 0 ∧ failures p = 0 ∧ oks p = k
         ∧ bounds p + tbounds p = 1)
      ∨ (settled j = true ∧ (1 ≤ failures p)%nat ∧ oks p + failures p + inflight p = k
         ∧ bounds p = 0 ∧ tbounds p = 0 ∧ bailing ts w)
      ∨ (settled j = true ∧ oks p = 0 ∧ failures p = 0 ∧ inflight p = 0 ∧ (1 ≤ k)%nat
         ∧ bounds p = 0 ∧ tbounds p = 0 ∧ bailing ts w)
  end.

(** Every "bound" of the [i]-th queue in the log comes after all its
    bindings have completed. *)
Definition bound_guarded (i : nat) (w : World) : Prop :=
  ∀ pre a post, log w = pre ++ a :: post → is_bound i a = true →
    count (is_bind_ok i) pre = bindings i w.

(** The registrations of [#createQueue]'s closure on the [i]-th queue. *)
Definition bind_regs (i : nat) (w : World) : Prop :=
  (count (λ r, is_bind (fn r)) (Queue.getL (UserQ i) w) ≤ 1)%nat
  ∧ ∀ r q o, r ∈ Queue.getL (UserQ i) w → fn r = LBindKeys q o →
      q = i ∧ event r = "ready" ∧ once r = true
      ∧ Exchange.requested_keys o = keys_of i w
      ∧ joins w !! i = None.

(** ** The invariant of the event loop *)

(** The invariant of the event loop around an exchange constructed as [e];
    [ts] are the microtasks taken off the queue and not yet run. *)
Record Inv (e : ExchangeState.t) (ts : list Task) (w : World) : Prop := {
  inv_guarded : guarded e (log w);
  inv_name : ExchangeState.name (ex w) = ExchangeState.name e;
  inv_type : ExchangeState.type (ex w) = ExchangeState.type e;
  inv_reply : is_Some (ExchangeState.replyQueue (ex w))
              ↔ is_Some (ExchangeState.replyQueue e);
  inv_declaring : ReqAssertExchange ∈ pending w → opened (log w);
  inv_isReady : ∀ r, r ∈ Queue.getL ReplyQ w → fn r = LIsReady →
      event r = "ready" ∧ opened (log w) ∧ declared e (log w);
  inv_user : ∀ i r, r ∈ Queue.getL (UserQ i) w → fn r ≠ LIsReady;
  inv_flag : ExchangeState.ready (ex w) = true → gate e (log w);
  inv_reply_binds : ∀ r, r ∈ Queue.getL ReplyQ w → is_bind (fn r) = false;
  inv_binds : ∀ i, bind_regs i w;
  inv_joined : ∀ i, joined i ts w;
  inv_bound : ∀ i, bound_guarded i w;
  inv_fresh : ∀ i, (length (queues w) ≤ i)%nat → joins w !! i = None;
}.

(** ** Specifications of handlers *)

(** The state a handler leaves, whether it returns or throws. *)
Definition triple {A} (P : World → Prop) (m : M A) (R : World → Prop) : Prop :=
  ∀ w, P w → R (m w).1.

(** Two worlds the invariant cannot tell apart. *)
Record same_obs (w w' : World) : Prop := {
  so_log : log w' = log w;
  so_pending : pending w' = pending w;
  so_microtasks : microtasks w' = microtasks w;
  so_joins : joins w' = joins w;
  so_name : ExchangeState.name (ex w') = ExchangeState.name (ex w);
  so_type : ExchangeState.type (ex w') = ExchangeState.type (ex w);
  so_ready : ExchangeState.ready (ex w') = ExchangeState.ready (ex w);
  so_reply : is_Some (ExchangeState.replyQueue (ex w'))
             ↔ is_Some (ExchangeState.replyQueue (ex w));
  so_getL : ∀ q, Queue.getL q w' = Queue.getL q w;
  so_keys : ∀ i, keys_of i w' = keys_of i w;
  so_length : length (queues w') = length (queues w);
}.

(** An action that is neither a "ready" of the exchange nor part of the
    bindings of a queue. *)
Definition plain (a : Action) : Prop :=
  is_ready_emit a = false
  ∧ ∀ i, is_bound i a = false ∧ is_bind_ok i a = false ∧ is_bind_failure i a = false.

(** A registration on a queue that is neither [isReady] nor the bindings. *)
Definition plain_reg (r : Reg QListener) : Prop :=
  fn r ≠ LIsReady ∧ is_bind (fn r) = false.

(** A fact about the log that stays true as the log grows; the invariant
    together with such a fact. *)
Definition Mono (F : list Action → Prop) : Prop := ∀ l l', F l → F (l ++ l').

Definition Holds (e : ExchangeState.t) (ts : list Task) (F : list Action → Prop)
    (w : World) : Prop :=
  Inv e ts w ∧ F (log w).

(** What a handler that starts no binding leaves of [w0]: the joint
    promises and the microtasks as they were, no new listener on a queue. *)
Record quiet (w0 w : World) : Prop := {
  q_joins : joins w = joins w0;
  q_micro : microtasks w = microtasks w0;
  q_getL : ∀ q r, r ∈ Queue.getL q w → r ∈ Queue.getL q w0;
  q_keys : ∀ i, keys_of i w = keys_of i w0;
  q_length : length (queues w) = length (queues w0);
}.

Definition Calm e ts F (w0 w : World) : Prop := Holds e ts F w ∧ quiet w0 w.

(** The calls [bindQueue] of [#bindKeys], one for each key. *)
Definition bind_calls (c : Channel) (qn : option string) (nm : string)
    (ks : list string) : list Action :=
  map (λ k, OnChannel c (BindQueue qn nm k)) ks.

(** An action that is no "ready" of the exchange and touches the bindings
    of the [q]-th queue only. *)
Definition bind_only (q : nat) (a : Action) : Prop :=
  is_ready_emit a = false
  ∧ ∀ i, i ≠ q →
      is_bound i a = false ∧ is_bind_ok i a = false ∧ is_bind_failure i a = false.

(** What [emit] needs of the registrations it is about to call. *)
Definition snap (q : QRef) (ls : list (Reg QListener)) (w : World) : Prop :=
  ∀ r q' o, r ∈ ls → fn r = LBindKeys q' o →
    q = UserQ q' ∧ once r = true ∧ Exchange.requested_keys o = keys_of q' w
    ∧ joins w !! q' = None ∧ q' < length (queues w)
    ∧ ∀ r', r' ∈ Queue.getL q w → is_bind (fn r') = true → rid r' = rid r.

(** The new queue, before its bindings are registered. *)
Definition unbound (i : nat) (o : QueueOptions) (w : World) : Prop :=
  is_Some (queues w !! i) ∧ keys_of i w = Exchange.requested_keys o
  ∧ joins w !! i = None
  ∧ ∀ r, r ∈ Queue.getL (UserQ i) w → is_bind (fn r) = false.

(** ** What the exchange asks of its channels *)

(** The calls on a channel that the exchange constructed as [e] and its
    queues may make: a declaration of the exchange itself, which is neither
    a default exchange nor the nameless one; a binding to the exchange, which
    has a name, with a routing key that is not empty; a publish to the
    exchange or to the nameless exchange, without the [reply] function. *)
Definition allowed_call (e : ExchangeState.t) (c : ChanCall) : Prop :=
  match c with
  | AssertExchange name type options =>
      name = ExchangeState.name e ∧ type = ExchangeState.type e
      ∧ options = ExchangeState.options e
      ∧ Exchange.isDefault name type = false ∧ name ≠ ""
  | BindQueue _ exchange key =>
      exchange = ExchangeState.name e ∧ exchange ≠ "" ∧ key ≠ ""
  | Publish exchange _ _ options =>
      (exchange = ExchangeState.name e ∨ exchange = "") ∧ reply options = None
  | _ => True
  end.

Definition allowed (e : ExchangeState.t) (a : Action) : Prop :=
  match a with
  | OnChannel _ c => allowed_call e c
  | _ => True
  end.

(** What every handler keeps of the exchange constructed as [e], and what it
    adds to the log [l0]. *)
Record grown (e : ExchangeState.t) (l0 : list Action) (w : World) : Prop := {
  g_name : ExchangeState.name (ex w) = ExchangeState.name e;
  g_type : ExchangeState.type (ex w) = ExchangeState.type e;
  g_options : ExchangeState.options (ex w) = ExchangeState.options e;
  g_reply : is_Some (ExchangeState.replyQueue (ex w))
            ↔ is_Some (ExchangeState.replyQueue e);
  g_ready : ExchangeState.ready e = true → ExchangeState.ready (ex w) = true;
  g_replies : ∀ id, is_Some (ExchangeState.pendingReplies e !! id) →
              is_Some (ExchangeState.pendingReplies (ex w) !! id);
  g_log : ∃ l', log w = l0 ++ l' ∧ Forall (allowed e) l';
}.

(** Two worlds with the same log and the same exchange, as far as [grown]
    sees. *)
Record same_identity (w w' : World) : Prop := {
  si_log : log w' = log w;
  si_name : ExchangeState.name (ex w') = ExchangeState.name (ex w);
  si_type : ExchangeState.type (ex w') = ExchangeState.type (ex w);
  si_options : ExchangeState.options (ex w') = ExchangeState.options (ex w);
  si_reply : is_Some (ExchangeState.replyQueue (ex w'))
             ↔ is_Some (ExchangeState.replyQueue (ex w));
  si_ready : ExchangeState.ready (ex w) = true → ExchangeState.ready (ex w') = true;
  si_replies : ∀ id, is_Some (ExchangeState.pendingReplies (ex w) !! id) →
               is_Some (ExchangeState.pendingReplies (ex w') !! id);
}.

(** ** What the listeners leave alone *)

(** The private fields of a queue: its channel, its name and its consumer
    tag. *)
Definition fields (s : QueueState.t)
    : option Channel * option string * option string :=
  (QueueState.channel s, QueueState.name s, QueueState.consumerTag s).

(** What the listeners of the exchange never change: its connection, its
    channel, its counter of publishes, its ready flag and the fields of the
    queues. *)
Record kept (w0 w : World) : Prop := {
  k_connection : ExchangeState.connection (ex w) = ExchangeState.connection (ex w0);
  k_channel : ExchangeState.channel (ex w) = ExchangeState.channel (ex w0);
  k_publishing : ExchangeState.publishing (ex w) = ExchangeState.publishing (ex w0);
  k_ready : ExchangeState.ready (ex w) = ExchangeState.ready (ex w0);
  k_queues : ∀ q, fields <$> get_queue q w = fields <$> get_queue q w0;
}.

(** What the listeners of a queue never change; they may close the
    exchange. *)
Record closing (w0 w : World) : Prop := {
  c_connection : ExchangeState.connection (ex w) = ExchangeState.connection (ex w0)
                 ∨ ExchangeState.connection (ex w) = None;
  c_channel : ExchangeState.channel (ex w) = ExchangeState.channel (ex w0)
              ∨ ExchangeState.channel (ex w) = None;
  c_publishing : ExchangeState.publishing (ex w) = ExchangeState.publishing (ex w0);
  c_queues : ∀ q, fields <$> get_queue q w = fields <$> get_queue q w0;
}.

(** ** src/queue.ts: [cancel] and [purge] *)

Module QueueAdmin.
Import QueueState.

(** What [cancel] and [purge] ask of the channel. *)
Inductive Call :=
| Cancel (ch : Channel) (consumerTag : string)
| PurgeQueue (ch : Channel) (queue : string).

(** [cancel(done)]: the call made, if any; [done] goes with it. *)
Definition cancel (s : t) : option Call :=
  if negb (truthy_str (consumerTag s)) then None
  else
    match channel s with
    | None => None
    | Some ch => Some (Cancel ch (default "" (consumerTag s)))
    end.

(** [purge(done)]: the call made, if any. *)
Definition purge (s : t) : option Call :=
  match channel s with
  | None => None
  | Some ch =>
      if negb (truthy_str (name s)) then None
      else Some (PurgeQueue ch (default "" (name s)))
  end.
End QueueAdmin.

(** A queue after [bail]. *)
Definition cleared (s : QueueState.t) : Prop :=
  QueueState.channel s = None ∧ QueueState.name s = None
  ∧ QueueState.consumerTag s = None.

(** ** Requests and replies across the broker *)

(** The message a consumer gets for a publish. *)
Definition delivery (key : option string) (bytes : string) (o : PublishOptions)
    : Message :=
  {| content := bytes;
     properties := {| contentType := read (pContentType o); replyTo := pReplyTo o;
                      correlationId := pCorrelationId o |};
     routingKey := default "" key |}.

(** The options [sendMessage] hands to [channel.publish] for a publish that
    asks for a reply. *)
Definition asking (o : PublishOptions) (replyTo : option string) (id : string)
    : PublishOptions :=
  let opts := Exchange.extend_publish Exchange.DEFAULT_PUBLISH_OPTIONS o in
  {| key := key opts; pContentType := pContentType opts;
     mandatory := mandatory opts; persistent := persistent opts;
     reply := None; pReplyTo := replyTo; pCorrelationId := Some id |}.

(** The options [ack] hands to [channel.publish] for its reply. *)
Definition answering (request : Message) : PublishOptions :=
  {| key := None; pContentType := present (contentType (properties request));
     mandatory := absent; persistent := absent; reply := None;
     pReplyTo := None; pCorrelationId := correlationId (properties request) |}.

(** ** Publishes that wait for "ready", over a run *)

(** The publishes the caller makes in a sequence of events, in order. *)
Definition calls (es : list System.Event) : list (value * PublishOptions) :=
  omap (λ ev, match ev with
              | System.CallPublish m o => Some (m, o)
              | _ => None
              end) es.

(** An exception nobody caught. *)
Definition is_uncaught (a : Action) : bool :=
  match a with
  | Uncaught _ => true
  | _ => false
  end.

(** How many exceptions escaped the handlers of the turns so far. *)
Definition uncaught (w : World) : nat := count is_uncaught (log w).

(** The registrations on the exchange are numbered apart, below the next
    number to give; and a [sendMessage] is registered for "ready", once. *)
Record tidy (w : World) : Prop := {
  t_below : ∀ r, r ∈ Exchange.getL w → rid r < nextRid w;
  t_apart : NoDup (rid <$> Exchange.getL w);
  t_sends : ∀ r, r ∈ Exchange.getL w → is_Some (send_of r) →
      event r = "ready" ∧ once r = true;
}.

(** What is left of a list of registrations after the [once] ones among
    [fired] have been removed, as [emit] does before it calls each. *)
Definition strike (fired : list (Reg ExListener)) (l : list (Reg ExListener))
    : list (Reg ExListener) :=
  foldl (λ l s, if once s then filter (λ r, rid r ≠ rid s) l else l) l fired.

(** What a handler leaves when it returns ([R]) and when it throws ([E]). *)
Definition spec {A} (P : World → Prop) (m : M A) (R E : World → Prop) : Prop :=
  ∀ w, P w →
    match m w with
    | (w', Normal _) => R w'
    | (w', Throw _) => E w'
    end.

(** Two worlds with the same registrations on the exchange, the same ready
    flag, name and log. *)
Record front (w w' : World) : Prop := {
  fr_getL : Exchange.getL w' = Exchange.getL w;
  fr_ready : ExchangeState.ready (ex w') = ExchangeState.ready (ex w);
  fr_name : ExchangeState.name (ex w') = ExchangeState.name (ex w);
  fr_log : log w' = log w;
  fr_nextRid : nextRid w ≤ nextRid w';
}.

(** While the exchange is not ready, the sends registered are [cs]. *)
Definition queued (cs : list (value * PublishOptions)) (w : World) : Prop :=
  tidy w ∧ (ExchangeState.ready (ex w) = false → deferred w = cs).

(** The exchange is ready and no send is registered. *)
Definition drained (w : World) : Prop :=
  tidy w ∧ ExchangeState.ready (ex w) = true ∧ deferred w = [].

(** A publish whose message can be made a [Buffer]. *)
Definition encodable `{Platform} (p : value * PublishOptions) : Prop :=
  is_Some (Exchange.encoded p.1 p.2).

(** Where the sends registered at [w0] stand: waiting as at [w0], or sent
    in order by the "ready" that found them. *)
Definition flown `{Platform} (w0 w : World) : Prop :=
  (ExchangeState.ready (ex w) = false ∧ deferred w = deferred w0
   ∧ published (log w) = published (log w0))
  ∨ (ExchangeState.ready (ex w) = true ∧ deferred w = []
     ∧ published (log w) = published (log w0) ++ map (sent w0) (deferred w0)
     ∧ Forall encodable (deferred w0)).

(** What the handlers of a turn that starts at [w0] keep, as long as none
    throws. *)
Record flow `{Platform} (w0 w : World) : Prop := {
  f_tidy : tidy w;
  f_name : ExchangeState.name (ex w) = ExchangeState.name (ex w0);
  f_uncaught : uncaught w = uncaught w0;
  f_flown : flown w0 w;
}.

(** What a listener of the exchange leaves as it was. *)
Record called (w w' : World) : Prop := {
  cl_getL : Exchange.getL w' = Exchange.getL w;
  cl_ready : ExchangeState.ready (ex w') = ExchangeState.ready (ex w);
  cl_name : ExchangeState.name (ex w') = ExchangeState.name (ex w);
  cl_nextRid : nextRid w' = nextRid w;
  cl_uncaught : uncaught w' = uncaught w;
}.

(** An action that is neither a publish nor an uncaught exception. *)
Definition quiet_action (a : Action) : Prop :=
  publication a = None ∧ is_uncaught a = false.

(** * Properties *)

(** Unfolding of the monad of handlers. *)
Ltac unfold_M :=
  unfold exec, outcome, mbind, M_bind, mret, M_ret, gets, modify, tell, throw,
    when, request, queueMicrotask, the_queue in *.

(** ** The constructor of an exchange *)

Lemma new_without_type name type options :
  truthy_str type = false →
  Exchange.new name type options = Throw (Error "missing exchange type").
Proof. intros Ht. unfold Exchange.new. by rewrite Ht. Qed.

Lemma new_nameless type options :
  type ≠ "" →
  ∃ e, Exchange.new (Some "") (Some type) options = Normal e
       ∧ ExchangeState.name e = "" ∧ ExchangeState.type e = type.
Proof.
  intros Ht. unfold Exchange.new. cbn.
  rewrite bool_decide_false by done. cbn. eauto.
Qed.

Lemma new_named name type options :
  name ≠ "" → type ≠ "" →
  ∃ e, Exchange.new (Some name) (Some type) options = Normal e
       ∧ ExchangeState.name e = name ∧ ExchangeState.type e = type.
Proof.
  intros Hn Ht. unfold Exchange.new, Exchange.isNameless. cbn.
  rewrite (bool_decide_false (type = "")) by done.
  rewrite (bool_decide_false (Some name = Some "")) by congruence.
  rewrite (bool_decide_false (name = "")) by done. cbn.
  rewrite (bool_decide_false (name = "")) by done. cbn. eauto.
Qed.

Lemma new_default type options :
  type ∈ ["direct"; "fanout"; "topic"] →
  ∃ e, Exchange.new None (Some type) options = Normal e
       ∧ ExchangeState.name e = "amq." +:+ type ∧ ExchangeState.type e = type.
Proof.
  intros Ht. repeat (apply elem_of_cons in Ht as [-> | Ht]);
    [| | | by apply elem_of_nil in Ht]; cbn; eauto.
Qed.

(** C8.  Constructing an exchange of type direct, fanout or topic without a
    name gives it the well-known name of its type (amq.direct, amq.fanout,
    amq.topic); with a non-empty name, it keeps that name; with the empty
    name, it keeps the empty name whatever the type; and with a missing or
    falsy type the constructor throws, whatever the name.  The constructor is
    a function of its arguments alone: no call reaches the client. *)
Theorem exchange_constructor_resolves_name :
  (∀ type options, type ∈ ["direct"; "fanout"; "topic"] →
     ∃ e, Exchange.new None (Some type) options = Normal e
          ∧ ExchangeState.name e = "amq." +:+ type
          ∧ ExchangeState.type e = type)
  ∧ (∀ name type options, name ≠ "" → type ≠ "" →
     ∃ e, Exchange.new (Some name) (Some type) options = Normal e
          ∧ ExchangeState.name e = name)
  ∧ (∀ type options, type ≠ "" →
     ∃ e, Exchange.new (Some "") (Some type) options = Normal e
          ∧ ExchangeState.name e = "")
  ∧ (∀ name type options, truthy_str type = false →
     Exchange.new name type options = Throw (Error "missing exchange type")).
Proof.
  split_and!.
  - apply new_default.
  - intros name type options Hn Ht.
    destruct (new_named name type options Hn Ht) as (e & ? & ? & ?); eauto.
  - intros type options Ht.
    destruct (new_nameless type options Ht) as (e & ? & ? & ?); eauto.
  - apply new_without_type.
Qed.

Lemma or_else_None {A} (o : option A) : or_else o None = o.
Proof. by destruct o. Qed.

(** ** Sending a message: [sendMessage] *)

Section Send.
Context `{Platform}.

(** C3.  When the options of a publish hold a reply function, the send
    draws a new identifier from [v4()], stores the function in
    [pendingReplies] under it, and hands [channel.publish] options whose
    [replyTo] is the reply queue's name, whose [correlationId] is that
    identifier and which hold no [reply].  (The exchange has its reply
    queue and its channel, and the message can be made a [Buffer].) *)
Theorem sendMessage_registers_reply w message options f rq ch bytes :
  reply options = Some f →
  ExchangeState.replyQueue (ex w) = Some rq →
  ExchangeState.channel (ex w) = Some ch →
  Exchange.encoded message options = Some bytes →
  let id := uuid_v4 (uuids w) in
  let w' := exec (Exchange.sendMessage message options) w in
  ∃ opts,
    outcome (Exchange.sendMessage message options) w = Normal tt
    ∧ uuids w' = S (uuids w)
    ∧ ExchangeState.pendingReplies (ex w')
      = <[id := f]> (ExchangeState.pendingReplies (ex w))
    ∧ log w'
      = log w ++ [OnChannel ch
                    (Publish (ExchangeState.name (ex w)) (key options) bytes opts)]
    ∧ pReplyTo opts = QueueState.name rq
    ∧ pCorrelationId opts = Some id
    ∧ reply opts = None.
Proof.
  intros Hf Hrq Hch Hb id w'. unfold Exchange.encoded in Hb. cbn in Hb.
  eexists. subst w'. unfold Exchange.sendMessage, Exchange.v4. unfold_M.
  cbn. destruct (Exchange.encodeMessage _ _) as [msg |]; [| done]. cbn.
  rewrite Hf. cbn. rewrite Hrq. cbn. rewrite Hch, Hb. cbn.
  rewrite or_else_None.
  destruct (writable w (writes w)); cbn; split_and!; reflexivity.
Qed.

(** ** Replies: [onReply] *)


End Send.

Lemma sendMessage_registers_reply_witness :
  let w := Examples.rpc_ready in
  let options := Examples.publish_options "rpc" (Some 5) in
  (reply options = Some 5
   ∧ ExchangeState.replyQueue (ex w) = Some Examples.rpc_queue
   ∧ ExchangeState.channel (ex w) = Some 10
   ∧ Exchange.encoded (H := Scalars.scalars) (str "ping") options
     = Some (Examples.quoted "ping"))
  ∧ ∃ opts,
      outcome (Exchange.sendMessage (H := Scalars.scalars) (str "ping") options) w
      = Normal tt
      ∧ uuids (exec (Exchange.sendMessage (H := Scalars.scalars) (str "ping") options) w)
        = S (uuids w)
      ∧ ExchangeState.pendingReplies
          (ex (exec (Exchange.sendMessage (H := Scalars.scalars) (str "ping") options) w))
        = <["uuid-0" := 5]> (ExchangeState.pendingReplies (ex w))
      ∧ log (exec (Exchange.sendMessage (H := Scalars.scalars) (str "ping") options) w)
        = log w ++ [OnChannel 10 (Publish "" (Some "rpc") (Examples.quoted "ping") opts)]
      ∧ pReplyTo opts = Some "amq.gen-1"
      ∧ pCorrelationId opts = Some "uuid-0"
      ∧ reply opts = None.
Proof.
  split; [by vm_compute |].
  apply (sendMessage_registers_reply (H := Scalars.scalars) Examples.rpc_ready
           (str "ping") (Examples.publish_options "rpc" (Some 5)) 5
           Examples.rpc_queue 10 (Examples.quoted "ping"));
    by vm_compute.
Defined.



(** ** The consumer's primitives: [ack] *)

Section Ack.
Context `{Platform}.

(** C5, as amended.  On a queue whose channel is open: for a message that
    does not carry both [replyTo] and [correlationId], [ack] acknowledges
    it; for a message that carries both, [ack] encodes its argument (given
    or not) by the message's content type and, when the encoding succeeds,
    publishes the bytes to the default exchange with [replyTo] as routing
    key and the same correlation id and content type, and then acknowledges
    the message; when the encoding throws, [ack] throws: nothing is
    published and the message is not acknowledged. *)
Theorem ack_replies_then_acknowledges q msg reply w s ch :
  get_queue q w = Some s →
  QueueState.channel s = Some ch →
  let w' := exec (QueueEvents.ack q msg reply) w in
  let result := outcome (QueueEvents.ack q msg reply) w in
  (QueueEvents.wants_reply msg = false →
     result = Normal tt ∧ log w' = log w ++ [OnChannel ch (Ack msg)])
  ∧ (∀ buffer,
       QueueEvents.wants_reply msg = true →
       Queue.encodeMessage reply (contentType (properties msg)) = Normal buffer →
       result = Normal tt
       ∧ log w' = log w ++ [OnChannel ch (QueueEvents.reply_call msg buffer);
                            OnChannel ch (Ack msg)])
  ∧ (∀ e,
       QueueEvents.wants_reply msg = true →
       Queue.encodeMessage reply (contentType (properties msg)) = Throw e →
       result = Throw e ∧ w' = w).
Proof.
  intros Hq Hch w' result. subst w' result. unfold QueueEvents.ack.
  split_and!.
  - intros ->. unfold_M. cbn. rewrite Hq. cbn. rewrite Hch. done.
  - intros buffer -> ->. unfold_M. cbn. rewrite Hq. cbn. rewrite Hch. cbn.
    assert (Hq' : ∀ f g, get_queue q (set_writes f (set_log g w)) = get_queue q w)
      by (by destruct q).
    rewrite Hq', Hq. cbn. rewrite Hch. cbn. by rewrite <- app_assoc.
  - intros e -> ->. by unfold_M.
Qed.

(** Only a [Buffer] can be encoded under a content type that is not JSON. *)
Lemma encodeMessage_not_json reply type :
  type ≠ Some "application/json" →
  isBuffer reply = false →
  Queue.encodeMessage reply type
  = Throw (Error "Unsupported message type for encoding").
Proof.
  intros Ht Hb. unfold Queue.encodeMessage.
  rewrite bool_decide_false by done. by destruct reply.
Qed.
End Ack.

Lemma ack_replies_then_acknowledges_witness :
  let w := Examples.consuming in
  let msg := Examples.json_request in
  let m := QueueEvents.ack (H := Scalars.scalars) (UserQ 0) msg (str "done") in
  (get_queue (UserQ 0) w = Some Examples.tasks_queue
   ∧ QueueState.channel Examples.tasks_queue = Some 12)
  ∧ (QueueEvents.wants_reply msg = false →
       outcome m w = Normal tt ∧ log (exec m w) = log w ++ [OnChannel 12 (Ack msg)])
  ∧ (∀ buffer,
       QueueEvents.wants_reply msg = true →
       Queue.encodeMessage (H := Scalars.scalars) (str "done")
         (contentType (properties msg)) = Normal buffer →
       outcome m w = Normal tt
       ∧ log (exec m w)
         = log w ++ [OnChannel 12 (QueueEvents.reply_call msg buffer);
                     OnChannel 12 (Ack msg)])
  ∧ (∀ e,
       QueueEvents.wants_reply msg = true →
       Queue.encodeMessage (H := Scalars.scalars) (str "done")
         (contentType (properties msg)) = Throw e →
       outcome m w = Throw e ∧ exec m w = w).
Proof.
  split; [by vm_compute |].
  apply (ack_replies_then_acknowledges (H := Scalars.scalars) (UserQ 0)
           Examples.json_request (str "done") Examples.consuming
           Examples.tasks_queue 12); by vm_compute.
Defined.

(** The claim C5 fails: the consumer acknowledges a plain-text request with
    a string as reply; [ack] throws and the message is not acknowledged. *)
Lemma ack_throws_before_acknowledging :
  let m := QueueEvents.ack (H := Scalars.scalars) (UserQ 0)
             Examples.plain_request (str "done") in
  outcome m Examples.consuming
  = Throw (Error "Unsupported message type for encoding")
  ∧ List.filter is_settlement (log (exec m Examples.consuming)) = [].
Proof. by vm_compute. Qed.

(** ** The delivery handler: [onMessage] *)

Section Delivery.
Context `{Platform}.

(** With no [try] around [JSON.parse], a body that is not JSON makes
    [onMessage] throw; nothing else happens. *)
Lemma onMessage_malformed_json_throws q callback msg w :
  contentType (properties msg) = Some "application/json" →
  JSON_parse (content msg) = None →
  QueueEvents.onMessage q callback (Some msg) w
  = (w, Throw (SyntaxError "Unexpected token in JSON")).
Proof.
  intros Ht Hp. unfold QueueEvents.onMessage, Queue.parseMessage.
  rewrite Ht, Hp. by rewrite bool_decide_true.
Qed.

(** C10, as amended.  A message whose body decodes to a falsy value is
    dropped: the consumer's function is not called, nothing is acknowledged
    or rejected, no event is emitted and nothing is thrown.  A body under a
    content type other than JSON decodes to a [Buffer], which is truthy even
    when empty: the consumer's function is called with it. *)
Theorem falsy_body_is_dropped q callback msg w :
  (∀ data,
     Queue.parseMessage msg = Normal data →
     truthy data = false →
     QueueEvents.onMessage q callback (Some msg) w = (w, Normal tt))
  ∧ (∀ f,
     contentType (properties msg) ≠ Some "application/json" →
     callback = UserFn f →
     QueueEvents.onMessage q callback (Some msg) w
     = (set_log (λ l, l ++ [Invoke f (Buffer (content msg)) msg]) w, Normal tt)).
Proof.
  split.
  - intros data Hp Hf. unfold QueueEvents.onMessage. rewrite Hp, Hf. done.
  - intros f Ht ->. unfold QueueEvents.onMessage, Queue.parseMessage.
    rewrite bool_decide_false by done. done.
Qed.
End Delivery.

Lemma falsy_body_is_dropped_witness :
  let w := Examples.consuming in
  let handler := QueueEvents.onMessage (H := Scalars.scalars) (UserQ 0) (UserFn 7) in
  (Queue.parseMessage (H := Scalars.scalars) Examples.json_null = Normal null
   ∧ truthy null = false)
  ∧ handler (Some Examples.json_null) w = (w, Normal tt)
  ∧ handler (Some Examples.empty_raw) w
    = (set_log (λ l, l ++ [Invoke 7 (Buffer "") Examples.empty_raw]) w, Normal tt).
Proof.
  split; [by vm_compute |].
  destruct (falsy_body_is_dropped (H := Scalars.scalars) (UserQ 0) (UserFn 7)
              Examples.json_null Examples.consuming) as [Hdrop _].
  destruct (falsy_body_is_dropped (H := Scalars.scalars) (UserQ 0) (UserFn 7)
              Examples.empty_raw Examples.consuming) as [_ Hraw].
  split; [by apply (Hdrop null) | by apply (Hraw 7)].
Defined.

(** The claim C10 fails on its last example: a message with an empty raw
    body is delivered to the consumer's function. *)
Lemma empty_raw_body_is_delivered :
  List.filter is_invocation
    (log (System.run (H := Scalars.scalars) Examples.consuming
            [System.Deliver 1 (Some Examples.empty_raw)]))
  = [Invoke 7 (Buffer "") Examples.empty_raw].
Proof. by vm_compute. Qed.

(** C6 on src/queue.ts: the delivery of a JSON message whose body is "{"
    throws out of [onMessage]; no "error" is emitted and the state is left
    as it was. *)
Theorem ts_malformed_json_escapes_handler :
  QueueEvents.onMessage (H := Scalars.scalars) (UserQ 0) (UserFn 7)
    (Some Examples.malformed) Examples.consuming
  = (Examples.consuming, Throw (SyntaxError "Unexpected token in JSON")).
Proof. by apply onMessage_malformed_json_throws. Qed.

(** lib/queue.js on the same delivery, with a listener on "error": the
    failure is emitted as "error", the listener is called, the consumer's
    function is not, nothing is acknowledged or rejected, and the handler
    returns. *)
Lemma legacy_malformed_json_is_reported :
  let m := Legacy.onMessage (H := Scalars.scalars) (UserQ 0) (UserFn 7)
             (Some Examples.malformed) in
  outcome m Examples.consuming_watched = Normal tt
  ∧ log (exec m Examples.consuming_watched)
    = log Examples.consuming_watched
      ++ [Emit (TheQueue (UserQ 0)) "error"
            (Some (Error "unable to parse message as JSON"));
          Listen 9].
Proof. by vm_compute. Qed.

(** lib/queue.js without a listener on "error": [emit("error", ...)] throws
    its argument out of the handler. *)
Lemma legacy_malformed_json_unwatched :
  Legacy.onMessage (H := Scalars.scalars) (UserQ 0) (UserFn 7)
    (Some Examples.malformed) Examples.consuming
  = (Examples.consuming, Throw (Error "unable to parse message as JSON")).
Proof. by vm_compute. Qed.

(** ** Closing the connection manager *)













(** ** Publishing before "ready": the sends *)

Lemma bind_Normal {A B} (m : M A) (f : A → M B) w w' a :
  m w = (w', Normal a) → (m ≫= f) w = f a w'.
Proof. intros Hm. unfold mbind, M_bind. by rewrite Hm. Qed.

Lemma bind_Throw {A B} (m : M A) (f : A → M B) w w' e :
  m w = (w', Throw e) → (m ≫= f) w = (w', Throw e).
Proof. intros Hm. unfold mbind, M_bind. by rewrite Hm. Qed.

Lemma when_remove {L} (setL : (list (Reg L) → list (Reg L)) → World → World)
    (s : Reg L) w :
  when (once s) (EventEmitter.removeListener setL (rid s)) w
  = (if once s then setL (filter (λ r, rid r ≠ rid s)) w else w, Normal tt).
Proof. by destruct (once s). Qed.

Lemma omap_nil {A B} (f : A → option B) (l : list A) :
  (∀ x, x ∈ l → f x = None) → omap f l = [].
Proof.
  induction l as [| x l IH]; [done |]. intros Hall. cbn.
  rewrite (Hall x) by (apply elem_of_cons; by left). apply IH.
  intros y Hy. apply Hall. apply elem_of_cons. by right.
Qed.

Section Deferred.
Context `{Platform}.

Lemma sendMessage_sends w ch p :
  ExchangeState.channel (ex w) = Some ch →
  sendable w p →
  ∃ w', Exchange.sendMessage p.1 p.2 w = (w', Normal tt)
        ∧ published (log w') = published (log w) ++ [sent w p]
        ∧ same_gate w w'
        ∧ Exchange.getL w' = Exchange.getL w.
Proof.
  destruct p as [m o]. intros Hch [[bytes Hb] Hrq]. cbn in *.
  unfold sent. cbn. rewrite Hb. unfold Exchange.encoded in Hb. cbn in Hb.
  unfold Exchange.sendMessage, Exchange.v4. unfold_M. cbn.
  destruct (Exchange.encodeMessage _ _) as [msg |]; [| done]. cbn.
  destruct (reply o) as [f|] eqn:Hf; cbn.
  - destruct Hrq as [rq Hrq]; [by eauto|]. rewrite Hrq. cbn. rewrite Hch, Hb. cbn.
    rewrite or_else_None.
    destruct (writable w (writes w)); cbn; eexists; (split; [reflexivity|]); cbn;
      unfold published; rewrite omap_app; cbn; split_and!; try done.
  - rewrite Hch, Hb. cbn. rewrite or_else_None.
    destruct (writable w (writes w)); cbn; eexists; (split; [reflexivity|]); cbn;
      unfold published; rewrite omap_app; cbn; split_and!; try done.
Qed.

Lemma same_gate_refl w : same_gate w w.
Proof. by repeat split. Qed.
Lemma same_gate_trans w1 w2 w3 : same_gate w1 w2 → same_gate w2 w3 → same_gate w1 w3.
Proof. unfold same_gate. intros (?&?&?&?) (?&?&?&?). split_and!; congruence. Qed.

Lemma runs_same_gate w w' r : same_gate w w' → runs w r → runs w' r.
Proof.
  intros (Hn & Hc & Hcon & Hrq). unfold runs, sendable.
  destruct (fn r); rewrite ?Hrq, ?Hcon; done.
Qed.

Lemma sent_same_gate w w' p : same_gate w w' → sent w' p = sent w p.
Proof. intros (Hn & _). unfold sent. by rewrite Hn. Qed.

Lemma map_sent_same_gate w w' l : same_gate w w' → map (sent w') l = map (sent w) l.
Proof. intros Hg. apply map_ext. intros p. by apply sent_same_gate. Qed.

Lemma call_runs w ch r arg :
  ExchangeState.channel (ex w) = Some ch →
  runs w r →
  ∃ w', Exchange.call (fn r) arg w = (w', Normal tt)
        ∧ published (log w') = published (log w) ++ map (sent w) (option_list (send_of r))
        ∧ same_gate w w'
        ∧ Exchange.getL w' = Exchange.getL w.
Proof.
  intros Hch Hr. unfold runs, send_of in *. destruct (fn r) as [m o | q | id]; cbn.
  - destruct Hr as [_ Hs]. by apply (sendMessage_sends w ch (m, o)).
  - destruct Hr as [c Hc]. unfold_M. cbn. rewrite Hc. cbn. eexists.
    split; [reflexivity |]. cbn. unfold published. rewrite omap_app. cbn.
    rewrite !app_nil_r. split_and!; try done. 
  - unfold_M. eexists. split; [reflexivity |]. cbn. unfold published.
    rewrite omap_app. cbn. rewrite !app_nil_r. split_and!; done.
Qed.

Lemma fire_runs snapshot : ∀ w ch arg,
  ExchangeState.channel (ex w) = Some ch →
  Forall (runs w) snapshot →
  ∃ w', EventEmitter.fire Exchange.setL Exchange.call snapshot arg w = (w', Normal tt)
        ∧ published (log w') = published (log w) ++ map (sent w) (omap send_of snapshot)
        ∧ same_gate w w'
        ∧ (∀ r, r ∈ Exchange.getL w' →
             r ∈ Exchange.getL w
             ∧ ∀ s, s ∈ snapshot → once s = true → rid r ≠ rid s).
Proof.
  induction snapshot as [| s rest IH]; intros w ch arg Hch Hall.
  - exists w. cbn. rewrite app_nil_r.
    refine (conj eq_refl (conj eq_refl (conj (same_gate_refl _) _))).
    intros r Hr. split; [done |]. intros s Hs. by apply elem_of_nil in Hs.
  - apply Forall_cons in Hall as [Hs Hrest].
    set (w0 := if once s then Exchange.setL (filter (λ r, rid r ≠ rid s)) w else w).
    assert (Hg0 : same_gate w w0) by (subst w0; destruct (once s); by repeat split).
    assert (Hl0 : ∀ r, r ∈ Exchange.getL w0 →
              r ∈ Exchange.getL w ∧ (once s = true → rid r ≠ rid s)).
    { subst w0. intros r Hr. destruct (once s); [| done]. cbn in Hr.
      apply list_elem_of_filter in Hr as [? ?]. done. }
    assert (Hlog0 : log w0 = log w) by (subst w0; by destruct (once s)).
    assert (Hch0 : ExchangeState.channel (ex w0) = Some ch).
    { destruct Hg0 as (_ & -> & _). done. }
    destruct (call_runs w0 ch s arg Hch0 (runs_same_gate _ _ _ Hg0 Hs))
      as (w1 & Hcall & Hpub1 & Hg1 & Hl1).
    assert (Hch1 : ExchangeState.channel (ex w1) = Some ch).
    { destruct Hg1 as (_ & -> & _). done. }
    assert (Hrest1 : Forall (runs w1) rest).
    { eapply Forall_impl; [exact Hrest |]. intros r. apply runs_same_gate.
      by eapply same_gate_trans. }
    destruct (IH w1 ch arg Hch1 Hrest1) as (w2 & Hfire & Hpub2 & Hg2 & Hl2).
    exists w2. split; [| split; [| split]].
    + cbn [EventEmitter.fire].
      erewrite bind_Normal; [| apply when_remove].
      erewrite bind_Normal; [| exact Hcall]. exact Hfire.
    + rewrite Hpub2, Hpub1, Hlog0. cbn [omap list_omap].
      rewrite (map_sent_same_gate w w0) by done.
      rewrite (map_sent_same_gate w w1) by (by eapply same_gate_trans).
      destruct (send_of s); cbn; by rewrite <- ?app_assoc, ?app_nil_r.
    + eapply same_gate_trans; [| exact Hg2]. by eapply same_gate_trans.
    + intros r Hr. destruct (Hl2 r Hr) as [Hr1 Hne]. rewrite Hl1 in Hr1.
      destruct (Hl0 r Hr1) as [Hr0 Hne0]. split; [done |].
      intros s' Hs'. apply elem_of_cons in Hs' as [-> | Hs']; [done | by apply Hne].
Qed.

Lemma emit_ready arg w :
  Exchange.emit "ready" arg w
  = EventEmitter.fire Exchange.setL Exchange.call
      (filter (λ r, event r = "ready") (Exchange.getL w)) arg
      (set_log (λ l, l ++ [Emit TheExchange "ready" arg]) w).
Proof.
  unfold Exchange.emit, EventEmitter.emit. unfold_M.
  destruct (filter _ _) eqn:Hf; [| done]. done.
Qed.

Lemma omap_send_of_ready (l : list (Reg ExListener)) :
  omap send_of (filter (λ r, event r = "ready") l) = omap pending_send l.
Proof.
  induction l as [| r l IH]; [done |]. rewrite filter_cons.
  cbn [omap list_omap]. rewrite <- IH. unfold pending_send.
  case_decide as Hr.
  - by rewrite bool_decide_true by done.
  - by rewrite bool_decide_false by done.
Qed.

Lemma emit_ready_flushes w ch :
  ExchangeState.channel (ex w) = Some ch →
  gate_ready w →
  ∃ w', Exchange.emit "ready" None w = (w', Normal tt)
        ∧ published (log w') = published (log w) ++ map (sent w) (deferred w)
        ∧ same_gate w w'
        ∧ deferred w' = []
        ∧ gate_ready w'.
Proof.
  intros Hch Hwf. rewrite emit_ready.
  set (w0 := set_log (λ l, l ++ [Emit TheExchange "ready" None]) w).
  assert (Hg0 : same_gate w w0) by (by repeat split).
  destruct (fire_runs (filter (λ r, event r = "ready") (Exchange.getL w)) w0 ch None)
    as (w' & Hfire & Hpub & Hg & Hl); [done | |].
  { apply Forall_forall. intros r Hr. apply list_elem_of_filter in Hr as [Hev Hr].
    unfold gate_ready in Hwf. rewrite Forall_forall in Hwf.
    eapply runs_same_gate; [exact Hg0 |]. by apply Hwf. }
  exists w'. split; [done |]. split; [| split; [| split]].
  - rewrite Hpub. rewrite omap_send_of_ready. subst w0. cbn.
    unfold published at 1. rewrite omap_app. cbn. rewrite app_nil_r.
    by rewrite (map_sent_same_gate w _ ) by done.
  - by eapply same_gate_trans.
  - apply omap_nil. intros r Hr. destruct (Hl r Hr) as [Hr0 Hne].
    unfold pending_send, send_of. case_bool_decide as Hev; [| done].
    destruct (fn r) as [m o | |] eqn:Hfn; [| done | done]. exfalso.
    assert (Hin : r ∈ filter (λ r, event r = "ready") (Exchange.getL w))
      by (by apply list_elem_of_filter).
    apply (Hne r Hin); [| done].
    unfold gate_ready in Hwf. rewrite Forall_forall in Hwf.
    specialize (Hwf r Hr0 Hev). unfold runs in Hwf. rewrite Hfn in Hwf. tauto.
  - unfold gate_ready. apply Forall_forall. intros r Hr Hev.
    destruct (Hl r Hr) as [Hr0 _].
    unfold gate_ready in Hwf. rewrite Forall_forall in Hwf.
    eapply runs_same_gate; [by eapply same_gate_trans |]. by apply Hwf.
Qed.

Lemma publish_defers w m o :
  ExchangeState.ready (ex w) = false →
  ∃ w', Exchange.publish m o w = (w', Normal tt)
        ∧ log w' = log w
        ∧ same_gate w w'
        ∧ ExchangeState.ready (ex w') = false
        ∧ ExchangeState.publishing (ex w') = (ExchangeState.publishing (ex w) + 1)%Z
        ∧ Exchange.getL w'
          = Exchange.getL w
            ++ [{| rid := nextRid w; event := "ready"; once := true;
                   fn := LSendMessage m o |}].
Proof.
  intros Hr. unfold Exchange.publish. unfold_M. cbn. rewrite Hr.
  eexists. split; [reflexivity |]. cbn. by repeat split.
Qed.

Lemma publishes_defer ps : ∀ w,
  ExchangeState.ready (ex w) = false →
  gate_ready w →
  Forall (sendable w) ps →
  ∃ w', publishAll ps w = (w', Normal tt)
        ∧ log w' = log w
        ∧ same_gate w w'
        ∧ ExchangeState.ready (ex w') = false
        ∧ ExchangeState.publishing (ex w')
          = (ExchangeState.publishing (ex w) + Z.of_nat (length ps))%Z
        ∧ deferred w' = deferred w ++ ps
        ∧ gate_ready w'.
Proof.
  induction ps as [| [m o] ps IH]; intros w Hr Hwf Hall.
  - exists w. cbn. rewrite app_nil_r, Z.add_0_r.
    refine (conj eq_refl (conj eq_refl (conj (same_gate_refl _) _))). done.
  - apply Forall_cons in Hall as [Hp Hps].
    destruct (publish_defers w m o Hr) as (w1 & Hpub & Hlog1 & Hg1 & Hr1 & Hn1 & Hl1).
    assert (Hwf1 : gate_ready w1).
    { unfold gate_ready. rewrite Hl1. apply Forall_app. split.
      - eapply Forall_impl; [exact Hwf |]. cbn. intros r Hrun Hev.
        eapply runs_same_gate; [exact Hg1 | by apply Hrun].
      - apply Forall_singleton. intros _. unfold runs. cbn. split; [done |].
        destruct Hg1 as (_ & _ & _ & Hrq). unfold sendable in *. by rewrite Hrq. }
    assert (Hps1 : Forall (sendable w1) ps).
    { eapply Forall_impl; [exact Hps |]. intros p. unfold sendable.
      destruct Hg1 as (_ & _ & _ & ->). done. }
    destruct (IH w1 Hr1 Hwf1 Hps1) as (w2 & Hrun & Hlog2 & Hg2 & Hr2 & Hn2 & Hd2 & Hwf2).
    exists w2. split; [| split; [| split; [| split; [| split; [| split]]]]].
    + unfold publishAll. cbn [forEach]. erewrite bind_Normal; [| exact Hpub].
      exact Hrun.
    + congruence.
    + by eapply same_gate_trans.
    + done.
    + rewrite Hn2, Hn1. cbn [length]. lia.
    + rewrite Hd2. unfold deferred. rewrite Hl1, omap_app. cbn.
      by rewrite <- app_assoc.
    + done.
Qed.

(** With the channel open and every listener registered for "ready" able
    to complete (each message can be made a [Buffer], and a reply is asked
    only of an exchange with a reply queue), [isReady] returns and has sent
    the publishes that waited, in order. *)
Lemma sendable_publishes_are_sent w ps ch :
  ExchangeState.ready (ex w) = false →
  ExchangeState.channel (ex w) = Some ch →
  gate_ready w →
  Forall (sendable w) ps →
  let w1 := exec (publishAll ps) w in
  let w2 := exec Exchange.isReady w1 in
  let w3 := exec (Exchange.emit "ready" None) w2 in
  log w1 = log w
  ∧ deferred w1 = deferred w ++ ps
  ∧ outcome Exchange.isReady w1 = Normal tt
  ∧ published (log w2) = published (log w) ++ map (sent w) (deferred w ++ ps)
  ∧ deferred w2 = []
  ∧ published (log w3) = published (log w2).
Proof.
  intros Hr Hch Hwf Hall w1 w2 w3.
  destruct (publishes_defer ps w Hr Hwf Hall)
    as (w1' & Hrun & Hlog1 & Hg1 & Hr1 & Hn1 & Hd1 & Hwf1).
  assert (Hw1 : w1 = w1') by (subst w1; unfold exec; by rewrite Hrun). 
  clearbody w1. subst w1'.
  set (w1r := set_ex (ExchangeState.with_ready true) w1).
  assert (Hgr : same_gate w1 w1r) by (by repeat split).
  assert (Hch1 : ExchangeState.channel (ex w1r) = Some ch).
  { destruct Hg1 as (_ & Hc & _). cbn. by rewrite Hc. }
  assert (Hwfr : gate_ready w1r).
  { unfold gate_ready in *. cbn. eapply Forall_impl; [exact Hwf1 |]. cbn.
    intros r Hrun' Hev. eapply runs_same_gate; [exact Hgr | by apply Hrun']. }
  destruct (emit_ready_flushes w1r ch Hch1 Hwfr) as (w2' & Hemit & Hpub2 & Hg2 & Hd2 & Hwf2).
  assert (HisReady : Exchange.isReady w1 = (w2', Normal tt)).
  { unfold Exchange.isReady. erewrite bind_Normal; [| reflexivity]. exact Hemit. }
  assert (Hw2 : w2 = w2') by (subst w2; unfold exec; by rewrite HisReady).
  clearbody w2. subst w2'.
  assert (Hch2 : ExchangeState.channel (ex w2) = Some ch).
  { destruct Hg2 as (_ & Hc & _). by rewrite Hc. }
  destruct (emit_ready_flushes w2 ch Hch2 Hwf2) as (w3' & Hemit3 & Hpub3 & _).
  assert (Hw3 : w3 = w3') by (subst w3; unfold exec; by rewrite Hemit3).
  clearbody w3. subst w3'.
  split_and!.
  - done.
  - done.
  - unfold outcome. by rewrite HisReady.
  - rewrite Hpub2. change (log w1r) with (log w1).
    change (deferred w1r) with (deferred w1). rewrite Hlog1, Hd1.
    by rewrite (map_sent_same_gate w w1r) by (by eapply same_gate_trans).
  - done.
  - rewrite Hpub3, Hd2. cbn. by rewrite app_nil_r.
Qed.
End Deferred.

(** The three publishes of the example reach the channel in order. *)
Lemma three_publishes_in_order :
  published
    (log (exec (Exchange.isReady (H := Scalars.scalars))
            (exec (publishAll (H := Scalars.scalars) Examples.three) Examples.waiting)))
  = [("", Some "a", Examples.quoted "one");
     ("", Some "b", Examples.quoted "two");
     ("", Some "c", "3")].
Proof. vm_compute. reflexivity. Qed.

(** ** Hoare triples for handlers *)

Lemma triple_ret {A} (P R : World → Prop) (a : A) :
  (∀ w, P w → R w) → triple P (mret a) R.
Proof. intros H w HP. by apply H. Qed.

Lemma triple_throw {A} (P R : World → Prop) e :
  (∀ w, P w → R w) → triple P (throw (A := A) e) R.
Proof. intros H w HP. by apply H. Qed.

Lemma triple_gets {A} (P R : World → Prop) (g : World → A) :
  (∀ w, P w → R w) → triple P (gets g) R.
Proof. intros H w HP. by apply H. Qed.

Lemma triple_modify (P R : World → Prop) f :
  (∀ w, P w → R (f w)) → triple P (modify f) R.
Proof. intros H w HP. by apply H. Qed.

Lemma triple_bind {A B} (P Q R : World → Prop) (m : M A) (f : A → M B) :
  triple P m Q → (∀ a, triple Q (f a) R) → (∀ w, Q w → R w) →
  triple P (m ≫= f) R.
Proof.
  intros Hm Hf HQR w HP. specialize (Hm w HP). unfold mbind, M_bind.
  destruct (m w) as [w' [a | e]]; cbn in *; [by apply Hf | by apply HQR].
Qed.

Lemma triple_gets_bind {A B} (P R : World → Prop) (g : World → A) (f : A → M B) :
  (∀ v, triple (λ w, P w ∧ g w = v) (f v) R) → triple P (gets g ≫= f) R.
Proof. intros H w HP. unfold mbind, M_bind, gets. cbn. by apply (H (g w)). Qed.

Lemma triple_weaken {A} (P P' R R' : World → Prop) (m : M A) :
  triple P' m R' → (∀ w, P w → P' w) → (∀ w, R' w → R w) → triple P m R.
Proof. intros H HP HR w Hw. apply HR, H, HP, Hw. Qed.

Lemma triple_drop {A} (P Q R : World → Prop) (m : M A) :
  triple P m R → triple (λ w, P w ∧ Q w) m R.
Proof. intros Hm w [HP _]. by apply Hm. Qed.

Lemma triple_and {A} (P Q P' Q' : World → Prop) (m : M A) :
  triple P m P' → triple Q m Q' → triple (λ w, P w ∧ Q w) m (λ w, P' w ∧ Q' w).
Proof. intros H1 H2 w [? ?]. split; [by apply H1 | by apply H2]. Qed.

Lemma triple_when (P : World → Prop) b m :
  triple P m P → triple P (when b m) P.
Proof. intros H. destruct b; [done |]. by apply triple_ret. Qed.

Lemma triple_forEach {A} (P : World → Prop) (f : A → M unit) l :
  (∀ x, x ∈ l → triple P (f x) P) → triple P (forEach f l) P.
Proof.
  induction l as [| x l IH]; intros H; cbn.
  - by apply triple_ret.
  - eapply triple_bind; [apply H; apply elem_of_cons; by left | | done].
    intros _. apply IH. intros y Hy. apply H. apply elem_of_cons. by right.
Qed.

Lemma triple_the_queue {B} (P R : World → Prop) q (f : QueueState.t → M B) :
  (∀ s, triple P (f s) R) → (∀ w, P w → R w) → triple P (the_queue q ≫= f) R.
Proof.
  intros Hf HPR w HP. unfold mbind, M_bind, the_queue.
  destruct (get_queue q w); [by apply Hf | by apply HPR].
Qed.

Lemma same_obs_refl w : same_obs w w.
Proof. by constructor. Qed.

Lemma progress_same_obs i ts w w' : same_obs w w' → progress i ts w' = progress i ts w.
Proof. intros []. unfold progress. congruence. Qed.

Lemma Inv_same_obs e ts w w' : same_obs w w' → Inv e ts w → Inv e ts w'.
Proof.
  intros Hs HI. pose proof (progress_same_obs) as Hp.
  destruct Hs, HI. constructor.
  - by rewrite so_log0.
  - congruence.
  - congruence.
  - etrans; done.
  - rewrite so_pending0, so_log0. done.
  - intros r. rewrite so_getL0, so_log0. auto.
  - intros i r. rewrite so_getL0. apply inv_user0.
  - rewrite so_ready0, so_log0. done.
  - intros r. rewrite so_getL0. auto.
  - intros i. unfold bind_regs. rewrite so_getL0, so_keys0, so_joins0. apply inv_binds0.
  - intros i. specialize (inv_joined0 i). unfold joined, bindings, bailing in *.
    rewrite (Hp i ts w w') by (by constructor).
    rewrite so_joins0, so_keys0, so_log0, so_microtasks0. done.
  - intros i. unfold bound_guarded, bindings. rewrite so_log0, so_keys0. apply inv_bound0.
  - intros i. rewrite so_length0, so_joins0. auto.
Qed.

(** ** The invariant: counting and monotonicity *)

Lemma count_app {A} (p : A → bool) l1 l2 :
  count p (l1 ++ l2) = count p l1 + count p l2.
Proof. unfold count. by rewrite List.filter_app, length_app. Qed.

Lemma count_snoc {A} (p : A → bool) l a :
  count p (l ++ [a]) = count p l + (if p a then 1 else 0).
Proof. rewrite count_app. unfold count. cbn. by destruct (p a). Qed.

Lemma opened_mono l l' : opened l → opened (l ++ l').
Proof. intros [ch H]. exists ch. apply elem_of_app. by left. Qed.

Lemma declared_mono e l l' : declared e l → declared e (l ++ l').
Proof. intros [H | H]; [left; apply elem_of_app; by left | by right]. Qed.

Lemma replied_mono e l l' : replied e l → replied e (l ++ l').
Proof. intros H Hs. destruct (H Hs) as [arg Ha]. exists arg. apply elem_of_app. by left. Qed.

Lemma gate_mono e l l' : gate e l → gate e (l ++ l').
Proof.
  intros (? & ? & ?).
  split; [by apply opened_mono | split; [by apply declared_mono | by apply replied_mono]].
Qed.

Lemma closed_mono l l' : closed l → closed (l ++ l').
Proof. intros [e H]. exists e. apply elem_of_app. by left. Qed.

(* splitting a log that ends with [a] *)
Lemma snoc_split {A} (l pre post : list A) a b :
  l ++ [a] = pre ++ b :: post →
  (post = [] ∧ pre = l ∧ b = a) ∨ (∃ post', post = post' ++ [a] ∧ l = pre ++ b :: post').
Proof.
  intros H. destruct (decide (post = [])) as [-> | Hne].
  - left. apply app_inj_tail in H as [-> ->]. done.
  - right. destruct (exists_last Hne) as (post' & a' & ->).
    rewrite app_comm_cons, app_assoc in H. apply app_inj_tail in H as [-> ->].
    eauto.
Qed.

Lemma guarded_snoc e l a :
  guarded e l → (is_ready_emit a = true → gate e l) → guarded e (l ++ [a]).
Proof.
  intros Hg Ha pre b post Heq Hb.
  apply snoc_split in Heq as [(-> & -> & ->) | (post' & -> & ->)]; [by apply Ha |].
  by apply (Hg pre b post').
Qed.

Lemma progress_tell i ts w a :
  progress i ts (set_log (λ l, l ++ [a]) w)
  = {| oks := oks (progress i ts w) + (if is_bind_ok i a then 1 else 0);
       failures := failures (progress i ts w) + (if is_bind_failure i a then 1 else 0);
       inflight := inflight (progress i ts w);
       bounds := bounds (progress i ts w) + (if is_bound i a then 1 else 0);
       tbounds := tbounds (progress i ts w) |}.
Proof.
  unfold progress, set_log. cbn [log pending microtasks].
  by rewrite !count_snoc.
Qed.

Lemma bailing_tell ts w a : bailing ts w → bailing ts (set_log (λ l, l ++ [a]) w).
Proof. intros [H | H]; [left; by apply closed_mono | by right]. Qed.

Lemma bound_guarded_tell i w a :
  bound_guarded i w →
  (is_bound i a = true → count (is_bind_ok i) (log w) = bindings i w) →
  bound_guarded i (set_log (λ l, l ++ [a]) w).
Proof.
  intros Hg Ha pre b post Heq Hb. cbn in Heq.
  apply snoc_split in Heq as [(-> & -> & ->) | (post' & -> & Heq)]; [by apply Ha |].
  by apply (Hg pre b post').
Qed.

Lemma Inv_tell e ts w a : plain a → Inv e ts w → Inv e ts (set_log (λ l, l ++ [a]) w).
Proof.
  intros [Hr Hq] HI. destruct HI. constructor; cbn; try done.
  - apply guarded_snoc; [done |]. by rewrite Hr.
  - intros H. by apply opened_mono, inv_declaring0.
  - intros r Hin Hf. destruct (inv_isReady0 r Hin Hf) as (? & ? & ?).
    split; [done |]. split; [by apply opened_mono | by apply declared_mono].
  - intros H. by apply gate_mono, inv_flag0.
  - intros i. specialize (inv_joined0 i). destruct (Hq i) as (Hb & Ho & Hf).
    unfold joined in *. rewrite progress_tell. rewrite Hb, Ho, Hf. cbn.
    rewrite !Nat.add_0_r.
    change (bindings i (set_log _ w)) with (bindings i w).
    change (joins (set_log _ w)) with (joins w).
    destruct (joins w !! i); [| done].
    destruct inv_joined0 as [? | [? | [? | ?]]]; [by left | right; by left | |].
    + right; right; left. destruct_and!. split_and!; try done. by apply bailing_tell.
    + right; right; right. destruct_and!. split_and!; try done. by apply bailing_tell.
  - intros i. apply bound_guarded_tell; [done |]. destruct (Hq i) as (Hb & _). by rewrite Hb.
Qed.

(** ** The invariant: queues by reference *)

Lemma get_queue_update q q' f w :
  get_queue q' (update_queue q f w)
  = if decide (q = q') then f <$> get_queue q' w else get_queue q' w.
Proof.
  destruct q as [| i], q' as [| j]; cbn; try done.
  - rewrite list_lookup_alter. destruct (decide (i = j)) as [-> | Hne].
    + by rewrite decide_True.
    + by rewrite decide_False by congruence.
Qed.

Lemma getL_update_fields q q' f w :
  (∀ s, QueueState.listeners (f s) = QueueState.listeners s) →
  Queue.getL q' (update_queue q f w) = Queue.getL q' w.
Proof.
  intros Hf. unfold Queue.getL. rewrite get_queue_update.
  case_decide; [| done]. destruct (get_queue q' w); cbn; [apply Hf | done].
Qed.

Lemma keys_of_update q i f w :
  (∀ s, QueueState.options (f s) = QueueState.options s) →
  keys_of i (update_queue q f w) = keys_of i w.
Proof.
  intros Hf. unfold keys_of. change (queues ?w !! i) with (get_queue (UserQ i) w).
  rewrite get_queue_update. case_decide; [| done].
  destruct (get_queue (UserQ i) w); cbn; [by rewrite Hf | done].
Qed.

Lemma length_queues_update q f w :
  length (queues (update_queue q f w)) = length (queues w).
Proof. destruct q; cbn; [done | apply length_alter]. Qed.

Lemma reply_update q f w :
  is_Some (ExchangeState.replyQueue (ex (update_queue q f w)))
  ↔ is_Some (ExchangeState.replyQueue (ex w)).
Proof. destruct q; cbn; [| done]. by rewrite fmap_is_Some. Qed.

Lemma same_obs_update_fields q f w :
  (∀ s, QueueState.listeners (f s) = QueueState.listeners s) →
  (∀ s, QueueState.options (f s) = QueueState.options s) →
  same_obs w (update_queue q f w).
Proof.
  intros Hl Ho. constructor; try (by destruct q).
  - apply reply_update.
  - intros q'. by apply getL_update_fields.
  - intros i. by apply keys_of_update.
  - apply length_queues_update.
Qed.

Lemma getL_setL q q' f w :
  Queue.getL q' (Queue.setL q f w)
  = if decide (q = q') then from_option (λ s, f (QueueState.listeners s)) [] (get_queue q' w)
    else Queue.getL q' w.
Proof.
  unfold Queue.getL, Queue.setL. rewrite get_queue_update.
  case_decide; [| done]. by destruct (get_queue q' w).
Qed.

Lemma elem_getL_setL r q q' f w :
  r ∈ Queue.getL q' (Queue.setL q f w) →
  if decide (q = q') then r ∈ f (Queue.getL q w) else r ∈ Queue.getL q' w.
Proof.
  rewrite getL_setL. case_decide as Hq; [subst q' | done].
  unfold Queue.getL. destruct (get_queue q w); cbn; [done |].
  intros H. by apply elem_of_nil in H.
Qed.

(** The updates of the state that the invariant does not see. *)
Lemma same_obs_ex f w :
  (∀ e, ExchangeState.name (f e) = ExchangeState.name e) →
  (∀ e, ExchangeState.type (f e) = ExchangeState.type e) →
  (∀ e, ExchangeState.ready (f e) = ExchangeState.ready e) →
  (∀ e, ExchangeState.replyQueue (f e) = ExchangeState.replyQueue e) →
  same_obs w (set_ex f w).
Proof.
  intros Hn Ht Hr Hq. constructor; cbn; try done.
  - by rewrite Hq.
  - intros [| i]; unfold Queue.getL; cbn; [by rewrite Hq | done].
Qed.

Ltac obs := constructor; cbn; try done.

Lemma same_obs_trans w1 w2 w3 : same_obs w1 w2 → same_obs w2 w3 → same_obs w1 w3.
Proof.
  intros [] []. constructor; try congruence.
  etrans; done.
Qed.

Lemma progress_frame i ts w w' :
  log w' = log w → pending w' = pending w → microtasks w' = microtasks w →
  progress i ts w' = progress i ts w.
Proof. intros Hl Hp Hm. unfold progress. by rewrite Hl, Hp, Hm. Qed.

Lemma keys_of_setL q i f w : keys_of i (Queue.setL q f w) = keys_of i w.
Proof. apply keys_of_update. done. Qed.

Lemma Inv_setL e ts w q f :
  (∀ ls r, r ∈ f ls → r ∈ ls ∨ plain_reg r) →
  (∀ ls, count (λ r, is_bind (fn r)) (f ls) ≤ count (λ r, is_bind (fn r)) ls) →
  Inv e ts w → Inv e ts (Queue.setL q f w).
Proof.
  intros Hsub Hcount HI.
  assert (Hin : ∀ q' r, r ∈ Queue.getL q' (Queue.setL q f w) →
                        r ∈ Queue.getL q' w ∨ plain_reg r).
  { intros q' r Hr. apply elem_getL_setL in Hr.
    case_decide; [subst; by apply Hsub | by left]. }
  assert (Hlog : log (Queue.setL q f w) = log w) by (by destruct q).
  assert (Hpend : pending (Queue.setL q f w) = pending w) by (by destruct q).
  assert (Hmt : microtasks (Queue.setL q f w) = microtasks w) by (by destruct q).
  assert (Hj : joins (Queue.setL q f w) = joins w) by (by destruct q).
  destruct HI. constructor.
  - by rewrite Hlog.
  - by destruct q.
  - by destruct q.
  - etrans; [apply reply_update | done].
  - by rewrite Hpend, Hlog.
  - intros r Hr Hf. rewrite Hlog. destruct (Hin _ _ Hr) as [? | [? ?]]; [auto | done].
  - intros i r Hr. destruct (Hin _ _ Hr) as [? | [? ?]]; [by eapply inv_user0 | done].
  - rewrite Hlog. by destruct q.
  - intros r Hr. destruct (Hin _ _ Hr) as [? | [? ?]]; [auto | done].
  - intros i. destruct (inv_binds0 i) as [Hc Hb]. split.
    + rewrite getL_setL. case_decide; [| done]. subst q.
      unfold Queue.getL in Hc. destruct (get_queue (UserQ i) w); cbn in *; [| done].
      etrans; [apply Hcount | done].
    + intros r q0 o Hr Hf. rewrite keys_of_setL, Hj.
      destruct (Hin _ _ Hr) as [? | [_ Hp]]; [by eapply Hb |].
      by rewrite Hf in Hp.
  - intros i. specialize (inv_joined0 i). unfold joined, bindings, bailing in *.
    rewrite (progress_frame i ts w) by done. by rewrite Hj, keys_of_setL, Hlog, Hmt.
  - intros i. unfold bound_guarded, bindings. rewrite Hlog, keys_of_setL. apply inv_bound0.
  - intros i. rewrite Hj. unfold Queue.setL. rewrite length_queues_update.
    apply inv_fresh0.
Qed.

Lemma Inv_add_plain e ts w q reg :
  plain_reg reg → Inv e ts w → Inv e ts (Queue.setL q (λ ls, ls ++ [reg]) w).
Proof.
  intros Hp. apply Inv_setL.
  - intros ls r Hr. apply elem_of_app in Hr as [? | Hr]; [by left |].
    apply list_elem_of_singleton in Hr as ->. by right.
  - intros ls. rewrite count_snoc. destruct Hp as [_ ->]. lia.
Qed.

Lemma count_cons {A} (p : A → bool) x l :
  count p (x :: l) = (if p x then 1 else 0) + count p l.
Proof. unfold count. cbn. by destruct (p x). Qed.

Lemma count_filter_le {A} (p : A → bool) (P : A → Prop) `{∀ x, Decision (P x)} l :
  count p (filter P l) ≤ count p l.
Proof.
  induction l as [| x l IH]; [done |]. rewrite filter_cons.
  case_decide; rewrite ?count_cons; lia.
Qed.

Lemma Inv_remove e ts w q id :
  Inv e ts w → Inv e ts (Queue.setL q (filter (λ r, rid r ≠ id)) w).
Proof.
  apply Inv_setL.
  - intros ls r Hr. apply list_elem_of_filter in Hr as [_ ?]. by left.
  - intros ls. apply count_filter_le.
Qed.

Lemma Inv_add_isReady e ts w reg :
  fn reg = LIsReady → event reg = "ready" →
  opened (log w) → declared e (log w) →
  Inv e ts w → Inv e ts (Queue.setL ReplyQ (λ ls, ls ++ [reg]) w).
Proof.
  intros Hfn Hev Ho Hd HI. destruct HI. constructor; try done.
  - cbn. by rewrite fmap_is_Some.
  - intros r Hr Hf. apply elem_getL_setL in Hr. rewrite decide_True in Hr by done.
    change (log (Queue.setL _ _ w)) with (log w).
    apply elem_of_app in Hr as [? | Hr]; [auto |].
    apply list_elem_of_singleton in Hr as ->. done.
  - intros r Hr. apply elem_getL_setL in Hr. rewrite decide_True in Hr by done.
    apply elem_of_app in Hr as [? | Hr]; [auto |].
    apply list_elem_of_singleton in Hr as ->. by rewrite Hfn.
Qed.

Lemma progress_request i ts w r :
  progress i ts (set_pending (λ p, p ++ [r]) w)
  = {| oks := oks (progress i ts w);
       failures := failures (progress i ts w);
       inflight := inflight (progress i ts w) + (if is_bind_request i r then 1 else 0);
       bounds := bounds (progress i ts w);
       tbounds := tbounds (progress i ts w) |}.
Proof.
  unfold progress, set_pending. cbn [log pending microtasks].
  by rewrite count_snoc.
Qed.

Lemma Inv_request e ts w r :
  (r = ReqAssertExchange → opened (log w)) →
  (∀ i, is_bind_request i r = false) →
  Inv e ts w → Inv e ts (set_pending (λ p, p ++ [r]) w).
Proof.
  intros Ho Hb HI. destruct HI. constructor; try done.
  - cbn. intros H. apply elem_of_app in H as [? | H]; [auto |].
    apply list_elem_of_singleton in H. auto.
  - intros i. specialize (inv_joined0 i). unfold joined in *.
    rewrite progress_request, Hb, Nat.add_0_r. by destruct (progress i ts w).
Qed.

Lemma Inv_ready e ts w :
  gate e (log w) → Inv e ts w → Inv e ts (set_ex (ExchangeState.with_ready true) w).
Proof. intros Hg HI. destruct HI. constructor; try done. Qed.

Lemma quiet_refl w : quiet w w.
Proof. by constructor. Qed.

Lemma quiet_same_obs w0 w w' : same_obs w w' → quiet w0 w → quiet w0 w'.
Proof.
  intros [] []. constructor; try congruence.
  intros q r. rewrite so_getL0. auto.
Qed.

Lemma Calm_same_obs e ts F w0 f :
  (∀ w, same_obs w (f w)) → triple (Calm e ts F w0) (modify f) (Calm e ts F w0).
Proof.
  intros Hf. apply triple_modify. intros w [[HI HF] Hq]. specialize (Hf w).
  split; [split |].
  - by eapply Inv_same_obs.
  - by rewrite (so_log _ _ Hf).
  - by eapply quiet_same_obs.
Qed.

Lemma Calm_tell e ts F w0 a :
  Mono F → plain a → triple (Calm e ts F w0) (tell a) (Calm e ts F w0).
Proof.
  intros HM Ha. apply triple_modify. intros w [[HI HF] Hq].
  split; [split |].
  - by apply Inv_tell.
  - by apply HM.
  - destruct Hq. by constructor.
Qed.

Lemma Calm_request e ts F w0 r :
  (r = ReqAssertExchange → ∀ l, F l → opened l) →
  (∀ i, is_bind_request i r = false) →
  triple (Calm e ts F w0) (request r) (Calm e ts F w0).
Proof.
  intros Ho Hb. apply triple_modify. intros w [[HI HF] Hq].
  split; [split |].
  - apply Inv_request; [| done | done]. intros ->. by eapply Ho.
  - done.
  - destruct Hq. by constructor.
Qed.

Lemma pres_bind {A B} (P : World → Prop) (m : M A) (f : A → M B) :
  triple P m P → (∀ a, triple P (f a) P) → triple P (m ≫= f) P.
Proof. intros. by eapply triple_bind. Qed.

Lemma pres_gets_bind {A B} (P : World → Prop) (g : World → A) (f : A → M B) :
  (∀ a, triple P (f a) P) → triple P (gets g ≫= f) P.
Proof. intros. apply pres_bind; [by apply triple_gets | done]. Qed.

Lemma pres_ret {A} (P : World → Prop) (a : A) : triple P (mret a) P.
Proof. by apply triple_ret. Qed.

Lemma pres_throw {A} (P : World → Prop) e : triple P (throw (A := A) e) P.
Proof. by apply triple_throw. Qed.

Lemma pres_the_queue {B} (P : World → Prop) q (f : QueueState.t → M B) :
  (∀ s, triple P (f s) P) → triple P (the_queue q ≫= f) P.
Proof. intros. by apply triple_the_queue. Qed.

Ltac walk1 :=
  lazymatch goal with
  | |- triple _ (mret _) _ => apply pres_ret
  | |- triple _ (throw _) _ => apply pres_throw
  | |- triple _ (gets _) _ => apply triple_gets; intros; assumption
  | |- triple _ (gets _ ≫= _) _ => apply pres_gets_bind; intros ?
  | |- triple _ (the_queue _ ≫= _) _ => apply pres_the_queue; intros ?
  | |- triple _ (when _ _) _ => apply triple_when
  | |- triple _ (_ ≫= _) _ => apply pres_bind; [| intros ?]
  | |- triple _ (match ?x with _ => _ end) _ => destruct x
  end.

Ltac walk := repeat walk1.

Ltac plainly := split; [done | intros ?; done].

Section ExchangeSide.
Context `{Platform}.
Variables (e : ExchangeState.t) (ts : list Task) (F : list Action → Prop) (w0 : World).
Hypothesis HM : Mono F.

Local Abbreviation calm := (Calm e ts F w0).

Lemma Calm_sendMessage m o : triple calm (Exchange.sendMessage m o) calm.
Proof.
  unfold Exchange.sendMessage, Exchange.v4, Exchange.onDrain. walk.
  - apply Calm_same_obs. intros w. by obs.
  - apply Calm_same_obs. intros w. by apply same_obs_ex.
  - apply Calm_tell; [done | plainly].
  - apply Calm_same_obs. intros w. by obs.
  - apply Calm_same_obs. intros w. by obs.
Qed.

Lemma Calm_connect q con : triple calm (Queue.connect q con) calm.
Proof.
  unfold Queue.connect. walk.
  - apply Calm_tell; [done | plainly].
  - apply Calm_request; [done | done].
Qed.

Lemma Calm_call l arg : triple calm (Exchange.call l arg) calm.
Proof.
  destruct l; cbn.
  - apply Calm_sendMessage.
  - walk. apply Calm_connect.
  - apply Calm_tell; [done | plainly].
Qed.

Lemma Calm_fire ls arg :
  triple calm (EventEmitter.fire Exchange.setL Exchange.call ls arg) calm.
Proof.
  induction ls as [| r ls IH]; cbn; walk; try done.
  - apply Calm_same_obs. intros w. by apply same_obs_ex.
  - apply Calm_call.
Qed.

Lemma Calm_emit ev arg :
  String.eqb ev "ready" = false →
  triple calm (Exchange.emit ev arg) calm.
Proof.
  intros Hev. unfold Exchange.emit, EventEmitter.emit. walk.
  - apply Calm_tell; [done |]. split; [done | intros ?; done].
  - apply Calm_tell; [done |]. split; [done | intros ?; done].
  - apply Calm_fire.
Qed.

Lemma Calm_emit_ready arg :
  (∀ l, F l → gate e l) →
  triple calm (Exchange.emit "ready" arg) calm.
Proof.
  intros Hg. unfold Exchange.emit, EventEmitter.emit.
  assert (Htell : triple calm (tell (Emit TheExchange "ready" arg)) calm).
  { apply triple_modify. intros w [[HI HF] Hq]. split; [split |].
    - destruct HI. constructor; cbn; try done.
      + apply guarded_snoc; [done |]. intros _. by apply Hg.
      + intros Hp. by apply opened_mono, inv_declaring0.
      + intros r Hin Hf. destruct (inv_isReady0 r Hin Hf) as (? & ? & ?).
        split; [done |]. split; [by apply opened_mono | by apply declared_mono].
      + intros Hr. by apply gate_mono, inv_flag0.
      + intros i. specialize (inv_joined0 i). unfold joined in *.
        rewrite progress_tell. cbn. rewrite !Nat.add_0_r.
        change (bindings i (set_log _ w)) with (bindings i w).
        change (joins (set_log _ w)) with (joins w).
        destruct (joins w !! i); [| done].
        destruct inv_joined0 as [? | [? | [? | ?]]]; [by left | right; by left | |].
        * right; right; left. destruct_and!. split_and!; try done. by apply bailing_tell.
        * right; right; right. destruct_and!. split_and!; try done. by apply bailing_tell.
      + intros i. apply bound_guarded_tell; [done |]. cbn. done.
    - by apply HM.
    - destruct Hq. by constructor. }
  walk; try done. apply Calm_fire.
Qed.

Lemma Calm_isReady :
  (∀ l, F l → gate e l) → triple calm Exchange.isReady calm.
Proof.
  intros Hg. unfold Exchange.isReady. walk.
  - apply triple_modify. intros w [[HI HF] Hq]. split; [split |]; [| done |].
    + apply Inv_ready; [by apply Hg | done].
    + destruct Hq. constructor; try done.
  - by apply Calm_emit_ready.
Qed.

Lemma Calm_bail err : triple calm (Exchange.bail err) calm.
Proof.
  unfold Exchange.bail. walk.
  - apply Calm_same_obs. intros w. by apply same_obs_ex.
  - apply Calm_same_obs. intros w. by apply same_obs_ex.
  - by apply Calm_emit.
Qed.

Lemma Calm_onReply data msg : triple calm (Exchange.onReply data msg) calm.
Proof.
  unfold Exchange.onReply, Exchange.inherited.
  walk; (apply Calm_tell; [done | plainly]).
Qed.
End ExchangeSide.

Lemma Calm_Holds {A} e ts F (m : M A) :
  (∀ w0, triple (Calm e ts F w0) m (Calm e ts F w0)) →
  triple (Holds e ts F) m (Holds e ts F).
Proof. intros Hm w Hw. apply (Hm w w). split; [done | apply quiet_refl]. Qed.

Lemma Holds_same_obs e ts F f :
  (∀ w, same_obs w (f w)) → triple (Holds e ts F) (modify f) (Holds e ts F).
Proof. intros Hf. apply Calm_Holds. intros w0. by apply Calm_same_obs. Qed.

Lemma Holds_tell e ts F a :
  Mono F → plain a → triple (Holds e ts F) (tell a) (Holds e ts F).
Proof. intros. apply Calm_Holds. intros w0. by apply Calm_tell. Qed.

Lemma Holds_request e ts F r :
  (r = ReqAssertExchange → ∀ l, F l → opened l) →
  (∀ i, is_bind_request i r = false) →
  triple (Holds e ts F) (request r) (Holds e ts F).
Proof. intros. apply Calm_Holds. intros w0. by apply Calm_request. Qed.

Lemma same_obs_nextRid f w : same_obs w (set_nextRid f w).
Proof. by constructor. Qed.

Lemma Holds_add e ts F q ev o fn0 :
  fn0 ≠ LIsReady → is_bind fn0 = false →
  triple (Holds e ts F) (EventEmitter.addListener (Queue.setL q) ev o fn0) (Holds e ts F).
Proof.
  intros H1 H2. apply triple_modify. intros w [HI HF]. split.
  - eapply Inv_same_obs; [apply same_obs_nextRid |]. by apply Inv_add_plain.
  - by destruct q.
Qed.

Lemma Holds_remove e ts F q id :
  triple (Holds e ts F) (EventEmitter.removeListener (Queue.setL q) id) (Holds e ts F).
Proof.
  apply triple_modify. intros w [HI HF]. split; [by apply Inv_remove | by destruct q].
Qed.

Lemma Holds_weaken {A} e ts (F F' : list Action → Prop) (m : M A) :
  triple (Holds e ts F') m (Holds e ts F') →
  (∀ l, F l → F' l) →
  triple (Holds e ts F) m (Inv e ts).
Proof.
  intros Hm HF w [HI Hl]. apply (Hm w). split; [done | by apply HF].
Qed.

Section ExchangeTop.
Context `{Platform}.
Variables (e : ExchangeState.t) (ts : list Task) (F : list Action → Prop).
Hypothesis HM : Mono F.

Local Abbreviation holds := (Holds e ts F).

Lemma Holds_bail err : triple holds (Exchange.bail err) holds.
Proof. apply Calm_Holds. intros w0. by apply Calm_bail. Qed.

Lemma Holds_publish m o : triple holds (Exchange.publish m o) holds.
Proof.
  unfold Exchange.publish. walk.
  - apply Holds_same_obs. intros w. by apply same_obs_ex.
  - apply Calm_Holds. intros w0. by apply Calm_sendMessage.
  - apply Holds_same_obs. intros w.
    eapply same_obs_trans; [| apply same_obs_nextRid]. by apply same_obs_ex.
Qed.

Lemma Holds_connect con : triple holds (Exchange.connect con) holds.
Proof.
  unfold Exchange.connect, Queue.consume, Queue.on, Queue.once. walk.
  - apply Holds_same_obs. intros w. by apply same_obs_ex.
  - apply Holds_tell; [done | plainly].
  - by apply Holds_request.
  - by apply Holds_add.
  - by apply Holds_add.
Qed.

Lemma Holds_onExchange err :
  (∀ l, F l → opened l ∧ declared e l) →
  triple holds (Exchange.onExchange err) holds.
Proof.
  intros HF. unfold Exchange.onExchange. destruct err; [apply Holds_bail |].
  apply triple_gets_bind. intros rq. destruct rq as [s |].
  - apply triple_drop. unfold Queue.once. walk.
    + apply Calm_Holds. intros w0. by apply Calm_connect.
    + apply triple_modify. intros w [HI Hl]. destruct (HF _ Hl) as [Ho Hd]. split; [| done].
      eapply Inv_same_obs; [apply same_obs_nextRid |]. by apply Inv_add_isReady.
  - intros w [[HI Hl] Hrq].
    assert (Hno : ¬ is_Some (ExchangeState.replyQueue e)).
    { rewrite <- (inv_reply _ _ _ HI), Hrq. by intros [? ?]. }
    set (F' := λ l, F l ∧ gate e l).
    assert (HM' : Mono F').
    { intros l l' [? ?]. split; [by apply HM | by apply gate_mono]. }
    assert (Hw : Holds e ts F' w).
    { split; [done |]. split; [done |]. destruct (HF _ Hl) as [Ho Hd].
      split; [done | split; [done |]]. intros Hs. by destruct Hno. }
    destruct (Calm_Holds e ts F' _ (λ w0, Calm_isReady e ts F' w0 HM' (λ l Hl', proj2 Hl')) w Hw)
      as [HI' [Hl' _]].
    by split.
Qed.

End ExchangeTop.

Lemma Holds_onChannel `{Platform} e ts F err chan :
  Mono F →
  (err = None → ∀ l, F l → opened l) →
  triple (Holds e ts F) (Exchange.onChannel err chan) (Holds e ts F).
Proof.
  intros HM HF. unfold Exchange.onChannel. destruct err; [by apply Holds_bail |].
  specialize (HF eq_refl).
  apply pres_bind; [apply Holds_same_obs; intros w; by apply same_obs_ex |]. intros _.
  apply pres_bind; [apply Holds_same_obs; intros w; by obs |]. intros _.
  apply pres_bind; [apply Calm_Holds; intros w0; by apply Calm_emit |]. intros _.
  apply triple_gets_bind. intros e'.
  destruct (Exchange.isDefault _ _ || Exchange.isNameless _) eqn:Hskip.
  - intros w [[HI Hl] He].
    assert (Hun : undeclared e = true).
    { unfold undeclared. rewrite <- (inv_name _ _ _ HI), <- (inv_type _ _ _ HI), He. done. }
    set (F' := λ l, F l ∧ opened l ∧ declared e l).
    assert (HM' : Mono F').
    { intros l l' (? & ? & ?).
      split; [by apply HM | split; [by apply opened_mono | by apply declared_mono]]. }
    assert (Hw : Holds e ts F' w).
    { split; [done |]. split; [done |]. split; [by apply HF | by right]. }
    destruct (Holds_onExchange e ts F' HM' None (λ l Hl', proj2 Hl') w Hw) as [HI' [Hl' _]].
    by split.
  - apply triple_drop. walk.
    + apply Holds_tell; [done | plainly].
    + apply Holds_request; [| done]. intros _. done.
Qed.

(** ** The invariant: the bindings start, [bindKeys] *)

Section Binding.
Context `{Platform}.

Lemma afterDrain_Calm e ts F w0 :
  Mono F → triple (Calm e ts F w0) Exchange.afterDrain (Calm e ts F w0).
Proof.
  intros HM. unfold Exchange.afterDrain. walk.
  - apply Calm_same_obs. intros w. by apply same_obs_ex.
  - by apply Calm_emit.
Qed.

Lemma bindKey_some q k w c :
  ExchangeState.channel (ex w) = Some c →
  Exchange.bindKey q k w
  = (set_pending (λ p, p ++ [ReqBindQueue q k])
       (set_log (λ l, l ++ [OnChannel c
          (BindQueue (from_option QueueState.name None (get_queue (UserQ q) w))
             (ExchangeState.name (ex w)) k)]) w),
     Normal tt).
Proof. intros Hc. unfold Exchange.bindKey. unfold_M. cbn. by rewrite Hc. Qed.

Lemma bindKey_none q k w :
  ExchangeState.channel (ex w) = None → Exchange.bindKey q k w = (w, Normal tt).
Proof. intros Hc. unfold Exchange.bindKey. unfold_M. cbn. by rewrite Hc. Qed.

Lemma forEach_bindKey q ks : ∀ w c,
  ExchangeState.channel (ex w) = Some c →
  forEach (Exchange.bindKey q) ks w
  = (set_pending (λ p, p ++ map (ReqBindQueue q) ks)
       (set_log (λ l, l ++ bind_calls c
                    (from_option QueueState.name None (get_queue (UserQ q) w))
                    (ExchangeState.name (ex w)) ks) w),
     Normal tt).
Proof.
  induction ks as [| k ks IH]; intros w c Hc.
  - cbn. unfold set_pending, set_log. cbn. rewrite !app_nil_r. by destruct w.
  - cbn [forEach]. erewrite bind_Normal; [| by apply bindKey_some].
    rewrite (IH _ c) by done. cbn. unfold set_pending, set_log. cbn.
    by rewrite <- !app_assoc.
Qed.

Lemma forEach_bindKey_none q ks : ∀ w,
  ExchangeState.channel (ex w) = None →
  forEach (Exchange.bindKey q) ks w = (w, Normal tt).
Proof.
  induction ks as [| k ks IH]; intros w Hc; [done |].
  cbn [forEach]. erewrite bind_Normal; [| by apply bindKey_none]. by apply IH.
Qed.
End Binding.

Lemma count_zero {A} (p : A → bool) l :
  Forall (λ a, p a = false) l → count p l = 0.
Proof.
  induction 1 as [| a l Ha _ IH]; [done |]. rewrite count_cons, Ha, IH. done.
Qed.

Lemma guarded_app e l l' :
  guarded e l → Forall (λ a, is_ready_emit a = false) l' → guarded e (l ++ l').
Proof.
  intros Hg. induction l' as [| a l' IH] using rev_ind; intros Hl'.
  - by rewrite app_nil_r.
  - apply Forall_app in Hl' as [Hl' Ha]. rewrite Forall_singleton in Ha.
    rewrite app_assoc. apply guarded_snoc; [by apply IH |]. by rewrite Ha.
Qed.

Lemma bound_guarded_app i w w' l' :
  bound_guarded i w → log w' = log w ++ l' → bindings i w' = bindings i w →
  Forall (λ a, is_bound i a = false) l' → bound_guarded i w'.
Proof.
  intros Hg Hlog Hk. unfold bound_guarded. rewrite Hlog, Hk. clear Hlog Hk.
  induction l' as [| a l' IH] using rev_ind; intros Hl'.
  - by rewrite app_nil_r.
  - apply Forall_app in Hl' as [Hl' Ha]. rewrite Forall_singleton in Ha.
    intros pre b post Heq Hb. rewrite app_assoc in Heq.
    apply snoc_split in Heq as [(-> & -> & ->) | (post' & -> & Heq)]; [congruence |].
    by apply (IH Hl' pre b post').
Qed.

Lemma Inv_binding e ts ts' w w' q l' :
  Inv e ts w →
  log w' = log w ++ l' →
  Forall (bind_only q) l' →
  ex w' = ex w → queues w' = queues w →
  (ReqAssertExchange ∈ pending w' → ReqAssertExchange ∈ pending w) →
  (∀ i, i ≠ q →
     joins w' !! i = joins w !! i
     ∧ count (is_bind_request i) (pending w') = count (is_bind_request i) (pending w)
     ∧ count (is_TBound i) (ts' ++ microtasks w')
       = count (is_TBound i) (ts ++ microtasks w)) →
  (count is_TBail (ts ++ microtasks w) ≠ 0 → bailing ts' w') →
  q < length (queues w) →
  (∀ r, r ∈ Queue.getL (UserQ q) w → is_bind (fn r) = false) →
  joined q ts' w' →
  bound_guarded q w' →
  Inv e ts' w'.
Proof.
  intros HI Hlog Hl' Hex Hqs Hpend Hother Hbail Hlen Hno Hjq Hbq.
  assert (HgetL : ∀ q0, Queue.getL q0 w' = Queue.getL q0 w).
  { intros [| i]; unfold Queue.getL; cbn; by rewrite ?Hex, ?Hqs. }
  assert (Hkeys : ∀ i, keys_of i w' = keys_of i w).
  { intros i. unfold keys_of. by rewrite Hqs. }
  assert (Hzero : ∀ i (p : nat → Action → bool), i ≠ q →
            (∀ a, bind_only q a → p i a = false) → count (p i) l' = 0).
  { intros i p Hne Hp. apply count_zero. eapply Forall_impl; [exact Hl' |]. done. }
  destruct HI. constructor.
  - rewrite Hlog. apply guarded_app; [done |].
    eapply Forall_impl; [exact Hl' |]. by intros a [? _].
  - by rewrite Hex.
  - by rewrite Hex.
  - by rewrite Hex.
  - intros Hp. rewrite Hlog. apply opened_mono. auto.
  - intros r. rewrite HgetL, Hlog. intros Hr Hf.
    destruct (inv_isReady0 r Hr Hf) as (? & ? & ?).
    split; [done |]. split; [by apply opened_mono | by apply declared_mono].
  - intros i r. rewrite HgetL. apply inv_user0.
  - rewrite Hex, Hlog. intros Hr. by apply gate_mono, inv_flag0.
  - intros r. rewrite HgetL. apply inv_reply_binds0.
  - intros i. unfold bind_regs. rewrite HgetL, Hkeys.
    destruct (inv_binds0 i) as [Hc Hb]. split; [done |].
    intros r q0 o Hr Hf. destruct (decide (i = q)) as [-> | Hne].
    + specialize (Hno r Hr). rewrite Hf in Hno. done.
    + destruct (Hother i Hne) as (-> & _). by eapply Hb.
  - intros i. destruct (decide (i = q)) as [-> | Hne]; [done |].
    destruct (Hother i Hne) as (Hj & Hp & Ht).
    specialize (inv_joined0 i).
    unfold joined, progress, bindings in inv_joined0 |- *.
    cbn [oks failures inflight bounds tbounds] in inv_joined0 |- *.
    rewrite Hj, Hp, Ht, Hkeys, Hlog, !(count_app _ (log w) l').
    rewrite (Hzero i is_bind_ok), (Hzero i is_bind_failure), (Hzero i is_bound),
      !Nat.add_0_r; try done.
    + destruct (joins w !! i); [| done].
      assert (Hbail' : bailing ts w → bailing ts' w').
      { intros [Hcl | ?]; [| by apply Hbail]. left. rewrite Hlog. by apply closed_mono. }
      destruct inv_joined0
        as [? | [? | [(? & ? & ? & ? & ? & Hb') | (? & ? & ? & ? & ? & ? & ? & Hb')]]];
        [by left | right; by left | |].
      * right; right; left. split_and!; try done. by apply Hbail'.
      * right; right; right. split_and!; try done. by apply Hbail'.
    + intros a [_ Ha]. by apply Ha.
    + intros a [_ Ha]. by apply Ha.
    + intros a [_ Ha]. by apply Ha.
  - intros i. destruct (decide (i = q)) as [-> | Hne]; [done |].
    eapply bound_guarded_app; [apply inv_bound0 | done | |].
    + unfold bindings. by rewrite Hkeys.
    + eapply Forall_impl; [exact Hl' |]. intros a [_ Ha]. by apply Ha.
  - intros i. rewrite Hqs. intros Hi. destruct (decide (i = q)) as [-> | Hne]; [lia |].
    destruct (Hother i Hne) as (-> & _). by apply inv_fresh0.
Qed.

Lemma plain_bind_only q a : plain a → bind_only q a.
Proof. intros [Hr Hq]. split; [done |]. intros i _. apply Hq. Qed.

Lemma count_bind_requests i q rs :
  count (is_bind_request i) (map (ReqBindQueue q) rs)
  = if Nat.eqb q i then length rs else 0.
Proof.
  induction rs as [| r rs IH]; cbn [map].
  - by destruct (Nat.eqb q i).
  - rewrite count_cons, IH. cbn. destruct (Nat.eqb q i); cbn; lia.
Qed.

Lemma Inv_start e ts w w' q j l' rs mt :
  Inv e ts w → joins w !! q = None → q < length (queues w) →
  (∀ r, r ∈ Queue.getL (UserQ q) w → is_bind (fn r) = false) →
  log w' = log w ++ l' → Forall plain l' →
  pending w' = pending w ++ map (ReqBindQueue q) rs →
  joins w' = <[q := j]> (joins w) →
  microtasks w' = microtasks w ++ mt →
  ex w' = ex w → queues w' = queues w →
  (settled j = false ∧ 1 ≤ remaining j ∧ length rs = remaining j
   ∧ length rs = bindings q w ∧ mt = [])
  ∨ (settled j = true ∧ rs = [] ∧ bindings q w = 0 ∧ mt = [TBound q])
  ∨ (settled j = true ∧ rs = [] ∧ 1 ≤ bindings q w ∧ ∃ err, mt = [TBail err]) →
  Inv e ts w'.
Proof.
  intros HI Hj Hlen Hno Hlog Hl' Hpend Hjoins Hmt Hex Hqs Hcase.
  assert (Hmt_other : ∀ i, i ≠ q → count (is_TBound i) mt = 0).
  { intros i Hne. destruct Hcase as [(_ & _ & _ & _ & ->) | [(_ & _ & _ & ->) | (_ & _ & _ & err & ->)]];
      [done | | done].
    assert (Nat.eqb q i = false) as Hqi by (apply Nat.eqb_neq; congruence).
    rewrite count_cons. cbn. by rewrite Hqi. }
  assert (Hzero : ∀ p, (∀ a, plain a → p a = false) → count p l' = 0).
  { intros p Hp. apply count_zero. eapply Forall_impl; [exact Hl' |]. done. }
  pose proof (inv_joined _ _ _ HI q) as Hq0. unfold joined in Hq0. rewrite Hj in Hq0.
  unfold progress in Hq0. cbn [oks failures inflight bounds tbounds] in Hq0.
  destruct Hq0 as (Hoks & Hfail & Hinf & Hbounds & Htb).
  assert (Hkq : bindings q w' = bindings q w) by (unfold bindings, keys_of; by rewrite Hqs).
  eapply (Inv_binding e ts ts w w' q l'); try done.
  - eapply Forall_impl; [exact Hl' |]. intros a. apply plain_bind_only.
  - rewrite Hpend. intros Hin. apply elem_of_app in Hin as [? | Hin]; [done |].
    apply list_elem_of_fmap in Hin as (k & ? & _). done.
  - intros i Hne. rewrite Hjoins, Hpend, Hmt. split; [by rewrite lookup_insert_ne |].
    assert (Nat.eqb q i = false) as Hqi by (apply Nat.eqb_neq; congruence).
    rewrite !count_app, count_bind_requests, Hmt_other, Hqi by done. split; lia.
  - intros Hb. right. rewrite Hmt, !count_app in *. lia.
  - unfold joined, progress, bindings, bailing.
    cbn [oks failures inflight bounds tbounds].
    assert (Hk : keys_of q w' = keys_of q w) by (unfold keys_of; by rewrite Hqs).
    rewrite Hjoins, lookup_insert_eq, Hlog, Hpend, Hmt, Hk, !count_app.
    rewrite count_bind_requests, Nat.eqb_refl.
    rewrite (Hzero (is_bind_ok q)), (Hzero (is_bind_failure q)), (Hzero (is_bound q)).
    2: { intros a [_ Ha]. apply Ha. }
    2: { intros a [_ Ha]. apply Ha. }
    2: { intros a [_ Ha]. apply Ha. }
    rewrite count_app in Htb. unfold bindings in Hcase.
    destruct Hcase as [(? & ? & ? & ? & ->) | [(? & -> & ? & ->) | (? & -> & ? & err & ->)]].
    + left. cbn. split_and!; try done; lia.
    + right; left. rewrite count_cons. cbn. rewrite Nat.eqb_refl. cbn.
      split_and!; try done; lia.
    + right; right; right. rewrite !count_cons. cbn.
      split_and!; try done; try lia; try (right; lia).
  - eapply bound_guarded_app; [apply (inv_bound _ _ _ HI) | done | done |].
    eapply Forall_impl; [exact Hl' |]. intros a [_ Ha]. apply Ha.
Qed.

Lemma gets_bind {A B} (g : World → A) (f : A → M B) w : (gets g ≫= f) w = f (g w) w.
Proof. done. Qed.

Section Started.
Context `{Platform}.

Lemma bindKeys_Inv e ts q w :
  Inv e ts w → joins w !! q = None → q < length (queues w) →
  (∀ r, r ∈ Queue.getL (UserQ q) w → is_bind (fn r) = false) →
  Inv e ts (Exchange.bindKeys q (keys_of q w) w).1
  ∧ (∃ l', log (Exchange.bindKeys q (keys_of q w) w).1 = log w ++ l')
  ∧ ∀ q' r, r ∈ Queue.getL q' (Exchange.bindKeys q (keys_of q w) w).1 → r ∈ Queue.getL q' w.
Proof.
  intros HI Hj Hlen Hno.
  assert (Hk : length (keys_of q w) = bindings q w) by done.
  remember (keys_of q w) as ks eqn:Hks. clear Hks.
  unfold Exchange.bindKeys. rewrite gets_bind. cbn beta.
  destruct (ExchangeState.channel (ex w)) as [c |] eqn:Hc.
  - erewrite bind_Normal; [| by apply forEach_bindKey].
    destruct ks as [| k ks].
    + unfold Exchange.set_join. unfold_M. cbn. split; [| split; [by eexists | done]].
      apply (Inv_start e ts w _ q {| remaining := 0; settled := true |} [] [] [TBound q]);
        try done; try (cbn; by rewrite app_nil_r).
      right; left. done.
    + unfold Exchange.set_join. unfold_M. cbn [fst]. split; [| split; [by eexists | done]].
      apply (Inv_start e ts w _ q {| remaining := length (k :: ks); settled := false |}
               (bind_calls c (from_option QueueState.name None (get_queue (UserQ q) w))
                  (ExchangeState.name (ex w)) (k :: ks)) (k :: ks) []);
        try done; try (cbn; by rewrite app_nil_r).
      * apply Forall_forall. intros a Ha. apply list_elem_of_fmap in Ha as (k' & -> & _).
        split; [done | intros ?; done].
      * left. cbn. split_and!; try done. lia.
  - erewrite bind_Normal; [| by apply forEach_bindKey_none].
    destruct ks as [| k ks].
    + unfold Exchange.set_join. unfold_M. cbn.
      split; [| split; [exists []; by rewrite app_nil_r | done]].
      apply (Inv_start e ts w _ q {| remaining := 0; settled := true |} [] [] [TBound q]);
        try done; try (cbn; by rewrite app_nil_r).
      right; left. done.
    + unfold Exchange.set_join. unfold_M. cbn.
      split; [| split; [exists []; by rewrite app_nil_r | done]].
      apply (Inv_start e ts w _ q {| remaining := length (k :: ks); settled := true |} [] [] 
               [TBail (TypeError "Cannot read properties of undefined (reading 'bindQueue')")]);
        try done; try (cbn; by rewrite app_nil_r).
      right; right. cbn in Hk. split_and!; try done; [lia | by eexists].
Qed.
End Started.

(** ** The invariant: the listeners of a queue *)

Lemma count_pos {A} (p : A → bool) l x : x ∈ l → p x = true → 1 ≤ count p l.
Proof.
  induction l as [| y l IH]; intros Hx Hp; [by apply elem_of_nil in Hx |].
  rewrite count_cons. apply elem_of_cons in Hx as [<- | Hx]; [rewrite Hp; lia |].
  specialize (IH Hx Hp). lia.
Qed.

Lemma count_le1_unique {A} (p : A → bool) l x y :
  count p l ≤ 1 → x ∈ l → y ∈ l → p x = true → p y = true → x = y.
Proof.
  induction l as [| z l IH]; intros Hc Hx Hy Hpx Hpy; [by apply elem_of_nil in Hx |].
  rewrite count_cons in Hc.
  apply elem_of_cons in Hx as [-> | Hx], Hy as [-> | Hy]; [done | | |].
  - rewrite Hpx in Hc. pose proof (count_pos p l y Hy Hpy). lia.
  - rewrite Hpy in Hc. pose proof (count_pos p l x Hx Hpx). lia.
  - apply IH; try done. destruct (p z); lia.
Qed.

Lemma count_zero_inv {A} (p : A → bool) l x : count p l = 0 → x ∈ l → p x = false.
Proof.
  intros Hc Hx. destruct (p x) eqn:Hp; [| done].
  pose proof (count_pos p l x Hx Hp). lia.
Qed.

Lemma snap_quiet q ls w0 w : quiet w0 w → snap q ls w0 → snap q ls w.
Proof.
  intros [] Hs r q' o Hr Hf. destruct (Hs r q' o Hr Hf) as (? & ? & ? & ? & ? & Hu).
  split_and!; try congruence. intros r' Hr'. apply Hu. by apply q_getL0.
Qed.

Lemma snap_tail q r ls w : snap q (r :: ls) w → snap q ls w.
Proof. intros Hs r' q' o Hr'. apply Hs. apply elem_of_cons. by right. Qed.

Lemma Calm_frame {A} e ts F (S : World → Prop) (m : M A) :
  (∀ w0, triple (Calm e ts F w0) m (Calm e ts F w0)) →
  (∀ w0 w, quiet w0 w → S w0 → S w) →
  triple (λ w, Holds e ts F w ∧ S w) m (λ w, Holds e ts F w ∧ S w).
Proof.
  intros Hm HS w [HH Hs]. destruct (Hm w w) as [HH' Hq]; [split; [done | apply quiet_refl] |].
  split; [done |]. by eapply HS.
Qed.

Section QueueSide.
Context `{Platform}.
Variables (e : ExchangeState.t) (ts : list Task) (F : list Action → Prop).
Hypothesis HM : Mono F.

Lemma Calm_remove w0 q id :
  triple (Calm e ts F w0) (EventEmitter.removeListener (Queue.setL q) id) (Calm e ts F w0).
Proof.
  apply triple_modify. intros w [[HI HF] Hq]. split; [split |].
  - by apply Inv_remove.
  - by destruct q.
  - destruct Hq. constructor.
    + by destruct q.
    + by destruct q.
    + intros q' r Hr. apply q_getL0. apply elem_getL_setL in Hr.
      case_decide; [subst q' | done]. by apply list_elem_of_filter in Hr as [_ ?].
    + intros i. by rewrite keys_of_setL.
    + unfold Queue.setL. by rewrite length_queues_update.
Qed.

Lemma Calm_startConsume w0 q cb o :
  triple (Calm e ts F w0) (QueueEvents.startConsume q cb o) (Calm e ts F w0).
Proof.
  unfold QueueEvents.startConsume. walk.
  - apply Calm_tell; [done | plainly].
  - by apply Calm_request.
  - apply Calm_same_obs. intros w. by obs.
Qed.

Lemma Calm_call_queue w0 q l arg :
  is_bind l = false →
  (l = LIsReady → ∀ l0, F l0 → gate e l0) →
  triple (Calm e ts F w0) (QueueEvents.call q l arg) (Calm e ts F w0).
Proof.
  intros Hb Hg. destruct l; cbn; try done.
  - by apply Calm_bail.
  - apply Calm_isReady; [done | by apply Hg].
  - apply Calm_startConsume.
  - apply Calm_tell; [done | plainly].
Qed.

Lemma Calm_fire_queue w0 q ls arg :
  (∀ r, r ∈ ls → is_bind (fn r) = false) →
  (∀ r, r ∈ ls → fn r = LIsReady → ∀ l, F l → gate e l) →
  triple (Calm e ts F w0)
    (EventEmitter.fire (Queue.setL q) (QueueEvents.call q) ls arg) (Calm e ts F w0).
Proof.
  induction ls as [| r ls IH]; intros Hb Hg; cbn [EventEmitter.fire]; [apply pres_ret |].
  apply pres_bind; [apply triple_when, Calm_remove |]. intros _.
  apply pres_bind.
  - apply Calm_call_queue; [apply Hb | apply Hg]; apply elem_of_cons; by left.
  - intros _. apply IH.
    + intros r' Hr'. apply Hb. apply elem_of_cons. by right.
    + intros r' Hr'. apply Hg. apply elem_of_cons. by right.
Qed.
End QueueSide.

Section QueueEmit.
Context `{Platform}.
Variables (e : ExchangeState.t) (ts : list Task).

Lemma Holds_onQueueReady F q o :
  Mono F →
  triple (λ w, Holds e ts F w ∧ joins w !! q = None ∧ q < length (queues w)
               ∧ Exchange.requested_keys o = keys_of q w
               ∧ ∀ r, r ∈ Queue.getL (UserQ q) w → is_bind (fn r) = false)
    (Exchange.onQueueReady q o) (Holds e ts F).
Proof.
  intros HM w ([HI HF] & Hj & Hlen & Hk & Hno). unfold Exchange.onQueueReady.
  rewrite gets_bind. cbn beta. destruct (negb _); [| done].
  rewrite Hk. destruct (bindKeys_Inv e ts q w HI Hj Hlen Hno) as (HI' & [l' Hl'] & _).
  split; [done |]. rewrite Hl'. by apply HM.
Qed.

Lemma Holds_fire_queue F q ls arg :
  Mono F →
  count (λ r, is_bind (fn r)) ls ≤ 1 →
  (∀ r, r ∈ ls → fn r = LIsReady → ∀ l, F l → gate e l) →
  triple (λ w, Holds e ts F w ∧ snap q ls w)
    (EventEmitter.fire (Queue.setL q) (QueueEvents.call q) ls arg) (Holds e ts F).
Proof.
  intros HM. induction ls as [| r ls IH]; intros Hc Hg; cbn [EventEmitter.fire].
  { apply triple_ret. by intros w [? _]. }
  rewrite count_cons in Hc. destruct (is_bind (fn r)) eqn:Hb.
  - assert (Hnone : ∀ r', r' ∈ ls → is_bind (fn r') = false).
    { intros r' Hr'. apply (count_zero_inv (λ r, is_bind (fn r)) ls r'); [lia | done]. }
    destruct (fn r) as [q' o | | | |] eqn:Hfn; try done.
    eapply triple_bind with
      (Q := λ w, Holds e ts F w ∧ joins w !! q' = None ∧ q' < length (queues w)
                 ∧ Exchange.requested_keys o = keys_of q' w
                 ∧ ∀ r0, r0 ∈ Queue.getL (UserQ q') w → is_bind (fn r0) = false).
    + intros w [[HI HF] Hs].
      destruct (Hs r q' o) as (-> & Honce & Hk & Hj & Hlen & Hu);
        [apply elem_of_cons; by left | done |].
      rewrite Honce. unfold when, EventEmitter.removeListener, modify. cbn [fst].
      split; [split; [by apply Inv_remove | done] |].
      split; [done |]. split; [unfold Queue.setL; by rewrite length_queues_update |].
      split; [by rewrite keys_of_setL |].
      intros r0 Hr0. apply elem_getL_setL in Hr0. rewrite decide_True in Hr0 by done.
      apply list_elem_of_filter in Hr0 as [Hne Hr0].
      destruct (is_bind (fn r0)) eqn:Hb0; [| done]. by destruct Hne; apply Hu.
    + intros _. eapply triple_bind with (Q := Holds e ts F).
      * cbn. by apply Holds_onQueueReady.
      * intros _. apply Calm_Holds. intros w0. apply Calm_fire_queue; [done | done |].
        intros r' Hr'. apply Hg. apply elem_of_cons. by right.
      * done.
    + by intros w [? _].
  - eapply triple_bind with (Q := λ w, Holds e ts F w ∧ snap q (r :: ls) w).
    + apply triple_when. apply Calm_frame; [| intros; by eapply snap_quiet].
      intros w0. by apply Calm_remove.
    + intros _. eapply triple_bind with (Q := λ w, Holds e ts F w ∧ snap q ls w).
      * eapply triple_weaken;
          [apply (Calm_frame e ts F (snap q (r :: ls))) | done | intros w [? ?]; split; [done | by eapply snap_tail]].
        -- intros w0. apply Calm_call_queue; [done | done |].
           apply Hg. apply elem_of_cons. by left.
        -- intros; by eapply snap_quiet.
      * intros _. apply IH; [lia |]. intros r' Hr'. apply Hg. apply elem_of_cons. by right.
      * by intros w [? _].
    + by intros w [? _].
Qed.

Lemma snap_emit q ev w :
  Inv e ts w → snap q (filter (λ r, event r = ev) (Queue.getL q w)) w.
Proof.
  intros HI r q' o Hr Hf. apply list_elem_of_filter in Hr as [Hev Hr].
  destruct q as [| i].
  { pose proof (inv_reply_binds _ _ _ HI r Hr) as Hb. by rewrite Hf in Hb. }
  destruct (inv_binds _ _ _ HI i) as [Hc Hb].
  destruct (Hb r q' o Hr Hf) as (-> & _ & Honce & Hk & Hj).
  split_and!; try done.
  - unfold Queue.getL in Hr. cbn in Hr. destruct (queues w !! i) eqn:Hq.
    + by eapply lookup_lt_Some.
    + by apply elem_of_nil in Hr.
  - intros r' Hr' Hb'. f_equal.
    eapply (count_le1_unique (λ r, is_bind (fn r))); try done. by rewrite Hf.
Qed.

Lemma Holds_emit_queue F q ev arg :
  Mono F → plain (Emit (TheQueue q) ev arg) →
  triple (Holds e ts F) (QueueEvents.emit q ev arg) (Holds e ts F).
Proof.
  intros HM Hplain. unfold QueueEvents.emit, EventEmitter.emit.
  apply triple_gets_bind. intros ls.
  destruct ls as [| r0 ls0] eqn:Hls.
  { apply triple_drop. case_bool_decide; [apply pres_throw | by apply Holds_tell]. }
  rewrite <- Hls. clear Hls r0 ls0.
  intros w [[HI HF] Hsnapshot].
  set (G := ∃ r, r ∈ ls ∧ fn r = LIsReady).
  set (F' := λ l, F l ∧ (G → gate e l)).
  assert (HM' : Mono F').
  { intros l l' [? Hg]. split; [by apply HM |]. intros HG. by apply gate_mono, Hg. }
  set (w1 := set_log (λ l, l ++ [Emit (TheQueue q) ev arg]) w).
  change ((tell (Emit (TheQueue q) ev arg) ≫= λ _,
            EventEmitter.fire (Queue.setL q) (QueueEvents.call q) ls arg) w)
    with (EventEmitter.fire (Queue.setL q) (QueueEvents.call q) ls arg w1).
  assert (HI1 : Inv e ts w1) by (by apply Inv_tell).
  assert (Hgate : G → gate e (log w1)).
  { intros (r & Hr & Hf). rewrite <- Hsnapshot in Hr.
    apply list_elem_of_filter in Hr as [Hev Hr]. destruct q as [| i].
    - destruct (inv_isReady _ _ _ HI r Hr Hf) as (Hready & Ho & Hd).
      split; [by apply opened_mono | split; [by apply declared_mono |]].
      intros _. exists arg. cbn. apply elem_of_app. right.
      apply list_elem_of_singleton. congruence.
    - by destruct (inv_user _ _ _ HI i r Hr). }
  destruct (Holds_fire_queue F' q ls arg HM') with (w := w1) as [HI' [HF' _]].
  - rewrite <- Hsnapshot.
    etrans; [apply count_filter_le |]. destruct q as [| i].
    + rewrite count_zero; [lia |]. apply Forall_forall. intros r Hr.
      apply (inv_reply_binds _ _ _ HI r Hr).
    + apply (inv_binds _ _ _ HI i).
  - intros r Hr Hf l [_ Hl]. apply Hl. by exists r.
  - split; [split; [done | split; [by apply HM | done]] |].
    rewrite <- Hsnapshot. apply (snap_emit q ev w1 HI1).
  - by split.
Qed.
End QueueEmit.

(** ** The invariant: the callbacks of a queue *)

Lemma plain_emit_queue q ev arg :
  String.eqb ev "bound" = false → plain (Emit (TheQueue q) ev arg).
Proof.
  intros Hev. split; [done |]. intros i. destruct q as [| j]; cbn; [done |].
  by rewrite Hev, andb_false_r.
Qed.

Section QueueHandlers.
Context `{Platform}.
Variables (e : ExchangeState.t) (ts : list Task) (F : list Action → Prop).
Hypothesis HM : Mono F.

Local Abbreviation holds := (Holds e ts F).

Lemma Holds_update_fields q f :
  (∀ s, QueueState.listeners (f s) = QueueState.listeners s) →
  (∀ s, QueueState.options (f s) = QueueState.options s) →
  triple holds (modify (update_queue q f)) holds.
Proof. intros. apply Holds_same_obs. intros w. by apply same_obs_update_fields. Qed.

Lemma Holds_queue_bail q err : triple holds (QueueEvents.bail q err) holds.
Proof.
  unfold QueueEvents.bail. walk; try (by apply Holds_update_fields).
  apply Holds_emit_queue; [done |]. by apply plain_emit_queue.
Qed.

Lemma Holds_onQueue q err ok : triple holds (QueueEvents.onQueue q err ok) holds.
Proof.
  unfold QueueEvents.onQueue. destruct err; [apply Holds_queue_bail |].
  walk; [by apply Holds_update_fields |].
  apply Holds_emit_queue; [done |]. by apply plain_emit_queue.
Qed.

Lemma Holds_queue_onChannel q err chan :
  triple holds (QueueEvents.onChannel q err chan) holds.
Proof.
  unfold QueueEvents.onChannel. destruct err; [apply Holds_queue_bail |].
  walk.
  - by apply Holds_update_fields.
  - apply Holds_tell; [done | plainly].
  - apply Holds_same_obs. intros w. by obs.
  - apply Holds_emit_queue; [done |]. by apply plain_emit_queue.
  - apply Holds_tell; [done | plainly].
  - by apply Holds_request.
Qed.

Lemma Holds_onConsume q err tag : triple holds (QueueEvents.onConsume q err tag) holds.
Proof.
  unfold QueueEvents.onConsume. destruct err; [apply Holds_queue_bail |].
  walk; [by apply Holds_update_fields |].
  apply Holds_emit_queue; [done |]. by apply plain_emit_queue.
Qed.

Lemma Holds_ack q msg reply : triple holds (QueueEvents.ack q msg reply) holds.
Proof.
  unfold QueueEvents.ack. walk.
  - apply Holds_tell; [done | plainly].
  - apply Holds_same_obs. intros w. by obs.
  - apply Holds_tell; [done | plainly].
Qed.

Lemma Holds_nack q msg opts : triple holds (QueueEvents.nack q msg opts) holds.
Proof. unfold QueueEvents.nack. walk. apply Holds_tell; [done | plainly]. Qed.

Lemma Holds_onMessage q cb msg : triple holds (QueueEvents.onMessage q cb msg) holds.
Proof.
  unfold QueueEvents.onMessage. walk.
  - apply Holds_tell; [done | plainly].
  - apply Calm_Holds. intros w0. by apply Calm_onReply.
Qed.
End QueueHandlers.

(** ** The invariant: a new queue *)

Lemma modify_bind {B} (f : World → World) (k : unit → M B) w :
  (modify f ≫= k) w = k tt (f w).
Proof. done. Qed.

Lemma bound_guarded_none i w w' :
  count (is_bound i) (log w) = 0 → log w' = log w → bound_guarded i w'.
Proof.
  intros Hc Hlog pre a post Heq Ha. rewrite Hlog in Heq. rewrite Heq in Hc.
  rewrite count_app, count_cons, Ha in Hc. lia.
Qed.

Lemma Inv_new_queue e ts w s :
  QueueState.listeners s = [] →
  Inv e ts w → Inv e ts (set_queues (λ qs, qs ++ [s]) w).
Proof.
  intros Hs HI.
  assert (HgetL : ∀ q, Queue.getL q (set_queues (λ qs, qs ++ [s]) w) = Queue.getL q w).
  { intros [| i]; [done |]. unfold Queue.getL. cbn.
    destruct (decide (i < length (queues w))) as [Hlt | Hge].
    - by rewrite lookup_app_l.
    - rewrite lookup_app_r by lia. rewrite (lookup_ge_None_2 (queues w)) by lia.
      destruct (i - length (queues w)) as [| n]; cbn; done. }
  assert (Hkeys : ∀ i, i ≠ length (queues w) →
            keys_of i (set_queues (λ qs, qs ++ [s]) w) = keys_of i w).
  { intros i Hne. unfold keys_of. cbn.
    destruct (decide (i < length (queues w))) as [Hlt | Hge].
    - by rewrite lookup_app_l.
    - rewrite lookup_app_r by lia. rewrite (lookup_ge_None_2 (queues w)) by lia.
      destruct (i - length (queues w)) as [| n] eqn:Hn; [lia |]. done. }
  destruct HI. constructor.
  - done.
  - done.
  - done.
  - done.
  - done.
  - intros r. rewrite HgetL. apply inv_isReady0.
  - intros i r. rewrite HgetL. apply inv_user0.
  - done.
  - intros r. rewrite HgetL. apply inv_reply_binds0.
  - intros i. unfold bind_regs. rewrite HgetL.
    destruct (inv_binds0 i) as [Hc Hb]. split; [done |].
    intros r q o Hr Hf. destruct (decide (i = length (queues w))) as [-> | Hne].
    + unfold Queue.getL in Hr. cbn in Hr. rewrite (lookup_ge_None_2 (queues w)) in Hr by lia.
      by apply elem_of_nil in Hr.
    + rewrite Hkeys by done. by eapply Hb.
  - intros i. specialize (inv_joined0 i). unfold joined, bindings in *.
    change (progress i ts (set_queues _ w)) with (progress i ts w).
    change (joins (set_queues _ w)) with (joins w).
    change (bailing ts (set_queues _ w)) with (bailing ts w).
    destruct (decide (i = length (queues w))) as [-> | Hne].
    + rewrite inv_fresh0 in * by lia. done.
    + by rewrite Hkeys.
  - intros i. destruct (decide (i = length (queues w))) as [-> | Hne].
    + specialize (inv_joined0 (length (queues w))). unfold joined in inv_joined0.
      rewrite inv_fresh0 in inv_joined0 by lia.
      destruct inv_joined0 as (_ & _ & _ & Hb & _).
      apply (bound_guarded_none _ w); [exact Hb | done].
    + unfold bound_guarded, bindings. rewrite Hkeys by done. apply inv_bound0.
  - intros i. cbn. rewrite length_app. cbn. intros Hi. apply inv_fresh0. lia.
Qed.

Lemma Inv_add_bind e ts w i o reg :
  fn reg = LBindKeys i o → event reg = "ready" → once reg = true →
  Exchange.requested_keys o = keys_of i w → joins w !! i = None →
  (∀ r, r ∈ Queue.getL (UserQ i) w → is_bind (fn r) = false) →
  Inv e ts w → Inv e ts (Queue.setL (UserQ i) (λ ls, ls ++ [reg]) w).
Proof.
  intros Hfn Hev Honce Hk Hj Hno HI.
  set (w' := Queue.setL (UserQ i) (λ ls, ls ++ [reg]) w).
  assert (Hin : ∀ q' r, r ∈ Queue.getL q' w' → r ∈ Queue.getL q' w ∨ (q' = UserQ i ∧ r = reg)).
  { intros q' r Hr. apply elem_getL_setL in Hr. case_decide; [subst q' | by left].
    apply elem_of_app in Hr as [? | Hr]; [by left |].
    apply list_elem_of_singleton in Hr. by right. }
  destruct HI. constructor.
  - done.
  - done.
  - done.
  - done.
  - done.
  - intros r Hr Hf. destruct (Hin _ _ Hr) as [? | [? _]]; [auto | done].
  - intros j r Hr. destruct (Hin _ _ Hr) as [? | [_ ->]]; [by eapply inv_user0 |].
    by rewrite Hfn.
  - done.
  - intros r Hr. destruct (Hin _ _ Hr) as [? | [? _]]; [auto | done].
  - intros j. destruct (inv_binds0 j) as [Hc Hb]. split.
    + unfold w'. rewrite getL_setL. case_decide as Hq; [| done]. injection Hq as ->.
      unfold Queue.getL in Hno |- *. destruct (get_queue (UserQ j) w); [| cbn; lia].
      cbn [from_option] in Hno |- *.
      rewrite count_snoc, Hfn. cbn [is_bind]. rewrite count_zero; [lia |].
      apply Forall_forall. intros r Hr. by apply Hno.
    + intros r q0 o0 Hr Hf. unfold w'. rewrite keys_of_setL.
      change (joins (Queue.setL _ _ w)) with (joins w).
      destruct (Hin _ _ Hr) as [? | [Hq ->]]; [by eapply Hb |].
      injection Hq as ->. rewrite Hfn in Hf. injection Hf as <- <-. done.
  - intros j. specialize (inv_joined0 j). unfold joined, bindings, bailing in *.
    unfold w'. rewrite keys_of_setL. done.
  - intros j. unfold bound_guarded, bindings, w'. rewrite keys_of_setL. apply inv_bound0.
  - intros j. unfold w', Queue.setL. rewrite length_queues_update. apply inv_fresh0.
Qed.

Section NewQueue.
Context `{Platform}.
Variables (e : ExchangeState.t) (ts : list Task) (F : list Action → Prop).
Hypothesis HM : Mono F.

Lemma Holds_createQueue options :
  triple (Holds e ts F) (Exchange.createQueue options) (Holds e ts F).
Proof.
  unfold Exchange.createQueue. apply triple_gets_bind. intros i.
  set (o := default Queue.no_options options).
  eapply triple_bind with (Q := λ w, Holds e ts F w ∧ unbound i o w).
  - apply triple_modify. intros w [[HI HF] Hi]. split; [split |].
    + by apply Inv_new_queue.
    + done.
    + unfold unbound, keys_of, Queue.getL. cbn. subst i.
      rewrite list_lookup_middle by done. cbn. split_and!; try done.
      * by apply (inv_fresh _ _ _ HI).
      * intros r Hr. by apply elem_of_nil in Hr.
  - intros _. eapply triple_bind with (Q := λ w, Holds e ts F w ∧ unbound i o w).
    + apply triple_modify. intros w [[HI HF] (Hs & Hk & Hj & Hno)]. split; [split |].
      * eapply Inv_same_obs; [apply same_obs_nextRid |]. by apply Inv_add_plain.
      * done.
      * unfold unbound. split_and!.
        -- unfold Queue.setL, update_queue. cbn [queues set_nextRid set_queues].
           rewrite list_lookup_alter, decide_True by done. by apply fmap_is_Some.
        -- rewrite <- Hk. exact (keys_of_setL (UserQ i) i _ w).
        -- done.
        -- intros r Hr. apply (elem_getL_setL r (UserQ i) (UserQ i)) in Hr.
           rewrite decide_True in Hr by done.
           apply elem_of_app in Hr as [? | Hr]; [by apply Hno |].
           by apply list_elem_of_singleton in Hr as ->.
    + intros _. eapply triple_bind with (Q := Holds e ts F).
      * apply triple_modify. intros w [[HI HF] (Hs & Hk & Hj & Hno)]. split; [| done].
        eapply Inv_same_obs; [apply same_obs_nextRid |].
        by apply (Inv_add_bind e ts w i o).
      * intros _. walk.
        -- apply Calm_Holds. intros w0. by apply Calm_connect.
        -- apply Holds_same_obs. intros w.
           eapply same_obs_trans; [| apply same_obs_nextRid]. by apply same_obs_ex.
      * done.
    + by intros w [? _].
  - by intros w [? _].
Qed.
End NewQueue.

(** ** The invariant: completions *)

Lemma count_delete {A} (p : A → bool) l i x :
  l !! i = Some x → count p l = (if p x then 1 else 0) + count p (delete i l).
Proof.
  revert i. induction l as [| y l IH]; intros [| i] Hi; try done.
  - injection Hi as ->. by rewrite count_cons.
  - cbn in Hi. change (delete (S i) (y :: l)) with (y :: delete i l).
    rewrite !count_cons, (IH i Hi). lia.
Qed.

Lemma Inv_delete e ts w i r :
  pending w !! i = Some r → (∀ q, is_bind_request q r = false) →
  Inv e ts w → Inv e ts (set_pending (delete i) w).
Proof.
  intros Hi Hr HI. destruct HI. constructor; try done.
  - cbn. intros Hin. apply inv_declaring0. by eapply list_elem_of_delete_inv.
  - intros q. specialize (inv_joined0 q). unfold joined, progress in *.
    cbn [oks failures inflight bounds tbounds pending log set_pending microtasks joins] in *.
    rewrite (count_delete (is_bind_request q) (pending w) i r), (Hr q) in inv_joined0 by done.
    done.
Qed.

Lemma Holds_delete e ts F i r :
  (∀ q, is_bind_request q r = false) →
  triple (λ w, Holds e ts F w ∧ pending w !! i = Some r)
    (modify (set_pending (delete i))) (Holds e ts F).
Proof.
  intros Hr. apply triple_modify. intros w [[HI HF] Hi]. split; [| done].
  by eapply Inv_delete.
Qed.

Lemma Holds_told e ts (F : list Action → Prop) a :
  plain a →
  triple (Holds e ts (λ _, True)) (tell a) (Holds e ts (λ l, a ∈ l)).
Proof.
  intros Ha. apply triple_modify. intros w [HI _]. split; [by apply Inv_tell |].
  cbn. apply elem_of_app. right. by apply list_elem_of_singleton.
Qed.

Lemma Mono_elem a : Mono (λ l, a ∈ l).
Proof. intros l l' Hl. apply elem_of_app. by left. Qed.

Lemma Mono_True : Mono (λ _, True).
Proof. done. Qed.

Lemma Holds_forget {A} e ts (F : list Action → Prop) (m : M A) :
  triple (Holds e ts F) m (Holds e ts F) →
  triple (Holds e ts F) m (Inv e ts).
Proof. intros Hm w Hw. by destruct (Hm w Hw). Qed.

Lemma Holds_True e ts w : Inv e ts w ↔ Holds e ts (λ _, True) w.
Proof. split; [by split | by intros []]. Qed.

Lemma Inv_settled e ts w w' i q key resp mt :
  Inv e ts w → pending w !! i = Some (ReqBindQueue q key) →
  log w' = log w ++ [Completes (ReqBindQueue q key) resp] →
  pending w' = delete i (pending w) →
  (∀ i', i' ≠ q → joins w' !! i' = joins w !! i') →
  microtasks w' = microtasks w ++ mt →
  (∀ i', i' ≠ q → count (is_TBound i') mt = 0) →
  ex w' = ex w → queues w' = queues w →
  joined q ts w' → Inv e ts w'.
Proof.
  intros HI Hi Hlog Hpend Hjoins Hmt Hmt_other Hex Hqs Hjq.
  pose proof (inv_joined _ _ _ HI q) as Hq. unfold joined, progress in Hq.
  cbn [oks failures inflight bounds tbounds] in Hq.
  pose proof (count_delete (is_bind_request q) (pending w) i _ Hi) as Hcnt.
  cbn [is_bind_request] in Hcnt. rewrite Nat.eqb_refl in Hcnt.
  destruct (joins w !! q) as [j |] eqn:Hj; [| lia].
  assert (Hlen : q < length (queues w)).
  { destruct (decide (q < length (queues w))) as [? | Hge]; [done |].
    rewrite (inv_fresh _ _ _ HI q) in Hj by lia. done. }
  assert (Hno : ∀ r, r ∈ Queue.getL (UserQ q) w → is_bind (fn r) = false).
  { intros r Hr. destruct (fn r) eqn:Hf; try done.
    destruct (inv_binds _ _ _ HI q) as [_ Hb].
    destruct (Hb r _ _ Hr Hf) as (_ & _ & _ & _ & Hn). congruence. }
  apply (Inv_binding e ts ts w w' q [Completes (ReqBindQueue q key) resp]); try done.
  - apply Forall_singleton. split; [done |]. intros i' Hne.
    assert (Nat.eqb q i' = false) as Hqi by (apply Nat.eqb_neq; congruence).
    cbn. rewrite Hqi. by destruct resp.
  - rewrite Hpend. apply list_elem_of_delete_inv.
  - intros i' Hne. split; [by apply Hjoins |].
    assert (Nat.eqb q i' = false) as Hqi by (apply Nat.eqb_neq; congruence).
    rewrite Hpend, Hmt. rewrite (count_delete (is_bind_request i') (pending w) i _ Hi).
    cbn [is_bind_request]. rewrite Hqi, !count_app, Hmt_other by done. split; lia.
  - intros Hb. right. rewrite Hmt, !count_app in *. lia.
  - eapply bound_guarded_app; [apply (inv_bound _ _ _ HI) | done | |].
    + unfold bindings, keys_of. by rewrite Hqs.
    + by apply Forall_singleton.
Qed.

Lemma count_nil {A} (p : A → bool) : count p [] = 0.
Proof. done. Qed.

Section Completion.
Context `{Platform}.

Lemma onBind_Inv e ts w i q key resp :
  pending w !! i = Some (ReqBindQueue q key) →
  System.answers (ReqBindQueue q key) resp = true →
  Inv e ts w →
  Inv e ts (Exchange.onBind q (System.failure resp)
              (set_log (λ l, l ++ [Completes (ReqBindQueue q key) resp])
                 (set_pending (delete i) w))).1.
Proof.
  intros Hi Hans HI.
  set (a := Completes (ReqBindQueue q key) resp).
  set (w1 := set_log (λ l, l ++ [a]) (set_pending (delete i) w)).
  pose proof (inv_joined _ _ _ HI q) as Hq. unfold joined, progress, bindings, bailing in Hq.
  cbn [oks failures inflight bounds tbounds] in Hq.
  pose proof (count_delete (is_bind_request q) (pending w) i _ Hi) as Hcnt.
  cbn [is_bind_request] in Hcnt. rewrite Nat.eqb_refl in Hcnt.
  rewrite count_app in Hq.
  unfold Exchange.onBind. rewrite gets_bind. cbn beta.
  change (joins w1) with (joins w).
  destruct (joins w !! q) as [j |] eqn:Hj; [| lia].
  assert (Hstill : ∀ j' mt w',
    log w' = log w ++ [a] → pending w' = delete i (pending w) →
    joins w' = <[q := j']> (joins w) → microtasks w' = microtasks w ++ mt →
    (∀ i', i' ≠ q → count (is_TBound i') mt = 0) →
    ex w' = ex w → queues w' = queues w →
    joined q ts w' → Inv e ts w').
  { intros j' mt w' ? ? Hjw ? ? ? ? ?.
    apply (Inv_settled e ts w w' i q key resp mt); try done.
    intros i' Hne. by rewrite Hjw, lookup_insert_ne. }
  destruct (settled j) eqn:Hset.
  - apply (Hstill j [] w1); try done.
    + cbn. by rewrite insert_id.
    + cbn. by rewrite app_nil_r.
    + unfold joined, progress, bindings, bailing.
      cbn [oks failures inflight bounds tbounds].
      change (joins w1) with (joins w). change (microtasks w1) with (microtasks w).
      change (keys_of q w1) with (keys_of q w).
      change (pending w1) with (delete i (pending w)).
      change (log w1) with (log w ++ [a]).
      rewrite Hj, !count_snoc, count_app. subst a. cbn [is_bind_ok is_bind_failure is_bound].
      rewrite Nat.eqb_refl.
      destruct Hq as [? | [? | [(? & ? & ? & ? & ? & Hb) | ?]]]; [lia | lia | | lia].
      right; right; left. split; [done |].
      assert (closed (log w ++ [Completes (ReqBindQueue q key) resp])
              ∨ count is_TBail (ts ++ microtasks w) ≠ 0) as Hb'.
      { destruct Hb; [left; by apply closed_mono | by right]. }
      destruct resp; try done; split_and!; try done; lia.
  - destruct Hq as [(_ & Hrem & Hinf & Hsum & Hfail & Hbounds & Htb) | [? | [? | ?]]];
      [| lia | lia | lia].
    destruct resp as [err | | | |]; try done; cbn [System.failure].
    + unfold Exchange.set_join. unfold_M. unfold modify. cbn [fst]. subst w1.
      apply (Hstill {| remaining := remaining j; settled := true |} [TBail err]); try done.
      unfold joined, progress, bindings, bailing.
      cbn [oks failures inflight bounds tbounds joins microtasks pending log queues
           set_microtasks set_joins set_log set_pending].
      change (keys_of q _) with (keys_of q w).
      rewrite lookup_insert_eq, !count_snoc, !count_app, !count_cons, ?count_nil. subst a.
      cbn [is_bind_ok is_bind_failure is_bound is_TBound is_TBail settled].
      rewrite Nat.eqb_refl. right; right; left.
      split_and!; try done; try lia; try (right; lia).
    + case_bool_decide as Hle.
      * unfold Exchange.set_join. unfold_M. unfold modify. cbn [fst]. subst w1.
        apply (Hstill {| remaining := 0; settled := true |} [TBound q]); try done.
        { intros i' Hne. rewrite count_cons. cbn.
          assert (Nat.eqb q i' = false) as -> by (apply Nat.eqb_neq; congruence). done. }
        unfold joined, progress, bindings, bailing.
        cbn [oks failures inflight bounds tbounds joins microtasks pending log queues
             set_microtasks set_joins set_log set_pending].
        change (keys_of q _) with (keys_of q w).
        rewrite lookup_insert_eq, !count_snoc, !count_app, !count_cons, ?count_nil. subst a.
        cbn [is_bind_ok is_bind_failure is_bound is_TBound is_TBail settled].
        rewrite Nat.eqb_refl. right; left. cbn. split_and!; try done; lia.
      * unfold Exchange.set_join. unfold_M. unfold modify. cbn [fst]. subst w1.
        apply (Hstill {| remaining := remaining j - 1; settled := false |} []); try done.
        { cbn. by rewrite app_nil_r. }
        unfold joined, progress, bindings, bailing.
        cbn [oks failures inflight bounds tbounds joins microtasks pending log queues
             set_microtasks set_joins set_log set_pending].
        change (keys_of q _) with (keys_of q w).
        rewrite lookup_insert_eq, !count_snoc, !count_app. subst a.
        cbn [is_bind_ok is_bind_failure is_bound settled remaining].
        rewrite Nat.eqb_refl. left. split_and!; try done; lia.
Qed.
End Completion.

(** ** The invariant: one turn of the loop *)

Section Turn.
Context `{Platform}.
Variables (e : ExchangeState.t) (ts : list Task).

Local Abbreviation T := (λ _ : list Action, True).

Lemma callback_Inv r resp :
  (∀ q, is_bind_request q r = false) → System.answers r resp = true →
  triple (Holds e ts (λ l, (r = ReqAssertExchange → opened l) ∧ Completes r resp ∈ l))
    (System.callback r resp) (Inv e ts).
Proof.
  intros Hr Hans.
  set (F0 := λ l, (r = ReqAssertExchange → opened l) ∧ Completes r resp ∈ l).
  assert (HM : Mono F0).
  { intros l l' [Ho Hin]. split; [intros Heq; by apply opened_mono, Ho |].
    apply elem_of_app. by left. }
  apply Holds_forget. destruct r as [[| q] | | q | q key | q]; cbn [System.callback].
  - apply Holds_onChannel; [done |]. intros Herr l [_ Hin].
    destruct resp; try done. by eexists.
  - by apply Holds_queue_onChannel.
  - destruct resp as [err | | | |]; try done; cbn [System.failure].
    + by apply Holds_bail.
    + apply Holds_onExchange; [done |]. intros l [Ho Hin]. split; [by apply Ho | by left].
  - by apply Holds_onQueue.
  - specialize (Hr q). cbn in Hr. by rewrite Nat.eqb_refl in Hr.
  - by apply Holds_onConsume.
Qed.

Lemma complete_Inv i resp : triple (Inv e ts) (System.react (System.Complete i resp)) (Inv e ts).
Proof.
  intros w HI. cbn [System.react]. rewrite gets_bind. cbn beta.
  destruct (pending w !! i) as [r |] eqn:Hi; [| done].
  destruct (System.answers r resp) eqn:Hans; [| done].
  rewrite modify_bind. unfold tell. rewrite modify_bind.
  assert ((∃ q key, r = ReqBindQueue q key) ∨ ∀ q, is_bind_request q r = false)
    as [(q & key & ->) | Hr].
  { destruct r; try (by right). left. by do 2 eexists. }
  { cbn [System.callback]. by apply onBind_Inv. }
  apply callback_Inv; [done | done |]. split; [| split].
  - apply Inv_tell.
    + split; [done |]. intros q. specialize (Hr q). destruct r; try done.
      cbn in Hr |- *. rewrite Hr. by destruct resp.
    + by eapply Inv_delete.
  - intros ->. cbn. apply opened_mono. apply (inv_declaring _ _ _ HI).
    by eapply list_elem_of_lookup_2.
  - cbn. apply elem_of_app. right. by apply list_elem_of_singleton.
Qed.

Lemma react_Inv ev : triple (Inv e ts) (System.react ev) (Inv e ts).
Proof.
  destruct ev; try (apply complete_Inv);
    (eapply triple_weaken;
      [apply (Holds_forget e ts T) | intros w Hw; by apply Holds_True | done]);
    cbn [System.react].
  - by apply Holds_connect.
  - by apply Holds_publish.
  - walk. by apply Holds_createQueue.
  - by apply Holds_add.
  - by apply Holds_ack.
  - by apply Holds_nack.
  - apply Holds_same_obs. intros w.
    eapply same_obs_trans; [| apply same_obs_nextRid]. by apply same_obs_ex.
  - by apply Holds_add.
  - apply pres_gets_bind. intros hs. apply triple_forEach. intros h _.
    unfold System.onClose. destruct (h.2); [by apply Holds_bail | by apply Holds_queue_bail].
  - apply pres_gets_bind. intros hs. apply triple_forEach. intros h _.
    apply Holds_same_obs. intros w. by obs.
  - walk. by apply Holds_onMessage.
  - walk.
    + apply Holds_same_obs. intros w. by obs.
    + apply Calm_Holds. intros w0. by apply afterDrain_Calm.
Qed.
End Turn.

(** ** The invariant: microtasks *)

Lemma Inv_take e w : Inv e [] w → Inv e (microtasks w) (set_microtasks (λ _, []) w).
Proof.
  intros HI. destruct HI. constructor; try done.
  intros i. specialize (inv_joined0 i). unfold joined, progress, bailing in *.
  cbn [oks failures inflight bounds tbounds pending log set_microtasks microtasks joins] in *.
  change (bindings i (set_microtasks _ w)) with (bindings i w).
  by rewrite app_nil_r.
Qed.

Lemma Inv_drop_bail e err ts w :
  Inv e (TBail err :: ts) w → closed (log w) → Inv e ts w.
Proof.
  intros HI Hc. destruct HI. constructor; try done.
  intros i. specialize (inv_joined0 i). unfold joined, progress, bailing in *.
  cbn [oks failures inflight bounds tbounds] in *.
  change ((TBail err :: ts) ++ microtasks w) with (TBail err :: (ts ++ microtasks w))
    in inv_joined0.
  rewrite !count_cons in inv_joined0. cbn [is_TBound] in inv_joined0.
  rewrite Nat.add_0_l in inv_joined0.
  destruct (joins w !! i); [| done].
  destruct inv_joined0
    as [? | [? | [(? & ? & ? & ? & ? & _) | (? & ? & ? & ? & ? & ? & ? & _)]]];
    [by left | right; by left | |].
  - right; right; left. split_and!; try done. by left.
  - right; right; right. split_and!; try done. by left.
Qed.

Lemma Inv_bound_task e q ts w :
  Inv e (TBound q :: ts) w →
  Inv e ts (set_log (λ l, l ++ [Emit (TheQueue (UserQ q)) "bound" None]) w).
Proof.
  intros HI.
  pose proof (inv_joined _ _ _ HI q) as Hq. unfold joined, progress, bindings in Hq.
  cbn [oks failures inflight bounds tbounds] in Hq.
  change ((TBound q :: ts) ++ microtasks w) with (TBound q :: (ts ++ microtasks w)) in Hq.
  rewrite count_cons in Hq. cbn [is_TBound] in Hq. rewrite Nat.eqb_refl in Hq.
  destruct (joins w !! q) as [j |] eqn:Hj; [| lia].
  destruct Hq as [? | [(Hset & Hinf & Hfail & Hoks & Hone) | [? | ?]]]; [lia | | lia | lia].
  assert (Hlen : q < length (queues w)).
  { destruct (decide (q < length (queues w))) as [? | Hge]; [done |].
    rewrite (inv_fresh _ _ _ HI q) in Hj by lia. done. }
  assert (Hno : ∀ r, r ∈ Queue.getL (UserQ q) w → is_bind (fn r) = false).
  { intros r Hr. destruct (fn r) eqn:Hf; try done.
    destruct (inv_binds _ _ _ HI q) as [_ Hb].
    destruct (Hb r _ _ Hr Hf) as (_ & _ & _ & _ & Hn). congruence. }
  apply (Inv_binding e (TBound q :: ts) ts w _ q [Emit (TheQueue (UserQ q)) "bound" None]);
    try done.
  - apply Forall_singleton. split; [done |]. intros i Hne.
    assert (Nat.eqb q i = false) as Hqi by (apply Nat.eqb_neq; congruence).
    cbn. by rewrite Hqi.
  - intros i Hne. split; [done |]. split; [done |].
    assert (Nat.eqb q i = false) as Hqi by (apply Nat.eqb_neq; congruence).
    change ((TBound q :: ts) ++ microtasks w) with (TBound q :: (ts ++ microtasks w)).
    rewrite count_cons. cbn [is_TBound]. by rewrite Hqi.
  - intros Hb. right.
    change ((TBound q :: ts) ++ microtasks w) with (TBound q :: (ts ++ microtasks w)) in Hb.
    by rewrite count_cons in Hb.
  - unfold joined, progress, bindings.
    cbn [oks failures inflight bounds tbounds joins log set_log pending microtasks].
    change (keys_of q (set_log _ w)) with (keys_of q w).
    rewrite Hj, !count_snoc. cbn [is_bind_ok is_bind_failure is_bound].
    rewrite Nat.eqb_refl. cbn. right; left. split_and!; try done; lia.
  - apply bound_guarded_tell; [apply (inv_bound _ _ _ HI) |]. intros _. done.
Qed.

Section Microtasks.
Context `{Platform}.
Variable e : ExchangeState.t.

Local Abbreviation T := (λ _ : list Action, True).

Lemma bound_task_Inv q ts w :
  Inv e (TBound q :: ts) w →
  Inv e ts (System.runTask (TBound q) w).1
  ∧ microtasks (System.runTask (TBound q) w).1 = microtasks w.
Proof.
  intros HI. pose proof (Inv_bound_task e q ts w HI) as HI1.
  cbn [System.runTask]. unfold QueueEvents.emit, EventEmitter.emit.
  rewrite gets_bind. cbn beta.
  set (ls := filter (λ r, event r = "bound") (Queue.getL (UserQ q) w)).
  assert (Hls : ∀ r, r ∈ ls → is_bind (fn r) = false ∧ fn r ≠ LIsReady).
  { intros r Hr. apply list_elem_of_filter in Hr as [Hev Hr].
    split; [| by apply (inv_user _ _ _ HI q)].
    destruct (fn r) eqn:Hf; try done.
    destruct (inv_binds _ _ _ HI q) as [_ Hb].
    destruct (Hb r _ _ Hr Hf) as (_ & Hready & _). congruence. }
  destruct ls as [| r0 ls0] eqn:Heq.
  { rewrite bool_decide_eq_false_2 by done. done. }
  rewrite <- Heq in *. clear Heq r0 ls0.
  set (w1 := set_log (λ l, l ++ [Emit (TheQueue (UserQ q)) "bound" None]) w) in *.
  change ((tell (Emit (TheQueue (UserQ q)) "bound" None) ≫= λ _,
            EventEmitter.fire (Queue.setL (UserQ q)) (QueueEvents.call (UserQ q)) ls None) w)
    with (EventEmitter.fire (Queue.setL (UserQ q)) (QueueEvents.call (UserQ q)) ls None w1).
  destruct (Calm_fire_queue e ts T Mono_True w1 (UserQ q) ls None) with (w := w1)
    as [[HI' _] Hq].
  - intros r Hr. by apply Hls.
  - intros r Hr Hf. by destruct (Hls r Hr).
  - split; [by split | apply quiet_refl].
  - split; [done |]. by rewrite (q_micro _ _ Hq).
Qed.

Lemma bail_task_Inv err ts w :
  Inv e (TBail err :: ts) w →
  Inv e ts (System.runTask (TBail err) w).1
  ∧ microtasks (System.runTask (TBail err) w).1 = microtasks w.
Proof.
  intros HI. cbn [System.runTask]. unfold Exchange.bail. rewrite !modify_bind.
  set (w2 := set_ex (ExchangeState.with_channel None)
               (set_ex (ExchangeState.with_connection None) w)).
  assert (HI2 : Inv e (TBail err :: ts) w2).
  { eapply Inv_same_obs; [| eapply Inv_same_obs; [| exact HI]]; by apply same_obs_ex. }
  unfold Exchange.emit, EventEmitter.emit. rewrite gets_bind. cbn beta.
  set (ls := filter (λ r, event r = "close") (Exchange.getL w2)).
  set (w3 := set_log (λ l, l ++ [Emit TheExchange "close" (Some err)]) w2).
  assert (HI3 : Inv e (TBail err :: ts) w3).
  { apply Inv_tell; [| done]. split; [done | intros ?; done]. }
  assert (Hc3 : closed (log w3)).
  { exists err. cbn. apply elem_of_app. right. by apply list_elem_of_singleton. }
  destruct ls as [| r0 ls0] eqn:Heq.
  { rewrite bool_decide_eq_false_2 by done. split; [| done].
    by apply (Inv_drop_bail e err). }
  rewrite <- Heq. clear Heq r0 ls0.
  change ((tell (Emit TheExchange "close" (Some err)) ≫= λ _,
            EventEmitter.fire Exchange.setL Exchange.call ls (Some err)) w2)
    with (EventEmitter.fire Exchange.setL Exchange.call ls (Some err) w3).
  destruct (Calm_fire e (TBail err :: ts) closed w3) with (ls := ls) (arg := Some err) (w := w3)
    as [[HI' Hc'] Hq].
  - intros l l'. apply closed_mono.
  - split; [by split | apply quiet_refl].
  - split; [by apply (Inv_drop_bail e err) |]. by rewrite (q_micro _ _ Hq).
Qed.

Lemma runTask_Inv t ts w :
  Inv e (t :: ts) w →
  Inv e ts (System.runTask t w).1 ∧ microtasks (System.runTask t w).1 = microtasks w.
Proof. destruct t; [apply bound_task_Inv | apply bail_task_Inv]. Qed.

Lemma settle_Inv ts (m : M unit) w :
  Inv e ts (m w).1 → Inv e ts (System.settle m w).
Proof.
  unfold System.settle. destruct (m w) as [w' [[] | err]]; cbn [fst]; [done |].
  apply Inv_tell. split; [done | intros ?; done].
Qed.

Lemma settle_microtasks (m : M unit) w :
  microtasks (System.settle m w) = microtasks (m w).1.
Proof. unfold System.settle. by destruct (m w) as [w' [[] | err]]. Qed.

Lemma tasks_Inv ts : ∀ w,
  Inv e ts w → microtasks w = [] →
  Inv e [] (foldl (λ w t, System.settle (System.runTask t) w) w ts)
  ∧ microtasks (foldl (λ w t, System.settle (System.runTask t) w) w ts) = [].
Proof.
  induction ts as [| t ts IH]; intros w HI Hm; [done |].
  cbn [foldl]. destruct (runTask_Inv t ts w HI) as [HI' Hm'].
  apply IH; [by apply settle_Inv |]. by rewrite settle_microtasks, Hm'.
Qed.

Lemma runMicrotasks_Inv w :
  Inv e [] w →
  Inv e [] (System.runMicrotasks w) ∧ microtasks (System.runMicrotasks w) = [].
Proof. intros HI. apply tasks_Inv; [by apply Inv_take | done]. Qed.

Lemma step_Inv w ev :
  Inv e [] w →
  Inv e [] (System.step w ev) ∧ microtasks (System.step w ev) = [].
Proof.
  intros HI. apply runMicrotasks_Inv, settle_Inv. by apply react_Inv.
Qed.

Lemma run_Inv es : ∀ w,
  Inv e [] w → microtasks w = [] →
  Inv e [] (System.run w es) ∧ microtasks (System.run w es) = [].
Proof.
  induction es as [| ev es IH]; intros w HI Hm; [done |].
  cbn [System.run foldl]. destruct (step_Inv w ev HI). by apply IH.
Qed.
End Microtasks.

Lemma new_fresh name type options e :
  Exchange.new name type options = Normal e →
  ExchangeState.ready e = false
  ∧ from_option QueueState.listeners [] (ExchangeState.replyQueue e) = [].
Proof.
  unfold Exchange.new. destruct (negb (truthy_str type)); [done |].
  destruct (negb (Exchange.isNameless name)).
  - destruct (negb (truthy_str _)); [done |]. intros [= <-]. cbn.
    by destruct (default false _).
  - intros [= <-]. cbn. by destruct (default false _).
Qed.

Lemma init_Inv name type options e writable :
  Exchange.new name type options = Normal e → Inv e [] (System.init e writable).
Proof.
  intros Hnew. destruct (new_fresh _ _ _ _ Hnew) as [Hready Hls].
  assert (HgetL : ∀ q, Queue.getL q (System.init e writable) = []).
  { intros [| i]; unfold Queue.getL; cbn; [done |]. by rewrite lookup_nil. }
  constructor.
  - intros pre a post Heq. by destruct pre.
  - done.
  - done.
  - done.
  - cbn. intros Hin. by apply elem_of_nil in Hin.
  - intros r. rewrite HgetL. intros Hin. by apply elem_of_nil in Hin.
  - intros i r. rewrite HgetL. intros Hin. by apply elem_of_nil in Hin.
  - cbn. by rewrite Hready.
  - intros r. rewrite HgetL. intros Hin. by apply elem_of_nil in Hin.
  - intros i. unfold bind_regs. rewrite HgetL. split; [cbn; lia |].
    intros r q o Hin. by apply elem_of_nil in Hin.
  - intros i. unfold joined. cbn. by rewrite lookup_empty.
  - intros i pre a post Heq. by destruct pre.
  - intros i _. cbn. apply lookup_empty.
Qed.

(** ** The exchange's "ready" *)

(** C2. In every run of the event loop around a newly constructed exchange,
    every "ready" the exchange emits comes after the completion that opened
    its channel, after the completion of its declaration (unless the
    exchange is nameless or a default one, for which no declaration is
    made) and, when the exchange has a reply queue, after a "ready" of that
    queue; and whenever the ready flag is set, all of these have happened. *)
Theorem ready_only_after_channel_declaration_and_reply `{Platform}
    name type options e writable es :
  Exchange.new name type options = Normal e →
  let w := System.run (System.init e writable) es in
  (∀ pre arg post,
     log w = pre ++ Emit TheExchange "ready" arg :: post →
     opened pre ∧ declared e pre ∧ replied e pre)
  ∧ (ExchangeState.ready (ex w) = true →
     opened (log w) ∧ declared e (log w) ∧ replied e (log w)).
Proof.
  intros Hnew w.
  destruct (run_Inv e es (System.init e writable)) as [HI _];
    [by eapply init_Inv | done |].
  split.
  - intros pre arg post Heq. by apply (inv_guarded _ _ _ HI pre _ post Heq).
  - apply (inv_flag _ _ _ HI).
Qed.

Lemma ready_only_after_channel_declaration_and_reply_witness :
  (∀ pre arg post,
     log Examples.topic_ready = pre ++ Emit TheExchange "ready" arg :: post →
     opened pre ∧ declared Examples.topic pre ∧ replied Examples.topic pre)
  ∧ (ExchangeState.ready (ex Examples.topic_ready) = true →
     opened (log Examples.topic_ready) ∧ declared Examples.topic (log Examples.topic_ready)
     ∧ replied Examples.topic (log Examples.topic_ready)).
Proof.
  apply (ready_only_after_channel_declaration_and_reply (H := Scalars.scalars)
           (Some "test.topic.bindings") (Some "topic") Exchange.no_options
           Examples.topic Examples.never_drained Examples.topic_opening).
  vm_compute. reflexivity.
Defined.

Lemma topic_exchange_gets_ready :
  count is_ready_emit (log Examples.topic_ready) = 1
  ∧ ExchangeState.ready (ex Examples.topic_ready) = true.
Proof. split; vm_compute; reflexivity. Qed.

(** ** The queue's "bound" *)



Lemma two_keys_bound_once :
  bindings 0 Examples.both_bound = 2
  ∧ count (is_bind_ok 0) (log Examples.both_bound) = 2
  ∧ count (is_bound 0) (log Examples.both_bound) = 1.
Proof. split_and!; vm_compute; reflexivity. Qed.

Lemma one_key_is_not_bound :
  count (is_bind_ok 0) (log Examples.one_bound) = 1
  ∧ count (is_bound 0) (log Examples.one_bound) = 0.
Proof. split_and!; vm_compute; reflexivity. Qed.

Lemma refused_key_closes :
  count (is_bind_failure 0) (log Examples.one_refused) = 1
  ∧ count (is_bound 0) (log Examples.one_refused) = 0
  ∧ Emit TheExchange "close" (Some (Error "NOT_FOUND")) ∈ log Examples.one_refused.
Proof.
  split_and!; [vm_compute; reflexivity | vm_compute; reflexivity |].
  apply list_elem_of_In. vm_compute. tauto.
Qed.

(** ** Publishing before "ready": the run *)

(** *** Handlers that return, handlers that throw *)

Lemma spec_ret {A} (P E : World → Prop) (a : A) : spec P (mret a) P E.
Proof. by intros w HP. Qed.

Lemma spec_throw {A} (P R E : World → Prop) e :
  (∀ w, P w → E w) → spec P (throw (A := A) e) R E.
Proof. intros HE w HP. by apply HE. Qed.

Lemma spec_modify (P R E : World → Prop) f :
  (∀ w, P w → R (f w)) → spec P (modify f) R E.
Proof. intros Hf w HP. by apply Hf. Qed.

Lemma spec_bind {A B} (P Q R E : World → Prop) (m : M A) (f : A → M B) :
  spec P m Q E → (∀ a, spec Q (f a) R E) → spec P (m ≫= f) R E.
Proof.
  intros Hm Hf w HP. specialize (Hm w HP). unfold mbind, M_bind.
  destruct (m w) as [w' [a | e]]; [by apply Hf | done].
Qed.

Lemma spec_gets_bind {A B} (P R E : World → Prop) (g : World → A) (f : A → M B) :
  (∀ a, spec P (f a) R E) → spec P (gets g ≫= f) R E.
Proof. intros Hf w HP. unfold mbind, M_bind, gets. by apply Hf. Qed.

Lemma spec_the_queue {B} (P R E : World → Prop) q (f : QueueState.t → M B) :
  (∀ w, P w → E w) → (∀ s, spec P (f s) R E) → spec P (the_queue q ≫= f) R E.
Proof.
  intros HE Hf w HP. unfold mbind, M_bind, the_queue.
  destruct (get_queue q w); [by apply Hf | by apply HE].
Qed.

Lemma spec_when (P E : World → Prop) b m : spec P m P E → spec P (when b m) P E.
Proof. intros Hm. destruct b; [done | apply spec_ret]. Qed.

Lemma spec_forEach {A} (P E : World → Prop) (f : A → M unit) l :
  (∀ x, x ∈ l → spec P (f x) P E) → spec P (forEach f l) P E.
Proof.
  induction l as [| x l IH]; intros Hf; cbn; [apply spec_ret |].
  eapply spec_bind; [apply Hf; apply elem_of_cons; by left |].
  intros _. apply IH. intros y Hy. apply Hf. apply elem_of_cons. by right.
Qed.

Lemma spec_triple {A} (P : World → Prop) (m : M A) : triple P m P → spec P m P P.
Proof.
  intros Hm w HP. specialize (Hm w HP). by destruct (m w) as [w' [a | e]].
Qed.

Lemma triple_spec {A} (P : World → Prop) (m : M A) : spec P m P P → triple P m P.
Proof.
  intros Hm w HP. specialize (Hm w HP). by destruct (m w) as [w' [a | e]].
Qed.

Lemma spec_returns {A} (P R E : World → Prop) (m : M A) w w' a :
  spec P m R E → P w → m w = (w', Normal a) → R w'.
Proof. intros Hm HP Heq. specialize (Hm w HP). by rewrite Heq in Hm. Qed.

(** *** Registrations struck off *)

Lemma strike_cons s fired l :
  strike (s :: fired) l
  = strike fired (if once s then filter (λ r, rid r ≠ rid s) l else l).
Proof. done. Qed.

Lemma strike_elem fired : ∀ l r, r ∈ strike fired l → r ∈ l.
Proof.
  induction fired as [| s fired IH]; intros l r Hr; [done |].
  rewrite strike_cons in Hr. apply IH in Hr. destruct (once s); [| done].
  by apply list_elem_of_filter in Hr as [_ ?].
Qed.

Lemma strike_struck fired : ∀ l r s,
  r ∈ strike fired l → s ∈ fired → once s = true → rid r ≠ rid s.
Proof.
  induction fired as [| s' fired IH]; intros l r s Hr Hs Hone.
  - by apply elem_of_nil in Hs.
  - rewrite strike_cons in Hr. apply elem_of_cons in Hs as [-> | Hs].
    + apply strike_elem in Hr. rewrite Hone in Hr.
      by apply list_elem_of_filter in Hr as [? _].
    + by eapply IH.
Qed.

Lemma NoDup_rid_filter (P : Reg ExListener → Prop) `{∀ r, Decision (P r)} l :
  NoDup (rid <$> l) → NoDup (rid <$> filter P l).
Proof.
  induction l as [| r l IH]; [done |]. rewrite fmap_cons, filter_cons.
  intros Hnd. apply NoDup_cons in Hnd as [Hr Hl].
  destruct (decide (P r)); [| by apply IH].
  rewrite fmap_cons. apply NoDup_cons. split; [| by apply IH].
  intros Hin. apply Hr. apply list_elem_of_fmap in Hin as (r' & Heq & Hin).
  apply list_elem_of_filter in Hin as [_ Hin]. apply list_elem_of_fmap. by exists r'.
Qed.

Lemma strike_NoDup fired : ∀ l, NoDup (rid <$> l) → NoDup (rid <$> strike fired l).
Proof.
  induction fired as [| s fired IH]; intros l Hl; [done |].
  rewrite strike_cons. apply IH. destruct (once s); [| done].
  by apply NoDup_rid_filter.
Qed.

Lemma NoDup_rid_eq (l : list (Reg ExListener)) r s :
  NoDup (rid <$> l) → r ∈ l → s ∈ l → rid r = rid s → r = s.
Proof.
  induction l as [| x l IH]; intros Hnd Hr Hs Heq; [by apply elem_of_nil in Hr |].
  rewrite fmap_cons in Hnd. apply NoDup_cons in Hnd as [Hx Hl].
  apply elem_of_cons in Hr as [-> | Hr]; apply elem_of_cons in Hs as [-> | Hs].
  - done.
  - exfalso. apply Hx. rewrite Heq. apply list_elem_of_fmap. by exists s.
  - exfalso. apply Hx. rewrite <- Heq. apply list_elem_of_fmap. by exists r.
  - by apply IH.
Qed.

Lemma omap_filter_None {A B} (f : A → option B) (P : A → Prop)
    `{∀ x, Decision (P x)} (l : list A) :
  (∀ x, x ∈ l → ¬ P x → f x = None) → omap f (filter P l) = omap f l.
Proof.
  induction l as [| x l IH]; intros Hf; [done |]. rewrite filter_cons.
  assert (IH' : omap f (filter P l) = omap f l).
  { apply IH. intros y Hy. apply Hf. apply elem_of_cons. by right. }
  destruct (decide (P x)) as [HP | HP]; cbn.
  - by rewrite IH'.
  - rewrite (Hf x); [done | apply elem_of_cons; by left | done].
Qed.

(** Striking registrations that hold no pending send leaves the pending
    sends as they are. *)
Lemma strike_pending_sub l fired : ∀ l',
  NoDup (rid <$> l) → (∀ r, r ∈ l' → r ∈ l) →
  (∀ s, s ∈ fired → s ∈ l ∧ pending_send s = None) →
  omap pending_send (strike fired l') = omap pending_send l'.
Proof.
  induction fired as [| s fired IH]; intros l' Hnd Hsub Hf; [done |].
  rewrite strike_cons. destruct (Hf s) as [Hs Hp]; [apply elem_of_cons; by left |].
  assert (Hrest : ∀ s', s' ∈ fired → s' ∈ l ∧ pending_send s' = None).
  { intros s' Hs'. apply Hf. apply elem_of_cons. by right. }
  destruct (once s); [| by apply IH].
  rewrite IH; [| done | | done].
  - apply omap_filter_None. intros r Hr Hne.
    assert (r = s) as ->; [| done].
    apply (NoDup_rid_eq l); [done | by apply Hsub | done |].
    destruct (decide (rid r = rid s)); [done | by destruct Hne].
  - intros r Hr. apply Hsub. by apply list_elem_of_filter in Hr as [_ ?].
Qed.

Lemma strike_pending fired l :
  NoDup (rid <$> l) →
  (∀ s, s ∈ fired → s ∈ l ∧ pending_send s = None) →
  omap pending_send (strike fired l) = omap pending_send l.
Proof. intros Hnd Hf. by apply (strike_pending_sub l). Qed.

(** Striking every registration for "ready" leaves no pending send, when
    the sends are registered once. *)
Lemma strike_ready l :
  (∀ r, r ∈ l → is_Some (send_of r) → event r = "ready" ∧ once r = true) →
  omap pending_send (strike (filter (λ r, event r = "ready") l) l) = [].
Proof.
  intros Hs. apply omap_nil. intros r Hr.
  unfold pending_send. case_bool_decide as Hev; [| done].
  destruct (send_of r) as [p |] eqn:Hp; [| done]. exfalso.
  assert (Hin : r ∈ l) by (by eapply strike_elem).
  destruct (Hs r Hin) as [_ Hone]; [by rewrite Hp |].
  eapply (strike_struck _ _ r r); [exact Hr | | done | done].
  by apply list_elem_of_filter.
Qed.

(** *** What the listeners of the exchange do to it *)


Lemma called_refl w : called w w.
Proof. by constructor. Qed.

Lemma called_trans w1 w2 w3 : called w1 w2 → called w2 w3 → called w1 w3.
Proof. intros [] []. constructor; congruence. Qed.

Lemma uncaught_told a w :
  is_uncaught a = false → uncaught (set_log (λ l, l ++ [a]) w) = uncaught w.
Proof. intros Ha. unfold uncaught. cbn [log set_log]. rewrite count_snoc, Ha. lia. Qed.

Lemma published_told a l :
  omap publication (l ++ [a]) = published l ++ option_list (publication a).
Proof. unfold published. rewrite omap_app. cbn. by destruct (publication a). Qed.

Section Listeners.
Context `{Platform}.

(** A send that returns has handed its message to [channel.publish]; one
    that throws has not. *)
Lemma sendMessage_effect m o w :
  called w (Exchange.sendMessage m o w).1
  ∧ published (log (Exchange.sendMessage m o w).1)
    = published (log w)
      ++ match (Exchange.sendMessage m o w).2 with
         | Normal _ => [sent w (m, o)]
         | Throw _ => []
         end
  ∧ ((Exchange.sendMessage m o w).2 = Normal tt → encodable (m, o)).
Proof.
  unfold encodable, sent, Exchange.encoded, Exchange.sendMessage, Exchange.v4,
    Exchange.onDrain.
  cbn [fst snd]. unfold_M. cbn.
  destruct (Exchange.encodeMessage m _) as [msg | e]; cbn.
  2: { split_and!; [apply called_refl | by rewrite app_nil_r | done]. }
  rewrite or_else_None.
  destruct (reply o) as [f |]; cbn.
  - destruct (ExchangeState.replyQueue (ex w)) as [rq |]; cbn.
    2: { split_and!; [apply called_refl | by rewrite app_nil_r | done]. }
    destruct (ExchangeState.channel (ex w)) as [ch |]; cbn.
    2: { split_and!; [by constructor | by rewrite app_nil_r | done]. }
    destruct (Exchange.toBuffer msg) as [bytes |]; cbn.
    2: { split_and!; [by constructor | by rewrite app_nil_r | done]. }
    destruct (writable w (writes w)); cbn.
    + split_and!; [constructor; cbn; try done; by apply (uncaught_told _ w) | | done].
      by rewrite ?or_else_None, published_told.
    + split_and!; [constructor; cbn; try done; by apply (uncaught_told _ w) | | done].
      by rewrite ?or_else_None, published_told.
  - destruct (ExchangeState.channel (ex w)) as [ch |]; cbn.
    2: { split_and!; [by constructor | by rewrite app_nil_r | done]. }
    destruct (Exchange.toBuffer msg) as [bytes |]; cbn.
    2: { split_and!; [by constructor | by rewrite app_nil_r | done]. }
    destruct (writable w (writes w)); cbn.
    + split_and!; [constructor; cbn; try done; by apply (uncaught_told _ w) | | done].
      by rewrite ?or_else_None, published_told.
    + split_and!; [constructor; cbn; try done; by apply (uncaught_told _ w) | | done].
      by rewrite ?or_else_None, published_told.
Qed.

Lemma call_effect r arg w :
  called w (Exchange.call (fn r) arg w).1
  ∧ published (log (Exchange.call (fn r) arg w).1)
    = published (log w)
      ++ match (Exchange.call (fn r) arg w).2 with
         | Normal _ => map (sent w) (option_list (send_of r))
         | Throw _ => []
         end
  ∧ ((Exchange.call (fn r) arg w).2 = Normal tt →
       Forall encodable (option_list (send_of r))).
Proof.
  unfold send_of. destruct (fn r) as [m o | q | id]; cbn [Exchange.call].
  - destruct (sendMessage_effect m o w) as (Hc & Hp & He). split_and!; [done | |].
    + rewrite Hp. by destruct (Exchange.sendMessage m o w).2.
    + intros Hres. apply Forall_singleton. by apply He.
  - unfold Queue.connect. unfold_M. cbn.
    destruct (ExchangeState.connection (ex w)); cbn.
    + split_and!; [constructor; cbn; try done; by apply (uncaught_told _ w) | | done].
      by rewrite published_told.
    + split_and!; [apply called_refl | by rewrite app_nil_r | done].
  - unfold_M. cbn.
    split_and!; [constructor; cbn; try done; by apply (uncaught_told _ w) | | done].
    by rewrite published_told.
Qed.

(** [emit] calls the registrations of its snapshot in order, striking each
    [once] one before its call; the first call to throw ends it. *)
Lemma fire_effect snapshot : ∀ arg w,
  let result := EventEmitter.fire Exchange.setL Exchange.call snapshot arg w in
  ExchangeState.ready (ex result.1) = ExchangeState.ready (ex w)
  ∧ ExchangeState.name (ex result.1) = ExchangeState.name (ex w)
  ∧ nextRid result.1 = nextRid w
  ∧ uncaught result.1 = uncaught w
  ∧ (∃ fired rest, snapshot = fired ++ rest
       ∧ Exchange.getL result.1 = strike fired (Exchange.getL w))
  ∧ (result.2 = Normal tt →
       Exchange.getL result.1 = strike snapshot (Exchange.getL w)
       ∧ published (log result.1)
         = published (log w) ++ map (sent w) (omap send_of snapshot)
       ∧ Forall encodable (omap send_of snapshot)).
Proof.
  induction snapshot as [| s rest IH]; intros arg w result; subst result.
  - cbn. split_and!; try done.
    + by exists [], [].
    + intros _. by rewrite app_nil_r.
  - cbn [EventEmitter.fire].
    erewrite bind_Normal; [| apply when_remove].
    set (w0 := if once s then Exchange.setL (filter (λ r, rid r ≠ rid s)) w else w).
    assert (Hw0 : ExchangeState.ready (ex w0) = ExchangeState.ready (ex w)
                  ∧ ExchangeState.name (ex w0) = ExchangeState.name (ex w)
                  ∧ nextRid w0 = nextRid w ∧ uncaught w0 = uncaught w
                  ∧ log w0 = log w
                  ∧ Exchange.getL w0 = strike [s] (Exchange.getL w)).
    { subst w0. unfold strike. cbn. by destruct (once s). }
    destruct Hw0 as (Hr0 & Hn0 & Hi0 & Hu0 & Hl0 & Hs0).
    destruct (call_effect s arg w0) as ([Hg1 Hr1 Hn1 Hi1 Hu1] & Hp1 & He1).
    destruct (Exchange.call (fn s) arg w0) as [w1 [[] | e]] eqn:Hcall; cbn [fst snd] in *.
    + erewrite bind_Normal; [| exact Hcall].
      pose proof (IH arg w1) as IH1. cbn zeta in IH1.
      destruct IH1 as (Hr2 & Hn2 & Hi2 & Hu2 & (fired & rest' & Hsplit & Hg2) & Hok).
      split_and!; try congruence.
      * exists (s :: fired), rest'. split; [by rewrite Hsplit |].
        rewrite Hg2, Hg1, Hs0. done.
      * intros Hres. destruct (Hok Hres) as (Hg3 & Hp3 & He3). split_and!.
        -- rewrite Hg3, Hg1, Hs0. done.
        -- rewrite Hp3, Hp1, Hl0. cbn [omap list_omap].
           assert (Hsent : ∀ l, map (sent w1) l = map (sent w) l).
           { intros l. apply map_ext. intros p. unfold sent. congruence. }
           assert (Hsent0 : ∀ l, map (sent w0) l = map (sent w) l).
           { intros l. apply map_ext. intros p. unfold sent. congruence. }
           rewrite Hsent, Hsent0.
           destruct (send_of s); cbn; by rewrite <- ?app_assoc, ?app_nil_r.
        -- specialize (He1 eq_refl). cbn [omap list_omap].
           destruct (send_of s) as [p |]; [| exact He3].
           apply Forall_cons. split; [exact (Forall_inv He1) | exact He3].
    + erewrite bind_Throw; [| exact Hcall]. cbn [fst snd].
      split_and!; try congruence.
      exists [s], rest. split; [done |]. by rewrite Hg1, Hs0.
Qed.

(** The same for [emit]: the snapshot is made of the registrations for the
    event. *)
Lemma emit_effect ev arg w :
  let snapshot := filter (λ r, event r = ev) (Exchange.getL w) in
  let result := Exchange.emit ev arg w in
  ExchangeState.ready (ex result.1) = ExchangeState.ready (ex w)
  ∧ ExchangeState.name (ex result.1) = ExchangeState.name (ex w)
  ∧ nextRid result.1 = nextRid w
  ∧ uncaught result.1 = uncaught w
  ∧ (∃ fired rest, snapshot = fired ++ rest
       ∧ Exchange.getL result.1 = strike fired (Exchange.getL w))
  ∧ (result.2 = Normal tt →
       Exchange.getL result.1 = strike snapshot (Exchange.getL w)
       ∧ published (log result.1)
         = published (log w) ++ map (sent w) (omap send_of snapshot)
       ∧ Forall encodable (omap send_of snapshot)).
Proof.
  intros snapshot result. subst result.
  unfold Exchange.emit, EventEmitter.emit. rewrite gets_bind. fold snapshot.
  destruct snapshot as [| s rest] eqn:Hsnap.
  - case_bool_decide; cbn.
    + split_and!; try done. by exists [], [].
    + unfold_M. cbn. split_and!; try done.
      * by apply (uncaught_told _ w).
      * by exists [], [].
      * intros _. split_and!; [done | | done]. by rewrite published_told.
  - set (w0 := set_log (λ l, l ++ [Emit TheExchange ev arg]) w).
    change ((tell (Emit TheExchange ev arg)
             ;; EventEmitter.fire Exchange.setL Exchange.call (s :: rest) arg) w)
      with (EventEmitter.fire Exchange.setL Exchange.call (s :: rest) arg w0).
    destruct (fire_effect (s :: rest) arg w0) as (Hr & Hn & Hi & Hu & Hg & Hok).
    split_and!; try done.
    + rewrite Hu. by apply (uncaught_told _ w).
    + intros Hres. destruct (Hok Hres) as (Hg' & Hp & He). split_and!; [done | | done].
      rewrite Hp. subst w0. cbn [log set_log]. unfold published at 1.
      rewrite published_told. cbn. by rewrite app_nil_r.
Qed.
End Listeners.

(** *** The registrations stay tidy *)

Lemma tidy_strike fired w w' :
  tidy w → Exchange.getL w' = strike fired (Exchange.getL w) → nextRid w' = nextRid w →
  tidy w'.
Proof.
  intros [Hb Ha Hs] Hg Hn. constructor.
  - intros r Hr. rewrite Hg in Hr. rewrite Hn. by eapply Hb, strike_elem.
  - rewrite Hg. by apply strike_NoDup.
  - intros r Hr. rewrite Hg in Hr. by eapply Hs, strike_elem.
Qed.

Lemma tidy_front w w' : front w w' → tidy w → tidy w'.
Proof.
  intros [Hg _ _ _ Hn] [Hb Ha Hs]. constructor; rewrite Hg; try done.
  intros r Hr. specialize (Hb r Hr). lia.
Qed.

Lemma tidy_told a w : tidy w → tidy (set_log (λ l, l ++ [a]) w).
Proof. by intros []. Qed.

Lemma tidy_listen ev o f w :
  (∀ m' o', f ≠ LSendMessage m' o') →
  tidy w → tidy (exec (EventEmitter.addListener Exchange.setL ev o f) w).
Proof.
  intros Hf [Hb Ha Hs]. unfold exec, EventEmitter.addListener, modify. cbn.
  constructor; cbn.
  - intros r Hr. apply elem_of_app in Hr as [Hr | Hr].
    + specialize (Hb r Hr). lia.
    + apply list_elem_of_singleton in Hr as ->. cbn. lia.
  - rewrite fmap_app. apply NoDup_app. split; [done |]. split; [| apply NoDup_singleton].
    intros x Hx Hx'. apply list_elem_of_singleton in Hx' as ->.
    apply list_elem_of_fmap in Hx as (r & Heq & Hr). specialize (Hb r Hr).
    cbn in Heq. lia.
  - intros r Hr Hsend. apply elem_of_app in Hr as [Hr | Hr]; [by apply Hs |].
    apply list_elem_of_singleton in Hr as ->. unfold send_of in Hsend. cbn in Hsend.
    destruct f; try (by destruct Hsend). by destruct (Hf message options).
Qed.

Lemma deferred_listen ev o f w :
  (∀ m' o', f ≠ LSendMessage m' o') →
  deferred (exec (EventEmitter.addListener Exchange.setL ev o f) w) = deferred w.
Proof.
  intros Hf. unfold deferred, exec, EventEmitter.addListener, modify. cbn.
  rewrite omap_app. cbn. unfold pending_send, send_of. cbn.
  destruct f; try (by destruct (bool_decide _); rewrite app_nil_r).
  by destruct (Hf message options).
Qed.

(** *** [emit] and [isReady] while the sends wait, and afterwards *)

Section Emitting.
Context `{Platform}.

(** An event other than "ready" calls no send and strikes none. *)
Lemma emit_other ev arg w :
  ev ≠ "ready" → tidy w →
  tidy (Exchange.emit ev arg w).1
  ∧ ExchangeState.ready (ex (Exchange.emit ev arg w).1) = ExchangeState.ready (ex w)
  ∧ ExchangeState.name (ex (Exchange.emit ev arg w).1) = ExchangeState.name (ex w)
  ∧ uncaught (Exchange.emit ev arg w).1 = uncaught w
  ∧ nextRid (Exchange.emit ev arg w).1 = nextRid w
  ∧ deferred (Exchange.emit ev arg w).1 = deferred w
  ∧ ((Exchange.emit ev arg w).2 = Normal tt →
       published (log (Exchange.emit ev arg w).1) = published (log w)).
Proof.
  intros Hev Ht.
  destruct (emit_effect ev arg w) as (Hr & Hn & Hi & Hu & (fired & rest & Hsplit & Hg) & Hok).
  assert (Hsnap : ∀ s, s ∈ filter (λ r, event r = ev) (Exchange.getL w) →
            s ∈ Exchange.getL w ∧ pending_send s = None ∧ send_of s = None).
  { intros s Hs. apply list_elem_of_filter in Hs as [Hevs Hs]. split; [done |].
    assert (Hsend : send_of s = None).
    { destruct (send_of s) eqn:Hsend; [| done].
      destruct (t_sends _ Ht s Hs) as [Hready _]; [by rewrite Hsend | congruence]. }
    split; [| done]. unfold pending_send. rewrite Hsend. by destruct (bool_decide _). }
  split_and!; try done.
  - by eapply tidy_strike.
  - unfold deferred. rewrite Hg. apply strike_pending; [apply Ht |].
    intros s Hs. destruct (Hsnap s) as (? & ? & _); [| done].
    rewrite Hsplit. apply elem_of_app. by left.
  - intros Hres. destruct (Hok Hres) as (_ & Hp & _). rewrite Hp.
    rewrite (omap_nil send_of); [by rewrite app_nil_r |].
    intros s Hs. by destruct (Hsnap s Hs) as (_ & _ & ?).
Qed.

(** [isReady] strikes every send; when it returns, it has sent them all,
    in the order of their registration. *)
Lemma isReady_effect w :
  tidy w →
  tidy (Exchange.isReady w).1
  ∧ ExchangeState.ready (ex (Exchange.isReady w).1) = true
  ∧ ExchangeState.name (ex (Exchange.isReady w).1) = ExchangeState.name (ex w)
  ∧ uncaught (Exchange.isReady w).1 = uncaught w
  ∧ nextRid (Exchange.isReady w).1 = nextRid w
  ∧ (∀ r, r ∈ Exchange.getL (Exchange.isReady w).1 → r ∈ Exchange.getL w)
  ∧ ((Exchange.isReady w).2 = Normal tt →
       deferred (Exchange.isReady w).1 = []
       ∧ published (log (Exchange.isReady w).1)
         = published (log w) ++ map (sent w) (deferred w)
       ∧ Forall encodable (deferred w)).
Proof.
  intros Ht. unfold Exchange.isReady. rewrite modify_bind.
  set (w0 := set_ex (ExchangeState.with_ready true) w).
  assert (Ht0 : tidy w0) by (by destruct Ht).
  destruct (emit_effect "ready" None w0)
    as (Hr & Hn & Hi & Hu & (fired & rest & Hsplit & Hg) & Hok).
  split_and!; try done.
  - by eapply tidy_strike.
  - intros r Hin. rewrite Hg in Hin. by apply strike_elem in Hin.
  - intros Hres. destruct (Hok Hres) as (Hg' & Hp & He). split_and!.
    + unfold deferred. rewrite Hg'. apply strike_ready. apply Ht0.
    + rewrite Hp. rewrite omap_send_of_ready. done.
    + rewrite omap_send_of_ready in He. done.
Qed.
End Emitting.

(** *** What leaves the registrations of the exchange alone *)

Lemma front_refl w : front w w.
Proof. by constructor. Qed.

Lemma front_ex f w :
  (∀ e, ExchangeState.listeners (f e) = ExchangeState.listeners e) →
  (∀ e, ExchangeState.ready (f e) = ExchangeState.ready e) →
  (∀ e, ExchangeState.name (f e) = ExchangeState.name e) →
  front w (set_ex f w).
Proof. intros Hl Hr Hn. constructor; cbn; try done. unfold Exchange.getL. cbn. apply Hl. Qed.

Lemma front_update q f w : front w (update_queue q f w).
Proof. constructor; by destruct q. Qed.

Lemma front_fields f w :
  ex (f w) = ex w → log (f w) = log w → nextRid w ≤ nextRid (f w) → front w (f w).
Proof. intros He Hl Hn. constructor; unfold Exchange.getL; rewrite ?He; done. Qed.

Lemma front_queue_listen q g w : front w (set_nextRid S (Queue.setL q g w)).
Proof. constructor; try (by destruct q). destruct q; cbn; lia. Qed.


(** *** Every handler but [publish] and [ack] *)

Section Flowing.
Context `{Platform}.
Variables I E : World → Prop.

Hypothesis I_E : ∀ w, I w → E w.
Hypothesis I_front : ∀ w w', front w w' → I w → I w'.
Hypothesis I_told : ∀ a w, quiet_action a → I w → I (set_log (λ l, l ++ [a]) w).
Hypothesis I_listen : ∀ ev o f w,
  (∀ m' o', f ≠ LSendMessage m' o') →
  I w → I (exec (EventEmitter.addListener Exchange.setL ev o f) w).
Hypothesis I_emit : ∀ ev arg, ev ≠ "ready" → spec I (Exchange.emit ev arg) I E.
Hypothesis I_isReady : spec I Exchange.isReady I E.

Lemma flows_bind {A B} (m : M A) (f : A → M B) :
  spec I m I E → (∀ a, spec I (f a) I E) → spec I (m ≫= f) I E.
Proof. apply spec_bind. Qed.

Lemma flows_gets {A} (g : World → A) : spec I (gets g) I E.
Proof. by intros w HI. Qed.

Lemma flows_front f : (∀ w, front w (f w)) → spec I (modify f) I E.
Proof. intros Hf. apply spec_modify. intros w HI. by eapply I_front. Qed.

Lemma flows_tell a : quiet_action a → spec I (tell a) I E.
Proof. intros Ha. apply spec_modify. intros w HI. by apply I_told. Qed.

Lemma flows_listen ev o f :
  (∀ m' o', f ≠ LSendMessage m' o') →
  spec I (EventEmitter.addListener Exchange.setL ev o f) I E.
Proof. intros Hf. apply spec_modify. intros w HI. by apply (I_listen ev o f w). Qed.

Ltac step :=
  lazymatch goal with
  | |- spec _ (mret _) _ _ => apply spec_ret
  | |- spec _ (throw _) _ _ => apply spec_throw; exact I_E
  | |- spec _ (gets _) _ _ => apply flows_gets
  | |- spec _ (gets _ ≫= _) _ _ => apply spec_gets_bind; intros ?
  | |- spec _ (the_queue _ ≫= _) _ _ => apply spec_the_queue; [exact I_E | intros ?]
  | |- spec _ (when _ _) _ _ => apply spec_when
  | |- spec _ (forEach _ _) _ _ => apply spec_forEach; intros ? ?
  | |- spec _ (_ ≫= _) _ _ => apply flows_bind; [| intros ?]
  | |- spec _ (match ?x with _ => _ end) _ _ => destruct x
  | |- spec _ (tell _) _ _ => apply flows_tell; by split
  | |- spec _ (modify (update_queue _ _)) _ _ =>
      apply flows_front; intros ?; apply front_update
  | |- spec _ (EventEmitter.addListener (Queue.setL _) _ _ _) _ _ =>
      apply flows_front; intros ?; apply front_queue_listen
  | |- spec _ (EventEmitter.removeListener (Queue.setL _) _) _ _ =>
      apply flows_front; intros ?; apply front_update
  | |- spec _ (EventEmitter.addListener Exchange.setL _ _ _) _ _ =>
      apply flows_listen; by intros ? ?
  | |- spec _ (modify (set_ex _)) _ _ =>
      apply flows_front; intros ?; by apply front_ex
  | |- spec _ (modify _) _ _ => apply flows_front; intros ?; by apply front_fields
  | |- spec _ (request _) _ _ => apply flows_front; intros ?; by apply front_fields
  | |- spec _ (queueMicrotask _) _ _ => apply flows_front; intros ?; by apply front_fields
  | |- spec _ (Exchange.set_join _ _) _ _ =>
      apply flows_front; intros ?; by apply front_fields
  | |- spec _ Exchange.onDrain _ _ => apply flows_front; intros ?; by apply front_fields
  | |- spec _ (Exchange.emit _ _) _ _ => apply I_emit; done
  | |- spec _ Exchange.isReady _ _ => apply I_isReady
  end.

Ltac steps := repeat step.

Lemma flows_connect q con : spec I (Queue.connect q con) I E.
Proof. unfold Queue.connect. steps. Qed.

Lemma flows_bail err : spec I (Exchange.bail err) I E.
Proof. unfold Exchange.bail. steps. Qed.

Lemma flows_onReply data msg : spec I (Exchange.onReply data msg) I E.
Proof. unfold Exchange.onReply, Exchange.inherited. steps. Qed.

Lemma flows_exchange_connect con : spec I (Exchange.connect con) I E.
Proof. unfold Exchange.connect, Queue.consume, Queue.on, Queue.once. steps. Qed.

Lemma flows_bindKey q key : spec I (Exchange.bindKey q key) I E.
Proof. unfold Exchange.bindKey. steps. Qed.

Lemma flows_bindKeys q keys : spec I (Exchange.bindKeys q keys) I E.
Proof.
  unfold Exchange.bindKeys. apply spec_gets_bind. intros ch. apply flows_bind.
  - apply spec_forEach. intros k _. apply flows_bindKey.
  - intros _. destruct keys, ch; steps.
Qed.

Lemma flows_onBind q err : spec I (Exchange.onBind q err) I E.
Proof. unfold Exchange.onBind. steps. Qed.

Lemma flows_onQueueReady q options : spec I (Exchange.onQueueReady q options) I E.
Proof. unfold Exchange.onQueueReady. steps. apply flows_bindKeys. Qed.

Lemma flows_createQueue options : spec I (Exchange.createQueue options) I E.
Proof.
  unfold Exchange.createQueue, Queue.on, Queue.once, Exchange.once. steps.
  apply flows_connect.
Qed.

Lemma flows_onExchange err : spec I (Exchange.onExchange err) I E.
Proof.
  unfold Exchange.onExchange, Queue.once. steps.
  - apply flows_bail.
  - apply flows_connect.
Qed.

Lemma flows_onChannel err chan : spec I (Exchange.onChannel err chan) I E.
Proof.
  unfold Exchange.onChannel. steps.
  - apply flows_bail.
  - apply flows_onExchange.
Qed.

Lemma flows_afterDrain : spec I Exchange.afterDrain I E.
Proof. unfold Exchange.afterDrain. steps. Qed.

Lemma flows_startConsume q cb o : spec I (QueueEvents.startConsume q cb o) I E.
Proof. unfold QueueEvents.startConsume. steps. Qed.

Lemma flows_queue_call q l arg : spec I (QueueEvents.call q l arg) I E.
Proof.
  destruct l; cbn [QueueEvents.call].
  - apply flows_onQueueReady.
  - apply flows_bail.
  - apply I_isReady.
  - apply flows_startConsume.
  - steps.
Qed.

Lemma flows_queue_fire q ls arg :
  spec I (EventEmitter.fire (Queue.setL q) (QueueEvents.call q) ls arg) I E.
Proof.
  induction ls as [| r ls IH]; cbn [EventEmitter.fire]; steps;
    [apply flows_queue_call | done].
Qed.

Lemma flows_queue_emit q ev arg : spec I (QueueEvents.emit q ev arg) I E.
Proof.
  unfold QueueEvents.emit, EventEmitter.emit. steps; apply flows_queue_fire.
Qed.

Lemma flows_queue_bail q err : spec I (QueueEvents.bail q err) I E.
Proof. unfold QueueEvents.bail. steps. apply flows_queue_emit. Qed.

Lemma flows_onQueue q err ok : spec I (QueueEvents.onQueue q err ok) I E.
Proof.
  unfold QueueEvents.onQueue. steps; [apply flows_queue_bail | apply flows_queue_emit].
Qed.

Lemma flows_queue_onChannel q err chan : spec I (QueueEvents.onChannel q err chan) I E.
Proof.
  unfold QueueEvents.onChannel. steps; [apply flows_queue_bail | apply flows_queue_emit].
Qed.

Lemma flows_onConsume q err tag : spec I (QueueEvents.onConsume q err tag) I E.
Proof.
  unfold QueueEvents.onConsume. steps; [apply flows_queue_bail | apply flows_queue_emit].
Qed.

Lemma flows_nack q msg opts : spec I (QueueEvents.nack q msg opts) I E.
Proof. unfold QueueEvents.nack. steps. Qed.

Lemma flows_onMessage q cb msg : spec I (QueueEvents.onMessage q cb msg) I E.
Proof. unfold QueueEvents.onMessage. steps. apply flows_onReply. Qed.

Lemma flows_callback r resp : spec I (System.callback r resp) I E.
Proof.
  destruct r as [[| q] | | q | q key | q]; cbn [System.callback].
  - apply flows_onChannel.
  - apply flows_queue_onChannel.
  - apply flows_onExchange.
  - apply flows_onQueue.
  - apply flows_onBind.
  - apply flows_onConsume.
Qed.

(** The events of the loop other than the caller's [publish] and [ack]. *)
Lemma flows_react ev :
  (∀ m o, ev ≠ System.CallPublish m o) →
  (∀ q msg reply, ev ≠ System.CallAck q msg reply) →
  spec I (System.react ev) I E.
Proof.
  intros Hp Ha. destruct ev; cbn [System.react].
  - apply flows_exchange_connect.
  - by edestruct Hp.
  - steps. apply flows_createQueue.
  - unfold Queue.consume, Queue.once. steps.
  - by edestruct Ha.
  - apply flows_nack.
  - steps.
  - steps.
  - steps. apply flows_callback.
  - apply spec_gets_bind. intros hs. apply spec_forEach. intros h _.
    unfold System.onClose. destruct (h.2); [apply flows_bail | apply flows_queue_bail].
  - steps.
  - steps. apply flows_onMessage.
  - steps. apply flows_afterDrain.
Qed.

Lemma flows_runTask t : spec I (System.runTask t) I E.
Proof. destruct t; cbn [System.runTask]; [apply flows_queue_emit | apply flows_bail]. Qed.
End Flowing.

(** *** The sends wait until "ready" *)

Lemma deferred_front w w' : front w w' → deferred w' = deferred w.
Proof. intros [Hg _ _ _ _]. unfold deferred. by rewrite Hg. Qed.

Lemma omap_nil_elem {A B} (f : A → option B) (l : list A) x :
  omap f l = [] → x ∈ l → f x = None.
Proof.
  induction l as [| y l IH]; intros Hl Hx; [by apply elem_of_nil in Hx |].
  cbn in Hl. destruct (f y) eqn:Hy; [done |].
  apply elem_of_cons in Hx as [-> | Hx]; [done | by apply IH].
Qed.

Section Waiting.
Context `{Platform}.

(** The number of uncaught exceptions in the log is left as it is by every
    handler; the loop adds one when a handler throws. *)
Lemma uncaught_emit n ev arg :
  spec (λ w, uncaught w = n) (Exchange.emit ev arg)
    (λ w, uncaught w = n) (λ w, uncaught w = n).
Proof.
  apply spec_triple. intros w Hw.
  destruct (emit_effect ev arg w) as (_ & _ & _ & Hu & _). by rewrite Hu.
Qed.

Lemma uncaught_isReady n :
  spec (λ w, uncaught w = n) Exchange.isReady
    (λ w, uncaught w = n) (λ w, uncaught w = n).
Proof.
  apply spec_triple. intros w Hw. unfold Exchange.isReady. rewrite modify_bind.
  destruct (emit_effect "ready" None (set_ex (ExchangeState.with_ready true) w))
    as (_ & _ & _ & Hu & _).
  by rewrite Hu.
Qed.

Lemma uncaught_front n w w' : front w w' → uncaught w = n → uncaught w' = n.
Proof. intros [_ _ _ Hl _] Hw. unfold uncaught. by rewrite Hl. Qed.

Lemma uncaught_quiet n a w :
  quiet_action a → uncaught w = n → uncaught (set_log (λ l, l ++ [a]) w) = n.
Proof. intros [_ Ha] Hw. by rewrite uncaught_told. Qed.

Lemma uncaught_react n ev :
  (∀ m o, ev ≠ System.CallPublish m o) →
  (∀ q msg reply, ev ≠ System.CallAck q msg reply) →
  triple (λ w, uncaught w = n) (System.react ev) (λ w, uncaught w = n).
Proof.
  intros Hp Ha. apply triple_spec.
  apply (flows_react (λ w, uncaught w = n) (λ w, uncaught w = n)); try done.
  - apply uncaught_front.
  - apply uncaught_quiet.
  - intros ev' arg _. apply uncaught_emit.
  - apply uncaught_isReady.
Qed.

Lemma uncaught_runTask n t :
  triple (λ w, uncaught w = n) (System.runTask t) (λ w, uncaught w = n).
Proof.
  apply triple_spec.
  apply (flows_runTask (λ w, uncaught w = n) (λ w, uncaught w = n)); try done.
  - apply uncaught_front.
  - apply uncaught_quiet.
  - intros ev' arg _. apply uncaught_emit.
  - apply uncaught_isReady.
Qed.

Lemma uncaught_settle (m : M unit) w :
  uncaught (m w).1 = uncaught w →
  uncaught (System.settle m w)
  = uncaught w + match (m w).2 with Normal _ => 0 | Throw _ => 1 end.
Proof.
  intros Hm. unfold System.settle. destruct (m w) as [w' [[] | err]]; cbn [fst snd] in *.
  - lia.
  - unfold uncaught in *. cbn [log set_log]. rewrite count_snoc. cbn. lia.
Qed.

Lemma uncaught_tasks ts : ∀ w,
  uncaught w ≤ uncaught (foldl (λ w t, System.settle (System.runTask t) w) w ts).
Proof.
  induction ts as [| t ts IH]; intros w; [done |]. cbn [foldl].
  etrans; [| apply IH]. rewrite uncaught_settle.
  - lia.
  - by apply (uncaught_runTask (uncaught w) t w).
Qed.

Lemma uncaught_runMicrotasks w : uncaught w ≤ uncaught (System.runMicrotasks w).
Proof. unfold System.runMicrotasks. apply (uncaught_tasks _ (set_microtasks _ w)). Qed.

(** **** While the exchange is not ready *)

Lemma queued_front cs w w' : front w w' → queued cs w → queued cs w'.
Proof.
  intros Hf [Ht Hd]. split; [by eapply tidy_front |].
  rewrite (deferred_front w w' Hf). destruct Hf as [_ -> _ _ _]. done.
Qed.

Lemma queued_told cs a w : queued cs w → queued cs (set_log (λ l, l ++ [a]) w).
Proof. intros [Ht Hd]. split; [by apply tidy_told | done]. Qed.

Lemma queued_emit cs ev arg :
  ev ≠ "ready" → spec (queued cs) (Exchange.emit ev arg) (queued cs) (queued cs).
Proof.
  intros Hev. apply spec_triple. intros w [Ht Hd].
  destruct (emit_other ev arg w Hev Ht) as (Ht' & Hr & _ & _ & _ & Hd' & _).
  split; [done |]. rewrite Hr, Hd'. done.
Qed.

Lemma queued_isReady cs : spec (queued cs) Exchange.isReady (queued cs) (queued cs).
Proof.
  apply spec_triple. intros w [Ht Hd].
  destruct (isReady_effect w Ht) as (Ht' & Hr & _).
  split; [done |]. rewrite Hr. done.
Qed.

Lemma queued_react cs ev :
  (∀ m o, ev ≠ System.CallPublish m o) →
  (∀ q msg reply, ev ≠ System.CallAck q msg reply) →
  triple (queued cs) (System.react ev) (queued cs).
Proof.
  intros Hp Ha. apply triple_spec. apply flows_react; try done.
  - apply queued_front.
  - intros a w _. apply queued_told.
  - intros ev' o f w Hf [Ht Hd]. split; [by apply tidy_listen |].
    by rewrite deferred_listen.
  - apply queued_emit.
  - apply queued_isReady.
Qed.

Lemma queued_runTask cs t : triple (queued cs) (System.runTask t) (queued cs).
Proof.
  apply triple_spec. apply flows_runTask; try done.
  - apply queued_front.
  - intros a w _. apply queued_told.
  - apply queued_emit.
  - apply queued_isReady.
Qed.

(** [ack] touches neither the exchange nor the microtasks. *)
Lemma ack_effect q msg reply w :
  ex (QueueEvents.ack q msg reply w).1 = ex w
  ∧ nextRid (QueueEvents.ack q msg reply w).1 = nextRid w
  ∧ microtasks (QueueEvents.ack q msg reply w).1 = microtasks w.
Proof.
  assert (Hack : triple (λ w', ex w' = ex w ∧ nextRid w' = nextRid w
                               ∧ microtasks w' = microtasks w)
                   (QueueEvents.ack q msg reply)
                   (λ w', ex w' = ex w ∧ nextRid w' = nextRid w
                          ∧ microtasks w' = microtasks w)).
  { unfold QueueEvents.ack. walk; apply triple_modify; intros w' Hw'; exact Hw'. }
  by apply Hack.
Qed.

Lemma queued_ack cs q msg reply :
  triple (queued cs) (QueueEvents.ack q msg reply) (queued cs).
Proof.
  intros w [[Hb Ha Hs] Hd]. destruct (ack_effect q msg reply w) as (He & Hn & _).
  unfold queued, deferred, Exchange.getL in *. rewrite He.
  split; [| done]. constructor; unfold Exchange.getL; rewrite ?He, ?Hn; done.
Qed.

(** A [publish] joins the sends that wait, or is sent at once. *)
Lemma publish_effect m o w :
  ExchangeState.ready (ex w) = false →
  Exchange.publish m o w
  = (set_nextRid S
       (Exchange.setL
          (λ ls, ls ++ [{| rid := nextRid w; event := "ready"; once := true;
                           fn := LSendMessage m o |}])
          (set_ex (λ e, ExchangeState.with_publishing (ExchangeState.publishing e + 1) e)
             w)),
     Normal tt).
Proof. intros Hr. unfold Exchange.publish. unfold_M. cbn. by rewrite Hr. Qed.

Lemma tidy_publish m o w :
  ExchangeState.ready (ex w) = false → tidy w → tidy (Exchange.publish m o w).1.
Proof.
  intros Hr [Hb Ha Hs]. rewrite (publish_effect m o w Hr). cbn [fst].
  constructor; unfold Exchange.getL; cbn.
  - intros r Hin. apply elem_of_app in Hin as [Hin | Hin].
    + specialize (Hb r Hin). lia.
    + apply list_elem_of_singleton in Hin as ->. cbn. lia.
  - rewrite fmap_app. apply NoDup_app. split; [done |]. split; [| apply NoDup_singleton].
    intros x Hx Hx'. apply list_elem_of_singleton in Hx' as ->.
    apply list_elem_of_fmap in Hx as (r & Heq & Hin). specialize (Hb r Hin).
    cbn in Heq. lia.
  - intros r Hin Hsend. apply elem_of_app in Hin as [Hin | Hin]; [by apply Hs |].
    by apply list_elem_of_singleton in Hin as ->.
Qed.

Lemma deferred_publish m o w :
  ExchangeState.ready (ex w) = false →
  deferred (Exchange.publish m o w).1 = deferred w ++ [(m, o)].
Proof.
  intros Hr. rewrite (publish_effect m o w Hr). cbn [fst].
  unfold deferred, Exchange.getL. cbn. by rewrite omap_app.
Qed.

Lemma publish_ready m o w :
  ExchangeState.ready (ex w) = true →
  Exchange.getL (Exchange.publish m o w).1 = Exchange.getL w
  ∧ ExchangeState.ready (ex (Exchange.publish m o w).1) = true
  ∧ nextRid (Exchange.publish m o w).1 = nextRid w.
Proof.
  intros Hr. unfold Exchange.publish. rewrite modify_bind, gets_bind. cbn beta.
  cbn [ex set_ex ExchangeState.ready ExchangeState.with_publishing]. rewrite Hr.
  destruct (sendMessage_effect m o
              (set_ex (λ e, ExchangeState.with_publishing
                              (ExchangeState.publishing e + 1) e) w))
    as ([Hg Hr' _ Hn _] & _).
  rewrite Hg, Hr', Hn. done.
Qed.

Lemma queued_publish cs m o :
  triple (queued cs) (Exchange.publish m o) (queued (cs ++ [(m, o)])).
Proof.
  intros w [Ht Hd]. destruct (ExchangeState.ready (ex w)) eqn:Hr.
  - destruct (publish_ready m o w Hr) as (Hg & Hr' & Hn). split.
    + destruct Ht as [Hb Ha Hs]. constructor; rewrite Hg, ?Hn; done.
    + by rewrite Hr'.
  - split; [by apply tidy_publish |]. intros _. rewrite deferred_publish, Hd; done.
Qed.

(** **** The loop while the exchange is not ready *)

Lemma queued_settle cs cs' (m : M unit) w :
  triple (queued cs) m (queued cs') → queued cs w → queued cs' (System.settle m w).
Proof.
  intros Hm Hw. specialize (Hm w Hw). unfold System.settle.
  destruct (m w) as [w' [[] | err]]; cbn [fst] in *; [done | by apply queued_told].
Qed.

Lemma queued_runMicrotasks cs w : queued cs w → queued cs (System.runMicrotasks w).
Proof.
  intros Hw. unfold System.runMicrotasks.
  assert (Hstart : queued cs (set_microtasks (λ _, []) w)).
  { eapply queued_front; [| exact Hw]. by apply front_fields. }
  generalize dependent (set_microtasks (λ _, []) w). clear Hw.
  induction (microtasks w) as [| t ts IH]; intros w' Hw'; [done |].
  cbn [foldl]. apply IH. apply (queued_settle cs); [apply queued_runTask | done].
Qed.

Lemma queued_step cs w ev : queued cs w → queued (cs ++ calls [ev]) (System.step w ev).
Proof.
  intros Hw. unfold System.step. apply queued_runMicrotasks.
  destruct ev; cbn [calls omap list_omap]; rewrite ?app_nil_r;
    try (apply (queued_settle cs); [by apply queued_react | done]).
  - apply (queued_settle cs); [apply queued_publish | done].
  - apply (queued_settle cs); [apply queued_ack | done].
Qed.

Lemma queued_run es : ∀ cs w, queued cs w → queued (cs ++ calls es) (System.run w es).
Proof.
  induction es as [| ev es IH]; intros cs w Hw; cbn [System.run foldl].
  - by rewrite app_nil_r.
  - change (ev :: es) with ([ev] ++ es). unfold calls. rewrite omap_app.
    fold (calls [ev]) (calls es). rewrite app_assoc. apply IH. by apply queued_step.
Qed.

Lemma queued_init e writable :
  ExchangeState.listeners e = [] → queued [] (System.init e writable).
Proof.
  intros He. split.
  - constructor; unfold Exchange.getL; cbn; rewrite He.
    + intros r Hr. by apply elem_of_nil in Hr.
    + apply NoDup_nil_2.
    + intros r Hr. by apply elem_of_nil in Hr.
  - intros _. unfold deferred, Exchange.getL. cbn. by rewrite He.
Qed.
End Waiting.

(** *** The turn in which "ready" fires *)

Section Flushing.
Context `{Platform}.

Lemma flow_start w : tidy w → ExchangeState.ready (ex w) = false → flow w w.
Proof. intros Ht Hr. constructor; try done. by left. Qed.

Lemma flow_front w0 w w' : front w w' → flow w0 w → flow w0 w'.
Proof.
  intros Hf [Ht Hn Hu Hfl]. pose proof (deferred_front w w' Hf) as Hd.
  constructor.
  - by eapply tidy_front.
  - destruct Hf as [_ _ -> _ _]. done.
  - by eapply uncaught_front.
  - destruct Hf as [_ Hr _ Hl _]. unfold flown in *. by rewrite Hr, Hd, Hl.
Qed.

Lemma flow_told w0 a w :
  quiet_action a → flow w0 w → flow w0 (set_log (λ l, l ++ [a]) w).
Proof.
  intros Ha [Ht Hn Hu Hfl]. constructor.
  - by apply tidy_told.
  - done.
  - by apply uncaught_quiet.
  - destruct Ha as [Ha _]. unfold flown in *. cbn [log set_log ex].
    change (deferred (set_log _ w)) with (deferred w).
    unfold published at 1 3. rewrite published_told, Ha. cbn [option_list].
    by rewrite app_nil_r.
Qed.

Lemma flow_listen w0 ev o f w :
  (∀ m' o', f ≠ LSendMessage m' o') →
  flow w0 w → flow w0 (exec (EventEmitter.addListener Exchange.setL ev o f) w).
Proof.
  intros Hf [Ht Hn Hu Hfl]. constructor.
  - by apply tidy_listen.
  - done.
  - done.
  - unfold flown in *. by rewrite deferred_listen.
Qed.

Lemma flow_emit w0 ev arg :
  ev ≠ "ready" → spec (flow w0) (Exchange.emit ev arg) (flow w0) (λ _, True).
Proof.
  intros Hev w [Ht Hn Hu Hfl].
  destruct (emit_other ev arg w Hev Ht) as (Ht' & Hr & Hn' & Hu' & _ & Hd & Hp).
  destruct (Exchange.emit ev arg w) as [w' [[] | err]]; cbn [fst snd] in *; [| done].
  constructor; try congruence.
  unfold flown in *. by rewrite Hr, Hd, Hp.
Qed.

Lemma flow_isReady w0 : spec (flow w0) Exchange.isReady (flow w0) (λ _, True).
Proof.
  intros w [Ht Hn Hu Hfl].
  destruct (isReady_effect w Ht) as (Ht' & Hr & Hn' & Hu' & _ & _ & Hok).
  destruct (Exchange.isReady w) as [w' [[] | err]]; cbn [fst snd] in *; [| done].
  destruct (Hok eq_refl) as (Hd & Hp & He).
  constructor; try congruence.
  right. split; [done |]. split; [done |]. rewrite Hp.
  destruct Hfl as [(_ & Hd0 & Hp0) | (_ & Hd0 & Hp0 & He0)].
  - rewrite Hd0, Hp0. split; [| by rewrite <- Hd0].
    f_equal. apply map_ext. intros p. unfold sent. by rewrite Hn.
  - rewrite Hd0, Hp0. cbn. by rewrite app_nil_r.
Qed.

Lemma flow_react w0 ev :
  (∀ m o, ev ≠ System.CallPublish m o) →
  (∀ q msg reply, ev ≠ System.CallAck q msg reply) →
  spec (flow w0) (System.react ev) (flow w0) (λ _, True).
Proof.
  intros Hp Ha. apply flows_react; try done.
  - apply flow_front.
  - apply flow_told.
  - apply flow_listen.
  - apply flow_emit.
  - apply flow_isReady.
Qed.

Lemma flow_runTask w0 t : spec (flow w0) (System.runTask t) (flow w0) (λ _, True).
Proof.
  apply flows_runTask; try done.
  - apply flow_front.
  - apply flow_told.
  - apply flow_emit.
  - apply flow_isReady.
Qed.

(** The microtasks of a turn that logs no uncaught exception. *)
Lemma flow_tasks w0 ts : ∀ w,
  flow w0 w →
  uncaught (foldl (λ w t, System.settle (System.runTask t) w) w ts) = uncaught w0 →
  flow w0 (foldl (λ w t, System.settle (System.runTask t) w) w ts).
Proof.
  induction ts as [| t ts IH]; intros w Hw Hu; [done |]. cbn [foldl] in *.
  pose proof (uncaught_tasks ts (System.settle (System.runTask t) w)) as Hmono.
  pose proof (uncaught_settle (System.runTask t) w
                (uncaught_runTask (uncaught w) t w eq_refl)) as Hs.
  pose proof (flow_runTask w0 t w Hw) as Ht.
  pose proof (f_uncaught _ _ Hw) as Hw0.
  unfold System.settle in *.
  destruct (System.runTask t w) as [w' [[] | err]]; cbn [fst snd] in *.
  - by apply IH.
  - lia.
Qed.

(** The turn of an event from a state where the exchange is not ready: if
    the exchange is ready afterwards and the turn has logged no uncaught
    exception, the sends that waited have been made, in order. *)
Lemma flush_step w ev :
  tidy w → microtasks w = [] →
  ExchangeState.ready (ex w) = false →
  ExchangeState.ready (ex (System.step w ev)) = true →
  uncaught (System.step w ev) = uncaught w →
  flow w (System.step w ev).
Proof.
  intros Ht Hm Hr Hr' Hu.
  assert (Hcases : (∃ m o, ev = System.CallPublish m o)
                   ∨ (∃ q msg reply, ev = System.CallAck q msg reply)
                   ∨ ((∀ m o, ev ≠ System.CallPublish m o)
                      ∧ (∀ q msg reply, ev ≠ System.CallAck q msg reply))).
  { destruct ev; eauto 6; right; right; by split. }
  destruct Hcases as [(m & o & ->) | [(q & msg & reply & ->) | [Hp Ha]]].
  - exfalso. unfold System.step, System.settle in Hr'. cbn [System.react] in Hr'.
    rewrite (publish_effect m o w Hr) in Hr'.
    unfold System.runMicrotasks in Hr'. cbn in Hr'. rewrite Hm in Hr'. cbn in Hr'.
    congruence.
  - exfalso. unfold System.step, System.settle in Hr'. cbn [System.react] in Hr'.
    destruct (ack_effect q msg reply w) as (He & _ & Hmt).
    destruct (QueueEvents.ack q msg reply w) as [w1 [[] | err]]; cbn [fst] in *;
      unfold System.runMicrotasks in Hr'; cbn in Hr'; rewrite Hmt, Hm in Hr';
      cbn in Hr'; congruence.
  - pose proof (flow_react w ev Hp Ha w (flow_start w Ht Hr)) as Hreact.
    pose proof (uncaught_settle (System.react ev) w
                  (uncaught_react (uncaught w) ev Hp Ha w eq_refl)) as Hs.
    unfold System.step in *.
    pose proof (uncaught_runMicrotasks (System.settle (System.react ev) w)) as Hmono.
    unfold System.settle in *.
    destruct (System.react ev w) as [w1 [[] | err]]; cbn [fst snd] in *; [| lia].
    unfold System.runMicrotasks in *. apply flow_tasks; [| done].
    eapply flow_front; [| exact Hreact]. by apply front_fields.
Qed.
End Flushing.

(** *** After the sends have been made *)

Section Drained.
Context `{Platform}.

Lemma drained_front w w' : front w w' → drained w → drained w'.
Proof.
  intros Hf (Ht & Hr & Hd). split; [by eapply tidy_front |].
  rewrite (deferred_front w w' Hf). destruct Hf as [_ -> _ _ _]. done.
Qed.

Lemma drained_told a w : drained w → drained (set_log (λ l, l ++ [a]) w).
Proof. intros (Ht & Hr & Hd). split; [by apply tidy_told | done]. Qed.

Lemma drained_emit ev arg :
  ev ≠ "ready" → spec drained (Exchange.emit ev arg) drained drained.
Proof.
  intros Hev. apply spec_triple. intros w (Ht & Hr & Hd).
  destruct (emit_other ev arg w Hev Ht) as (Ht' & Hr' & _ & _ & _ & Hd' & _).
  split; [done |]. rewrite Hr', Hd'. done.
Qed.

Lemma drained_isReady : spec drained Exchange.isReady drained drained.
Proof.
  apply spec_triple. intros w (Ht & Hr & Hd).
  destruct (isReady_effect w Ht) as (Ht' & Hr' & _ & _ & _ & Hsub & _).
  split; [done |]. split; [done |].
  apply omap_nil. intros r Hin. apply (omap_nil_elem _ _ r Hd). by apply Hsub.
Qed.

Lemma drained_react ev :
  (∀ m o, ev ≠ System.CallPublish m o) →
  (∀ q msg reply, ev ≠ System.CallAck q msg reply) →
  triple drained (System.react ev) drained.
Proof.
  intros Hp Ha. apply triple_spec. apply flows_react; try done.
  - apply drained_front.
  - intros a w _. apply drained_told.
  - intros ev' o f w Hf (Ht & Hr & Hd). split; [by apply tidy_listen |].
    by rewrite deferred_listen.
  - apply drained_emit.
  - apply drained_isReady.
Qed.

Lemma drained_runTask t : triple drained (System.runTask t) drained.
Proof.
  apply triple_spec. apply flows_runTask; try done.
  - apply drained_front.
  - intros a w _. apply drained_told.
  - apply drained_emit.
  - apply drained_isReady.
Qed.

Lemma drained_ack q msg reply : triple drained (QueueEvents.ack q msg reply) drained.
Proof.
  intros w ([Hb Ha Hs] & Hr & Hd). destruct (ack_effect q msg reply w) as (He & Hn & _).
  unfold drained, deferred, Exchange.getL in *. rewrite He.
  split; [| done]. constructor; unfold Exchange.getL; rewrite ?He, ?Hn; done.
Qed.

Lemma drained_publish m o : triple drained (Exchange.publish m o) drained.
Proof.
  intros w ([Hb Ha Hs] & Hr & Hd). destruct (publish_ready m o w Hr) as (Hg & Hr' & Hn).
  unfold drained, deferred. rewrite Hg.
  split; [| done]. constructor; rewrite Hg, ?Hn; done.
Qed.

Lemma drained_settle (m : M unit) w :
  triple drained m drained → drained w → drained (System.settle m w).
Proof.
  intros Hm Hw. specialize (Hm w Hw). unfold System.settle.
  destruct (m w) as [w' [[] | err]]; cbn [fst] in *; [done | by apply drained_told].
Qed.

Lemma drained_runMicrotasks w : drained w → drained (System.runMicrotasks w).
Proof.
  intros Hw. unfold System.runMicrotasks.
  assert (Hstart : drained (set_microtasks (λ _, []) w)).
  { eapply drained_front; [| exact Hw]. by apply front_fields. }
  generalize dependent (set_microtasks (λ _, []) w). clear Hw.
  induction (microtasks w) as [| t ts IH]; intros w' Hw'; [done |].
  cbn [foldl]. apply IH. apply drained_settle; [apply drained_runTask | done].
Qed.

Lemma drained_step w ev : drained w → drained (System.step w ev).
Proof.
  intros Hw. unfold System.step. apply drained_runMicrotasks.
  destruct ev; try (apply drained_settle; [by apply drained_react | done]).
  - apply drained_settle; [apply drained_publish | done].
  - apply drained_settle; [apply drained_ack | done].
Qed.

Lemma drained_run es : ∀ w, drained w → drained (System.run w es).
Proof.
  induction es as [| ev es IH]; intros w Hw; [done |].
  cbn [System.run foldl]. apply IH. by apply drained_step.
Qed.
End Drained.

Lemma new_listeners name type options e :
  Exchange.new name type options = Normal e → ExchangeState.listeners e = [].
Proof.
  unfold Exchange.new. destruct (negb (truthy_str type)); [done |].
  destruct (negb (Exchange.isNameless name)).
  - destruct (negb (truthy_str _)); [done |]. by intros [= <-].
  - by intros [= <-].
Qed.

(** C1, as amended.  Around an exchange made by the constructor, after any
    sequence of events that leaves the exchange not ready: the sends
    registered for "ready" are the publishes the caller has made, in the
    order of the calls; one more [publish] sends nothing and joins them at
    the end.  In the turn of the loop that makes the exchange ready, when
    no exception escapes a handler of that turn, the publishes that waited
    are handed to [channel.publish] one after the other in the order they
    were issued, each once and each with the bytes of its encoding; none of
    them stays registered, so that nothing that follows sends one of them
    again.  (A send that throws in that turn ends the "ready" there: the
    sends registered behind it are not made.  The listeners of the caller
    are taken to observe: one that published from within "ready" would add
    its message to those listed here.) *)
Theorem deferred_publishes_sent_once_in_order `{Platform}
    name type options e writable es :
  Exchange.new name type options = Normal e →
  let w := System.run (System.init e writable) es in
  ExchangeState.ready (ex w) = false →
  deferred w = calls es
  ∧ (∀ m o,
       let w1 := System.step w (System.CallPublish m o) in
       ExchangeState.ready (ex w1) = false ∧ log w1 = log w
       ∧ deferred w1 = deferred w ++ [(m, o)])
  ∧ (∀ ev,
       let w' := System.step w ev in
       ExchangeState.ready (ex w') = true →
       uncaught w' = uncaught w →
       published (log w') = published (log w) ++ map (sent w) (deferred w)
       ∧ Forall encodable (deferred w)
       ∧ ∀ es', deferred (System.run w' es') = []).
Proof.
  intros Hnew w Hr.
  assert (Hq : queued (calls es) w).
  { apply (queued_run es [] (System.init e writable)).
    apply queued_init. by eapply new_listeners. }
  destruct Hq as [Ht Hd].
  assert (Hm : microtasks w = []).
  { destruct (run_Inv e es (System.init e writable)) as [_ Hm];
      [by eapply init_Inv | done | done]. }
  split_and!.
  - by apply Hd.
  - intros m o w1. subst w1. unfold System.step, System.settle.
    cbn [System.react]. rewrite (publish_effect m o w Hr).
    unfold System.runMicrotasks. cbn [microtasks set_nextRid Exchange.setL set_ex].
    rewrite Hm. cbn [foldl]. split_and!; [by cbn | done |].
    change (deferred (set_microtasks _ ?x)) with (deferred x).
    rewrite <- (deferred_publish m o w Hr). by rewrite (publish_effect m o w Hr).
  - intros ev w' Hr' Hu.
    destruct (flush_step w ev Ht Hm Hr Hr' Hu) as [Ht' _ _ Hfl]. fold w' in Ht', Hfl.
    destruct Hfl as [(Hfalse & _) | (_ & Hd' & Hp & He)]; [congruence |].
    split; [done |]. split; [done |]. intros es'.
    by destruct (drained_run es' w' (conj Ht' (conj Hr' Hd'))) as (_ & _ & ?).
Qed.

(** Three publishes, made before the exchange connects, before its channel
    opens and before its reply queue is declared, wait in the order of the
    calls; the declaration of the reply queue makes the exchange ready and
    sends them in that order. *)
Lemma buffered_publishes_in_order :
  let w := System.run (H := Scalars.scalars)
             (System.init Examples.nameless Examples.never_drained) Examples.buffered in
  let w' := System.step (H := Scalars.scalars) w Examples.flushing in
  ExchangeState.ready (ex w) = false
  ∧ deferred w = Examples.three
  ∧ published (log w) = []
  ∧ ExchangeState.ready (ex w') = true
  ∧ uncaught w' = uncaught w
  ∧ published (log w')
    = [("", Some "a", Examples.quoted "one");
       ("", Some "b", Examples.quoted "two");
       ("", Some "c", "3")]
  ∧ deferred w' = [].
Proof. vm_compute. repeat split; reflexivity. Qed.

Lemma deferred_publishes_sent_once_in_order_witness :
  let es := Examples.buffered in
  let w := System.run (H := Scalars.scalars)
             (System.init Examples.nameless Examples.never_drained) es in
  (Exchange.new (Some "") (Some "direct") Exchange.no_options = Normal Examples.nameless
   ∧ ExchangeState.ready (ex w) = false)
  ∧ deferred w = calls es
  ∧ (∀ m o,
       let w1 := System.step (H := Scalars.scalars) w (System.CallPublish m o) in
       ExchangeState.ready (ex w1) = false ∧ log w1 = log w
       ∧ deferred w1 = deferred w ++ [(m, o)])
  ∧ (∀ ev,
       let w' := System.step (H := Scalars.scalars) w ev in
       ExchangeState.ready (ex w') = true →
       uncaught w' = uncaught w →
       published (log w')
       = published (log w) ++ map (sent (H := Scalars.scalars) w) (deferred w)
       ∧ Forall (encodable (H := Scalars.scalars)) (deferred w)
       ∧ ∀ es', deferred (System.run (H := Scalars.scalars) w' es') = []).
Proof.
  assert (Hnew : Exchange.new (Some "") (Some "direct") Exchange.no_options
                 = Normal Examples.nameless) by (vm_compute; reflexivity).
  assert (Hr : ExchangeState.ready
                 (ex (System.run (H := Scalars.scalars)
                        (System.init Examples.nameless Examples.never_drained)
                        Examples.buffered)) = false) by (vm_compute; reflexivity).
  split.
  - exact (conj Hnew Hr).
  - exact (deferred_publishes_sent_once_in_order (H := Scalars.scalars)
             (Some "") (Some "direct") Exchange.no_options Examples.nameless
             Examples.never_drained Examples.buffered Hnew Hr).
Defined.

(** When a send that waits throws: on an exchange made with [noReply], a
    deferred publish that asks for a reply throws when "ready" fires; the
    publish issued after it is not sent and stays registered. *)
Lemma throwing_send_ends_the_batch :
  published (log Examples.poisoned) = [("", Some "a", Examples.quoted "one")]
  ∧ last (log Examples.poisoned)
    = Some (Uncaught (TypeError "Cannot read properties of null"))
  ∧ deferred Examples.poisoned = [(number 3, Examples.publish_options "c" None)].
Proof. vm_compute. repeat split; reflexivity. Qed.

(** * Further properties *)

(** ** What every handler adds to the log *)

Lemma grown_init w : grown (ex w) (log w) w.
Proof. constructor; try done. exists []. by rewrite app_nil_r. Qed.

Lemma grown_same e l0 w w' : same_identity w w' → grown e l0 w → grown e l0 w'.
Proof.
  intros [] []. constructor; try congruence.
  - etrans; done.
  - auto.
  - auto.
  - by rewrite si_log0.
Qed.

Lemma grown_modify e l0 f :
  (∀ w, same_identity w (f w)) → triple (grown e l0) (modify f) (grown e l0).
Proof. intros Hf. apply triple_modify. intros w. by apply grown_same. Qed.

Lemma grown_told e l0 a w :
  allowed e a → grown e l0 w → grown e l0 (set_log (λ l, l ++ [a]) w).
Proof.
  intros Ha [? ? ? ? ? ? (l' & Hl & Hall)]. constructor; try done.
  exists (l' ++ [a]). cbn. rewrite Hl, app_assoc. split; [done |].
  apply Forall_app. split; [done |]. by apply Forall_singleton.
Qed.

Lemma grown_tell e l0 a :
  allowed e a → triple (grown e l0) (tell a) (grown e l0).
Proof. intros Ha. apply triple_modify. intros w. by apply grown_told. Qed.

Lemma same_identity_update q f w : same_identity w (update_queue q f w).
Proof. constructor; try (by destruct q). apply reply_update. Qed.

(** Walks a handler down to its updates of the state. *)
Ltac leaf :=
  lazymatch goal with
  | |- triple _ (tell _) _ => apply grown_tell; by cbn
  | |- triple _ (modify (update_queue _ _)) _ =>
      apply grown_modify; intros ?; apply same_identity_update
  | |- triple _ (EventEmitter.addListener (Queue.setL _) _ _ _) _ =>
      apply grown_modify; intros ?; constructor; try done; apply reply_update
  | |- triple _ (EventEmitter.removeListener (Queue.setL _) _) _ =>
      apply grown_modify; intros ?; apply same_identity_update
  | |- triple _ (modify _) _ => apply grown_modify; intros ?; by constructor
  | |- triple _ (request _) _ => apply grown_modify; intros ?; by constructor
  | |- triple _ (queueMicrotask _) _ => apply grown_modify; intros ?; by constructor
  | |- triple _ (EventEmitter.addListener Exchange.setL _ _ _) _ =>
      apply grown_modify; intros ?; by constructor
  | |- triple _ (EventEmitter.removeListener Exchange.setL _) _ =>
      apply grown_modify; intros ?; by constructor
  | |- triple _ (Exchange.set_join _ _) _ => apply grown_modify; intros ?; by constructor
  | |- triple _ Exchange.onDrain _ => apply grown_modify; intros ?; by constructor
  end.

Ltac grow := walk; try leaf.

Lemma grown_step e l0 w w' a :
  grown e l0 w → allowed e a →
  same_identity (set_log (λ l, l ++ [a]) w) w' → grown e l0 w'.
Proof. intros HG Ha Hs. eapply grown_same; [exact Hs |]. by apply grown_told. Qed.

Section Grown.
Context `{Platform}.
Variables (e : ExchangeState.t) (l0 : list Action).

Local Abbreviation G := (grown e l0).

Lemma grown_sendMessage m o : triple G (Exchange.sendMessage m o) G.
Proof.
  intros w HG. unfold Exchange.sendMessage, Exchange.v4, Exchange.onDrain.
  remember (Exchange.extend_publish Exchange.DEFAULT_PUBLISH_OPTIONS o) as opts eqn:Hopts.
  clear Hopts.
  assert (Hname : ExchangeState.name (ex w) = ExchangeState.name e) by apply HG.
  unfold_M. cbn. destruct (Exchange.encodeMessage _ _) as [msg |]; cbn; [| done].
  destruct (reply opts) eqn:Hr; cbn.
  - destruct (ExchangeState.replyQueue (ex w)) eqn:Hq; cbn; [| done].
    destruct (ExchangeState.channel (ex w)); cbn.
    + destruct (Exchange.toBuffer _); cbn.
      * destruct (writable w (writes w)); cbn.
        -- eapply grown_step; [exact HG | | (constructor; cbn; rewrite ?Hq; try done; intros ? ?; apply lookup_insert_is_Some'; by right)].
           cbn. split; [by left | done].
        -- eapply grown_step; [exact HG | | (constructor; cbn; rewrite ?Hq; try done; intros ? ?; apply lookup_insert_is_Some'; by right)].
           cbn. split; [by left | done].
      * eapply grown_same; [| exact HG]. (constructor; cbn; rewrite ?Hq; try done; intros ? ?; apply lookup_insert_is_Some'; by right).
    + eapply grown_same; [| exact HG]. (constructor; cbn; rewrite ?Hq; try done; intros ? ?; apply lookup_insert_is_Some'; by right).
  - destruct (ExchangeState.channel (ex w)); cbn; [| done].
    destruct (Exchange.toBuffer _); cbn; [| done].
    destruct (writable w (writes w)); cbn.
    + eapply grown_step; [exact HG | | by constructor]. cbn. split; [by left | done].
    + eapply grown_step; [exact HG | | by constructor]. cbn. split; [by left | done].
Qed.

Lemma grown_connect q con : triple G (Queue.connect q con) G.
Proof. unfold Queue.connect. grow. Qed.

Lemma grown_call l arg : triple G (Exchange.call l arg) G.
Proof.
  destruct l; cbn.
  - apply grown_sendMessage.
  - grow. apply grown_connect.
  - grow.
Qed.

Lemma grown_fire ls arg :
  triple G (EventEmitter.fire Exchange.setL Exchange.call ls arg) G.
Proof.
  induction ls as [| r ls IH]; cbn; grow; [apply grown_call | done].
Qed.

Lemma grown_emit ev arg : triple G (Exchange.emit ev arg) G.
Proof. unfold Exchange.emit, EventEmitter.emit. grow; apply grown_fire. Qed.

Lemma grown_isReady : triple G Exchange.isReady G.
Proof. unfold Exchange.isReady. grow. apply grown_emit. Qed.

Lemma grown_bail err : triple G (Exchange.bail err) G.
Proof. unfold Exchange.bail. grow. apply grown_emit. Qed.

Lemma grown_onReply data msg : triple G (Exchange.onReply data msg) G.
Proof. unfold Exchange.onReply, Exchange.inherited. grow. Qed.

Lemma grown_publish m o : triple G (Exchange.publish m o) G.
Proof. unfold Exchange.publish, Exchange.once. grow. apply grown_sendMessage. Qed.

Lemma grown_exchange_connect con : triple G (Exchange.connect con) G.
Proof. unfold Exchange.connect, Queue.consume, Queue.on, Queue.once. grow. Qed.
End Grown.

Section GrownQueues.
Context `{Platform}.
Variables (e : ExchangeState.t) (l0 : list Action).

Local Abbreviation G := (grown e l0).

Lemma grown_bindKey q key :
  ExchangeState.name e ≠ "" → key ≠ "" → triple G (Exchange.bindKey q key) G.
Proof.
  intros Hn Hk w HG. destruct (ExchangeState.channel (ex w)) as [c |] eqn:Hc.
  - rewrite (bindKey_some q key w c Hc). cbn [fst].
    eapply grown_step; [exact HG | | by constructor].
    cbn. rewrite (g_name _ _ _ HG). done.
  - by rewrite (bindKey_none q key w Hc).
Qed.

Lemma grown_bindKeys q keys :
  ExchangeState.name e ≠ "" → Forall (λ k, k ≠ "") keys →
  triple G (Exchange.bindKeys q keys) G.
Proof.
  intros Hn Hk. unfold Exchange.bindKeys. apply pres_gets_bind. intros ch.
  apply pres_bind.
  - apply triple_forEach. intros k Hin. apply grown_bindKey; [done |].
    by eapply (proj1 (Forall_forall _ _) Hk).
  - intros _. destruct keys, ch; grow.
Qed.

Lemma requested_keys_not_empty options :
  Forall (λ k, k ≠ "") (Exchange.requested_keys options).
Proof.
  unfold Exchange.requested_keys. destruct (keys options) as [ks |].
  - apply Forall_forall. intros k Hk. by apply list_elem_of_filter in Hk as [? _].
  - destruct (qkey options) as [k |]; [| done].
    apply Forall_forall. intros k' Hk. by apply list_elem_of_filter in Hk as [? _].
Qed.

Lemma grown_onQueueReady q options : triple G (Exchange.onQueueReady q options) G.
Proof.
  unfold Exchange.onQueueReady. apply triple_gets_bind. intros nm.
  destruct (negb (Exchange.isNameless (Some nm))) eqn:Hnm.
  - intros w [HG Hw]. apply grown_bindKeys; [| apply requested_keys_not_empty | done].
    rewrite <- (g_name _ _ _ HG), Hw. intros ->. done.
  - apply triple_ret. by intros w [? _].
Qed.

Lemma grown_onBind q err : triple G (Exchange.onBind q err) G.
Proof. unfold Exchange.onBind. grow. Qed.

Lemma grown_createQueue options : triple G (Exchange.createQueue options) G.
Proof.
  unfold Exchange.createQueue, Queue.on, Queue.once, Exchange.once. grow.
  apply grown_connect.
Qed.

Lemma grown_onExchange err : triple G (Exchange.onExchange err) G.
Proof.
  unfold Exchange.onExchange, Queue.once. grow.
  - apply grown_bail.
  - apply grown_connect.
  - apply grown_isReady.
Qed.

Lemma grown_onChannel err chan : triple G (Exchange.onChannel err chan) G.
Proof.
  unfold Exchange.onChannel. destruct err; [apply grown_bail |].
  do 3 (apply pres_bind; [grow; apply grown_emit | intros _]).
  apply triple_gets_bind. intros e'.
  destruct (Exchange.isDefault _ _ || Exchange.isNameless _) eqn:Hskip.
  - apply triple_drop. apply grown_onExchange.
  - intros w [HG <-]. unfold_M. cbn.
    eapply grown_step; [exact HG | | by constructor].
    apply orb_false_elim in Hskip as [Hd Hn]. cbn.
    rewrite (g_name _ _ _ HG), (g_type _ _ _ HG), (g_options _ _ _ HG) in *.
    split_and!; try done. intros Heq. rewrite Heq in Hn. done.
Qed.

Lemma grown_afterDrain : triple G Exchange.afterDrain G.
Proof. unfold Exchange.afterDrain. grow. apply grown_emit. Qed.

Lemma grown_startConsume q cb o : triple G (QueueEvents.startConsume q cb o) G.
Proof. unfold QueueEvents.startConsume. grow. Qed.

Lemma grown_queue_call q l arg : triple G (QueueEvents.call q l arg) G.
Proof.
  destruct l; cbn.
  - apply grown_onQueueReady.
  - apply grown_bail.
  - apply grown_isReady.
  - apply grown_startConsume.
  - grow.
Qed.

Lemma grown_queue_fire q ls arg :
  triple G (EventEmitter.fire (Queue.setL q) (QueueEvents.call q) ls arg) G.
Proof.
  induction ls as [| r ls IH]; cbn; grow; [apply grown_queue_call | done].
Qed.

Lemma grown_queue_emit q ev arg : triple G (QueueEvents.emit q ev arg) G.
Proof. unfold QueueEvents.emit, EventEmitter.emit. grow; apply grown_queue_fire. Qed.

Lemma grown_queue_bail q err : triple G (QueueEvents.bail q err) G.
Proof. unfold QueueEvents.bail. grow. apply grown_queue_emit. Qed.

Lemma grown_onQueue q err ok : triple G (QueueEvents.onQueue q err ok) G.
Proof.
  unfold QueueEvents.onQueue. grow; [apply grown_queue_bail | apply grown_queue_emit].
Qed.

Lemma grown_queue_onChannel q err chan : triple G (QueueEvents.onChannel q err chan) G.
Proof.
  unfold QueueEvents.onChannel. grow; [apply grown_queue_bail | apply grown_queue_emit].
Qed.

Lemma grown_onConsume q err tag : triple G (QueueEvents.onConsume q err tag) G.
Proof.
  unfold QueueEvents.onConsume. grow; [apply grown_queue_bail | apply grown_queue_emit].
Qed.

Lemma grown_ack q msg reply : triple G (QueueEvents.ack q msg reply) G.
Proof.
  unfold QueueEvents.ack. grow.
  apply grown_tell. cbn. split; [by right | done].
Qed.

Lemma grown_nack q msg opts : triple G (QueueEvents.nack q msg opts) G.
Proof. unfold QueueEvents.nack. grow. Qed.

Lemma grown_onMessage q cb msg : triple G (QueueEvents.onMessage q cb msg) G.
Proof. unfold QueueEvents.onMessage. grow. apply grown_onReply. Qed.

Lemma grown_callback r resp : triple G (System.callback r resp) G.
Proof.
  destruct r as [[| q] | | q | q key | q]; cbn [System.callback].
  - apply grown_onChannel.
  - apply grown_queue_onChannel.
  - apply grown_onExchange.
  - apply grown_onQueue.
  - apply grown_onBind.
  - apply grown_onConsume.
Qed.

Lemma grown_react ev : triple G (System.react ev) G.
Proof.
  destruct ev; cbn [System.react].
  - apply grown_exchange_connect.
  - apply grown_publish.
  - grow. apply grown_createQueue.
  - unfold Queue.consume, Queue.once. grow.
  - apply grown_ack.
  - apply grown_nack.
  - grow.
  - grow.
  - grow. apply grown_callback.
  - apply pres_gets_bind. intros hs. apply triple_forEach. intros h _.
    unfold System.onClose. destruct (h.2); [apply grown_bail | apply grown_queue_bail].
  - apply pres_gets_bind. intros hs. apply triple_forEach. intros h _. grow.
  - grow. apply grown_onMessage.
  - grow. apply grown_afterDrain.
Qed.

Lemma grown_runTask t : triple G (System.runTask t) G.
Proof. destruct t; cbn; [apply grown_queue_emit | apply grown_bail]. Qed.

Lemma grown_settle (m : M unit) w : triple G m G → G w → G (System.settle m w).
Proof.
  intros Hm Hw. specialize (Hm w Hw). unfold System.settle.
  destruct (m w) as [w' [[] | err]]; cbn in *; [done |]. by apply grown_told.
Qed.

Lemma grown_runMicrotasks w : G w → G (System.runMicrotasks w).
Proof.
  intros Hw. unfold System.runMicrotasks.
  assert (Hstart : G (set_microtasks (λ _, []) w)).
  { eapply grown_same; [| exact Hw]. by constructor. }
  generalize dependent (set_microtasks (λ _, []) w). clear Hw.
  induction (microtasks w) as [| t ts IH]; intros w' Hw'; [done |].
  cbn. apply IH. apply grown_settle; [apply grown_runTask | done].
Qed.

Lemma grown_step_event w ev : G w → G (System.step w ev).
Proof.
  intros Hw. apply grown_runMicrotasks, grown_settle; [apply grown_react | done].
Qed.

Lemma grown_run es : ∀ w, G w → G (System.run w es).
Proof.
  induction es as [| ev es IH]; intros w Hw; [done |].
  cbn. apply IH. by apply grown_step_event.
Qed.
End GrownQueues.

(** ** What the listeners leave alone: lemmas *)

Lemma kept_refl w : kept w w.
Proof. by constructor. Qed.

Lemma kept_trans w1 w2 w3 : kept w1 w2 → kept w2 w3 → kept w1 w3.
Proof. intros [] []. constructor; try congruence; intros q; congruence. Qed.

Lemma kept_modify w0 f :
  (∀ w, kept w (f w)) → triple (kept w0) (modify f) (kept w0).
Proof. intros Hf. apply triple_modify. intros w Hw. eapply kept_trans; [exact Hw | apply Hf]. Qed.

Lemma fields_update q q' f w :
  (∀ s, fields (f s) = fields s) →
  fields <$> get_queue q' (update_queue q f w) = fields <$> get_queue q' w.
Proof.
  intros Hf. rewrite get_queue_update. case_decide; [| done].
  destruct (get_queue q' w); cbn; [by rewrite Hf | done].
Qed.

Lemma kept_update q f w : (∀ s, fields (f s) = fields s) → kept w (update_queue q f w).
Proof.
  intros Hf. constructor; try (by destruct q). intros q'. by apply fields_update.
Qed.

Lemma kept_ex f w :
  (∀ e, ExchangeState.connection (f e) = ExchangeState.connection e) →
  (∀ e, ExchangeState.channel (f e) = ExchangeState.channel e) →
  (∀ e, ExchangeState.publishing (f e) = ExchangeState.publishing e) →
  (∀ e, ExchangeState.ready (f e) = ExchangeState.ready e) →
  (∀ e, ExchangeState.replyQueue (f e) = ExchangeState.replyQueue e) →
  kept w (set_ex f w).
Proof.
  intros Hc Hch Hp Hr Hq. constructor; cbn; try done.
  intros [| i]; cbn; [by rewrite Hq | done].
Qed.

Lemma kept_fields w f :
  (∀ w, ex (f w) = ex w) → (∀ w, queues (f w) = queues w) → kept w (f w).
Proof.
  intros He Hq. constructor; rewrite ?He; try done.
  intros [| i]; cbn; by rewrite ?He, ?Hq.
Qed.

Ltac keep :=
  lazymatch goal with
  | |- triple _ (tell _) _ => apply kept_modify; intros ?; by apply kept_fields
  | |- triple _ (request _) _ => apply kept_modify; intros ?; by apply kept_fields
  | |- triple _ (queueMicrotask _) _ => apply kept_modify; intros ?; by apply kept_fields
  | |- triple _ (Exchange.set_join _ _) _ => apply kept_modify; intros ?; by apply kept_fields
  | |- triple _ Exchange.onDrain _ => apply kept_modify; intros ?; by apply kept_fields
  | |- triple _ (modify (update_queue _ _)) _ =>
      apply kept_modify; intros ?; by apply kept_update
  | |- triple _ (EventEmitter.removeListener (Queue.setL _) _) _ =>
      apply kept_modify; intros ?; by apply kept_update
  | |- triple _ (EventEmitter.removeListener Exchange.setL _) _ =>
      apply kept_modify; intros ?; by apply kept_ex
  | |- triple _ (modify (set_ex _)) _ => apply kept_modify; intros ?; by apply kept_ex
  | |- triple _ (modify _) _ => apply kept_modify; intros ?; by apply kept_fields
  end.

Ltac keeps := walk; try keep.

Section Kept.
Context `{Platform}.
Variable w0 : World.

Lemma kept_sendMessage m o : triple (kept w0) (Exchange.sendMessage m o) (kept w0).
Proof. unfold Exchange.sendMessage, Exchange.v4. keeps. Qed.

Lemma kept_connect q con : triple (kept w0) (Queue.connect q con) (kept w0).
Proof. unfold Queue.connect. keeps. Qed.

Lemma kept_call l arg : triple (kept w0) (Exchange.call l arg) (kept w0).
Proof.
  destruct l; cbn; [apply kept_sendMessage | keeps; apply kept_connect | keeps].
Qed.

Lemma kept_fire ls arg :
  triple (kept w0) (EventEmitter.fire Exchange.setL Exchange.call ls arg) (kept w0).
Proof. induction ls as [| r ls IH]; cbn; keeps; [apply kept_call | done]. Qed.

Lemma kept_emit ev arg : triple (kept w0) (Exchange.emit ev arg) (kept w0).
Proof. unfold Exchange.emit, EventEmitter.emit. keeps; apply kept_fire. Qed.
End Kept.

Lemma kept_closing w0 w : kept w0 w → closing w0 w.
Proof. intros []. constructor; auto. Qed.

Lemma closing_kept w0 w w' : closing w0 w → kept w w' → closing w0 w'.
Proof.
  intros [Hc Hch Hp Hq] [Hc' Hch' Hp' _ Hq']. constructor.
  - rewrite Hc'. done.
  - rewrite Hch'. done.
  - congruence.
  - intros q. by rewrite Hq', Hq.
Qed.

Lemma closing_modify w0 f :
  (∀ w, kept w (f w)) → triple (closing w0) (modify f) (closing w0).
Proof. intros Hf. apply triple_modify. intros w Hw. eapply closing_kept; [exact Hw | apply Hf]. Qed.

Lemma closing_lift {A} w0 (m : M A) :
  (∀ w1, triple (kept w1) m (kept w1)) → triple (closing w0) m (closing w0).
Proof.
  intros Hm w Hw. eapply closing_kept; [exact Hw |]. apply (Hm w w), kept_refl.
Qed.

Ltac close_leaf :=
  lazymatch goal with
  | |- triple _ (tell _) _ => apply closing_modify; intros ?; by apply kept_fields
  | |- triple _ (request _) _ => apply closing_modify; intros ?; by apply kept_fields
  | |- triple _ (queueMicrotask _) _ => apply closing_modify; intros ?; by apply kept_fields
  | |- triple _ (Exchange.set_join _ _) _ =>
      apply closing_modify; intros ?; by apply kept_fields
  | |- triple _ (modify (update_queue _ _)) _ =>
      apply closing_modify; intros ?; by apply kept_update
  | |- triple _ (EventEmitter.removeListener (Queue.setL _) _) _ =>
      apply closing_modify; intros ?; by apply kept_update
  | |- triple _ (modify (set_ex _)) _ => fail
  | |- triple _ (modify _) _ => apply closing_modify; intros ?; by apply kept_fields
  end.

Ltac closes := walk; try close_leaf.

Section Closing.
Context `{Platform}.
Variable w0 : World.

Local Abbreviation C := (closing w0).

Lemma closing_clear_connection :
  triple C (modify (set_ex (ExchangeState.with_connection None))) C.
Proof.
  apply triple_modify. intros w [Hc Hch Hp Hq].
  constructor; cbn; try done; try (by right); intros [| i]; apply Hq.
Qed.

Lemma closing_clear_channel :
  triple C (modify (set_ex (ExchangeState.with_channel None))) C.
Proof.
  apply triple_modify. intros w [Hc Hch Hp Hq].
  constructor; cbn; try done; try (by right); intros [| i]; apply Hq.
Qed.

Lemma closing_set_ready :
  triple C (modify (set_ex (ExchangeState.with_ready true))) C.
Proof.
  apply triple_modify. intros w [Hc Hch Hp Hq].
  constructor; cbn; try done; try (by right); intros [| i]; apply Hq.
Qed.

Lemma closing_emit ev arg : triple C (Exchange.emit ev arg) C.
Proof. apply closing_lift. intros w1. apply kept_emit. Qed.

Lemma closing_bail err : triple C (Exchange.bail err) C.
Proof.
  unfold Exchange.bail. closes;
    [apply closing_clear_connection | apply closing_clear_channel | apply closing_emit].
Qed.

Lemma closing_isReady : triple C Exchange.isReady C.
Proof. unfold Exchange.isReady. closes; [apply closing_set_ready | apply closing_emit]. Qed.

Lemma closing_bindKey q key : triple C (Exchange.bindKey q key) C.
Proof. unfold Exchange.bindKey. closes. Qed.

Lemma closing_bindKeys q keys : triple C (Exchange.bindKeys q keys) C.
Proof.
  unfold Exchange.bindKeys. apply pres_gets_bind. intros ch. apply pres_bind.
  - apply triple_forEach. intros k _. apply closing_bindKey.
  - intros _. destruct keys, ch; closes.
Qed.

Lemma closing_onQueueReady q options : triple C (Exchange.onQueueReady q options) C.
Proof. unfold Exchange.onQueueReady. closes. apply closing_bindKeys. Qed.

Lemma closing_startConsume q cb o : triple C (QueueEvents.startConsume q cb o) C.
Proof. unfold QueueEvents.startConsume. closes. Qed.

Lemma closing_call q l arg : triple C (QueueEvents.call q l arg) C.
Proof.
  destruct l; cbn.
  - apply closing_onQueueReady.
  - apply closing_bail.
  - apply closing_isReady.
  - apply closing_startConsume.
  - closes.
Qed.

Lemma closing_fire q ls arg :
  triple C (EventEmitter.fire (Queue.setL q) (QueueEvents.call q) ls arg) C.
Proof. induction ls as [| r ls IH]; cbn; closes; [apply closing_call | done]. Qed.

Lemma closing_queue_emit q ev arg : triple C (QueueEvents.emit q ev arg) C.
Proof. unfold QueueEvents.emit, EventEmitter.emit. closes; apply closing_fire. Qed.
End Closing.

(** ** Emitting and bailing *)

Section Emits.
Context `{Platform}.

Lemma grown_extends e l0 w : grown e l0 w → ∃ l', log w = l0 ++ l'.
Proof. intros [_ _ _ _ _ _ (l' & Hl & _)]. by exists l'. Qed.

(** An event that is not "error" is emitted, whoever listens; what the
    listeners of the exchange do comes after it in the log and leaves the
    connection, the channel, the counter, the flag and the queues. *)
Lemma exchange_emit_effect ev arg w :
  ev ≠ "error" →
  kept w (exec (Exchange.emit ev arg) w)
  ∧ ∃ l', log (exec (Exchange.emit ev arg) w) = log w ++ Emit TheExchange ev arg :: l'.
Proof.
  intros Hev. split; [apply (kept_emit w ev arg w), kept_refl |].
  unfold exec, Exchange.emit, EventEmitter.emit. rewrite gets_bind. cbn beta.
  set (ls := filter (λ r, event r = ev) (Exchange.getL w)).
  set (w1 := set_log (λ l, l ++ [Emit TheExchange ev arg]) w).
  destruct ls as [| r0 ls0] eqn:Heq.
  { rewrite bool_decide_eq_false_2 by done. exists []. done. }
  rewrite <- Heq. clear Heq r0 ls0.
  change ((tell (Emit TheExchange ev arg) ≫= λ _,
            EventEmitter.fire Exchange.setL Exchange.call ls arg) w)
    with (EventEmitter.fire Exchange.setL Exchange.call ls arg w1).
  destruct (grown_extends (ex w1) (log w1) _
              (grown_fire (ex w1) (log w1) ls arg w1 (grown_init w1))) as [l' Hl'].
  exists l'. rewrite Hl'. cbn. by rewrite <- app_assoc.
Qed.

Lemma queue_emit_effect q ev arg w :
  ev ≠ "error" →
  closing w (exec (QueueEvents.emit q ev arg) w)
  ∧ ∃ l', log (exec (QueueEvents.emit q ev arg) w)
          = log w ++ Emit (TheQueue q) ev arg :: l'.
Proof.
  intros Hev. split; [apply (closing_queue_emit w q ev arg w), kept_closing, kept_refl |].
  unfold exec, QueueEvents.emit, EventEmitter.emit. rewrite gets_bind. cbn beta.
  set (ls := filter (λ r, event r = ev) (Queue.getL q w)).
  set (w1 := set_log (λ l, l ++ [Emit (TheQueue q) ev arg]) w).
  destruct ls as [| r0 ls0] eqn:Heq.
  { rewrite bool_decide_eq_false_2 by done. exists []. done. }
  rewrite <- Heq. clear Heq r0 ls0.
  change ((tell (Emit (TheQueue q) ev arg) ≫= λ _,
            EventEmitter.fire (Queue.setL q) (QueueEvents.call q) ls arg) w)
    with (EventEmitter.fire (Queue.setL q) (QueueEvents.call q) ls arg w1).
  destruct (grown_extends (ex w1) (log w1) _
              (grown_queue_fire (ex w1) (log w1) q ls arg w1 (grown_init w1))) as [l' Hl'].
  exists l'. rewrite Hl'. cbn. by rewrite <- app_assoc.
Qed.

Lemma exchange_bail_effect err w :
  ExchangeState.connection (ex (exec (Exchange.bail err) w)) = None
  ∧ ExchangeState.channel (ex (exec (Exchange.bail err) w)) = None
  ∧ ExchangeState.ready (ex (exec (Exchange.bail err) w)) = ExchangeState.ready (ex w)
  ∧ ExchangeState.publishing (ex (exec (Exchange.bail err) w))
    = ExchangeState.publishing (ex w)
  ∧ (∀ q, fields <$> get_queue q (exec (Exchange.bail err) w) = fields <$> get_queue q w)
  ∧ ∃ l', log (exec (Exchange.bail err) w) = log w ++ Emit TheExchange "close" err :: l'.
Proof.
  unfold exec, Exchange.bail. rewrite !modify_bind.
  set (w2 := set_ex (ExchangeState.with_channel None)
               (set_ex (ExchangeState.with_connection None) w)).
  destruct (exchange_emit_effect "close" err w2) as [[Hc Hch Hp Hr Hq] Hl]; [done |].
  unfold exec in *. rewrite Hc, Hch, Hp, Hr. split_and!; done.
Qed.
End Emits.

Section Bailed.
Context `{Platform}.

(** [publish] on an exchange that is ready and has no channel. *)
Lemma publish_without_channel m o w :
  ExchangeState.ready (ex w) = true → ExchangeState.channel (ex w) = None →
  let encoding :=
    Exchange.encodeMessage m
      (read (pContentType (Exchange.extend_publish Exchange.DEFAULT_PUBLISH_OPTIONS o))) in
  (∃ e, outcome (Exchange.publish m o) w = Throw e)
  ∧ log (exec (Exchange.publish m o) w) = log w
  ∧ ExchangeState.publishing (ex (exec (Exchange.publish m o) w))
    = (ExchangeState.publishing (ex w) + 1)%Z
  ∧ (∀ e, encoding = Throw e →
       outcome (Exchange.publish m o) w = Throw e
       ∧ ExchangeState.pendingReplies (ex (exec (Exchange.publish m o) w))
         = ExchangeState.pendingReplies (ex w))
  ∧ (∀ msg, encoding = Normal msg →
       (∃ what, outcome (Exchange.publish m o) w = Throw (TypeError what))
       ∧ ∀ f, reply o = Some f → is_Some (ExchangeState.replyQueue (ex w)) →
           ExchangeState.pendingReplies (ex (exec (Exchange.publish m o) w))
             !! uuid_v4 (uuids w) = Some f).
Proof.
  intros Hr Hc encoding. subst encoding.
  unfold exec, outcome, Exchange.publish. rewrite modify_bind, gets_bind.
  cbn beta. cbn [ex set_ex ExchangeState.ready ExchangeState.with_publishing].
  rewrite Hr. unfold Exchange.sendMessage, Exchange.v4.
  remember (Exchange.extend_publish Exchange.DEFAULT_PUBLISH_OPTIONS o) as opts eqn:Hopts.
  assert (Hreply : reply opts = reply o) by (subst opts; cbn; apply or_else_None).
  clear Hopts. unfold_M. cbn.
  destruct (Exchange.encodeMessage m (read (pContentType opts))) as [msg | e]; cbn.
  2: { split_and!; [by eexists | done | done | by intros ? [= <-] | done]. }
  rewrite Hreply. destruct (reply o) as [f |]; cbn.
  - destruct (ExchangeState.replyQueue (ex w)) as [rq |] eqn:Hq; cbn.
    + rewrite Hc. cbn. split_and!; [by eexists | done | done | done |].
      intros ? _. split; [by eexists |].
      intros f' [= <-] _. by rewrite lookup_insert_eq.
    + split_and!; [by eexists | done | done | done |].
      intros ? _. split; [by eexists |]. intros f' _ [? ?]. done.
  - rewrite Hc. cbn. split_and!; [by eexists | done | done | done |].
    intros ? _. split; [by eexists | done].
Qed.
End Bailed.

Section QueueBailed.
Context `{Platform}.

Lemma queue_bail_effect q err w :
  (∀ s, get_queue q (exec (QueueEvents.bail q err) w) = Some s → cleared s)
  ∧ (is_Some (get_queue q (exec (QueueEvents.bail q err) w)) ↔ is_Some (get_queue q w))
  ∧ (∀ q', q' ≠ q →
       fields <$> get_queue q' (exec (QueueEvents.bail q err) w)
       = fields <$> get_queue q' w)
  ∧ ExchangeState.publishing (ex (exec (QueueEvents.bail q err) w))
    = ExchangeState.publishing (ex w)
  ∧ ∃ l', log (exec (QueueEvents.bail q err) w)
          = log w ++ Emit (TheQueue q) "close" err :: l'.
Proof.
  unfold exec, QueueEvents.bail. rewrite !modify_bind.
  set (w3 := update_queue q _ (update_queue q _ (update_queue q _ w))).
  assert (H3 : get_queue q w3
               = (λ s, QueueState.with_consumerTag None
                         (QueueState.with_name None (QueueState.with_channel None s)))
                 <$> get_queue q w).
  { unfold w3. rewrite !get_queue_update, !decide_True by done.
    by destruct (get_queue q w). }
  destruct (queue_emit_effect q "close" err w3) as [[Hc Hch Hp Hq] Hl]; [done |].
  unfold exec in *. split_and!.
  - intros s Hs. specialize (Hq q). rewrite Hs, H3 in Hq.
    destruct (get_queue q w); [| done]. cbn in Hq. unfold fields in Hq.
    cbn in Hq. injection Hq as Hch' Hn' Ht'. by split_and!.
  - specialize (Hq q). rewrite H3 in Hq. rewrite <- !(fmap_is_Some fields), Hq.
    by rewrite !fmap_is_Some.
  - intros q' Hne. rewrite Hq. unfold w3.
    by rewrite !get_queue_update, !decide_False by done.
  - rewrite Hp. by destruct q.
  - destruct Hl as [l' Hl']. exists l'. rewrite Hl'. by destruct q.
Qed.

(** [ack] and [nack] on a queue that has no channel. *)
Lemma ack_without_channel q msg reply w :
  (∀ s, get_queue q w = Some s → QueueState.channel s = None) →
  (∃ e, outcome (QueueEvents.ack q msg reply) w = Throw e)
  ∧ exec (QueueEvents.ack q msg reply) w = w.
Proof.
  intros Hq. unfold exec, outcome, QueueEvents.ack. unfold_M.
  destruct (QueueEvents.wants_reply msg); cbn.
  - destruct (Queue.encodeMessage _ _); cbn.
    + destruct (get_queue q w) as [s |] eqn:Hs; cbn; [| by split; [eexists |]].
      rewrite (Hq s eq_refl). cbn. by split; [eexists |].
    + by split; [eexists |].
  - destruct (get_queue q w) as [s |] eqn:Hs; cbn; [| by split; [eexists |]].
    rewrite (Hq s eq_refl). cbn. by split; [eexists |].
Qed.

Lemma nack_without_channel q msg opts w :
  (∀ s, get_queue q w = Some s → QueueState.channel s = None) →
  (∃ e, outcome (QueueEvents.nack q msg opts) w = Throw e)
  ∧ exec (QueueEvents.nack q msg opts) w = w.
Proof.
  intros Hq. unfold exec, outcome, QueueEvents.nack. unfold_M.
  destruct (get_queue q w) as [s |] eqn:Hs; cbn; [| by split; [eexists |]].
  rewrite (Hq s eq_refl). cbn. by split; [eexists |].
Qed.
End QueueBailed.

Section Propagation.
Context `{Platform}.

Lemma queue_close_reaches_exchange q err w r rest :
  filter (λ r, event r = "close") (Queue.getL q w) = r :: rest → fn r = LBail →
  ExchangeState.connection (ex (exec (QueueEvents.emit q "close" err) w)) = None
  ∧ ExchangeState.channel (ex (exec (QueueEvents.emit q "close" err) w)) = None
  ∧ ∃ l', log (exec (QueueEvents.emit q "close" err) w)
          = log w ++ Emit (TheQueue q) "close" err :: Emit TheExchange "close" err :: l'.
Proof.
  intros Hls Hfn. unfold exec, QueueEvents.emit, EventEmitter.emit.
  rewrite gets_bind. cbn beta. rewrite Hls.
  set (w1 := set_log (λ l, l ++ [Emit (TheQueue q) "close" err]) w).
  change ((tell (Emit (TheQueue q) "close" err) ≫= λ _,
            EventEmitter.fire (Queue.setL q) (QueueEvents.call q) (r :: rest) err) w)
    with (EventEmitter.fire (Queue.setL q) (QueueEvents.call q) (r :: rest) err w1).
  cbn [EventEmitter.fire]. erewrite bind_Normal; [| apply when_remove].
  set (w2 := if once r then Queue.setL q (filter (λ r0, rid r0 ≠ rid r)) w1 else w1).
  assert (Hlog2 : log w2 = log w ++ [Emit (TheQueue q) "close" err]).
  { unfold w2. destruct (once r); [by destruct q | done]. }
  rewrite Hfn. cbn [QueueEvents.call].
  destruct (exchange_bail_effect err w2) as (Hc & Hch & _ & _ & _ & l3 & Hl3).
  unfold exec in *. unfold mbind, M_bind.
  destruct (Exchange.bail err w2) as [w3 [[] | e]]; cbn [fst] in *.
  - pose proof (closing_fire w3 q rest err w3 (kept_closing _ _ (kept_refl w3)))
      as [Hc4 Hch4 _ _].
    destruct (grown_extends (ex w3) (log w3) _
                (grown_queue_fire (ex w3) (log w3) q rest err w3 (grown_init w3)))
      as [l4 Hl4].
    rewrite Hc, Hch in *. split_and!.
    + by destruct Hc4.
    + by destruct Hch4.
    + exists (l3 ++ l4). rewrite Hl4, Hl3, Hlog2. by rewrite <- !app_assoc.
  - split_and!; [done | done |]. exists l3. rewrite Hl3, Hlog2. by rewrite <- !app_assoc.
Qed.

Lemma queue_bail_reaches_exchange q err w r rest :
  filter (λ r, event r = "close") (Queue.getL q w) = r :: rest → fn r = LBail →
  ExchangeState.connection (ex (exec (QueueEvents.bail q err) w)) = None
  ∧ ExchangeState.channel (ex (exec (QueueEvents.bail q err) w)) = None
  ∧ ∃ l', log (exec (QueueEvents.bail q err) w)
          = log w ++ Emit (TheQueue q) "close" err :: Emit TheExchange "close" err :: l'.
Proof.
  intros Hls Hfn. unfold exec, QueueEvents.bail. rewrite !modify_bind.
  set (w3 := update_queue q _ (update_queue q _ (update_queue q _ w))).
  assert (HL : Queue.getL q w3 = Queue.getL q w).
  { unfold w3. by rewrite !getL_update_fields. }
  assert (Hlog : log w3 = log w) by (by destruct q).
  destruct (queue_close_reaches_exchange q err w3 r rest) as (? & ? & l' & Hl');
    [by rewrite HL | done |].
  split_and!; [done | done |]. exists l'. by rewrite <- Hlog.
Qed.

(** The function [onDrain] hands to [setImmediate]. *)
Lemma afterDrain_effect w :
  ExchangeState.publishing (ex (exec Exchange.afterDrain w))
  = (ExchangeState.publishing (ex w) - 1)%Z
  ∧ (ExchangeState.publishing (ex w) = 1%Z →
     ∃ l', log (exec Exchange.afterDrain w) = log w ++ Emit TheExchange "drain" None :: l')
  ∧ (ExchangeState.publishing (ex w) ≠ 1%Z → log (exec Exchange.afterDrain w) = log w).
Proof.
  unfold exec, Exchange.afterDrain. rewrite modify_bind, gets_bind. cbn beta.
  set (w1 := set_ex _ w).
  assert (Hp : ExchangeState.publishing (ex w1) = (ExchangeState.publishing (ex w) - 1)%Z)
    by done.
  rewrite Hp. case_bool_decide as Hz.
  - destruct (exchange_emit_effect "drain" None w1) as [[_ _ Hp' _ _] [l' Hl']]; [done |].
    unfold exec in *. rewrite Hp', Hp. split_and!; [done | | lia].
    intros _. by exists l'.
  - cbn. split_and!; [done | lia | done].
Qed.
End Propagation.

Section Served.
Context `{Platform}.

Lemma onConsume_effect q tag w s :
  get_queue q w = Some s →
  ∃ s', get_queue q (exec (QueueEvents.onConsume q None tag) w) = Some s'
        ∧ fields s' = (QueueState.channel s, QueueState.name s, Some tag).
Proof.
  intros Hs. unfold exec, QueueEvents.onConsume. rewrite modify_bind.
  set (w1 := update_queue q _ w).
  destruct (queue_emit_effect q "consuming" None w1) as [[_ _ _ Hq] _]; [done |].
  specialize (Hq q). unfold exec in Hq.
  assert (H1 : get_queue q w1 = Some (QueueState.with_consumerTag (Some tag) s)).
  { unfold w1. by rewrite get_queue_update, decide_True, Hs by done. }
  rewrite H1 in Hq. cbn in Hq.
  remember ((QueueEvents.emit q "consuming" None w1).1) as w' eqn:Hw'. clear Hw'.
  destruct (get_queue q w') as [s' |]; [| done]. exists s'. split; [done |].
  injection Hq as Hc Hn Ht. unfold fields. by rewrite Hc, Hn, Ht.
Qed.

Lemma onQueue_effect q name w s :
  get_queue q w = Some s →
  ∃ s', get_queue q (exec (QueueEvents.onQueue q None name) w) = Some s'
        ∧ fields s' = (QueueState.channel s, Some name, QueueState.consumerTag s).
Proof.
  intros Hs. unfold exec, QueueEvents.onQueue. rewrite modify_bind.
  set (w1 := update_queue q _ w).
  destruct (queue_emit_effect q "ready" None w1) as [[_ _ _ Hq] _]; [done |].
  specialize (Hq q). unfold exec in Hq.
  assert (H1 : get_queue q w1 = Some (QueueState.with_name (Some name) s)).
  { unfold w1. by rewrite get_queue_update, decide_True, Hs by done. }
  rewrite H1 in Hq. cbn in Hq.
  remember ((QueueEvents.emit q "ready" None w1).1) as w' eqn:Hw'. clear Hw'.
  destruct (get_queue q w') as [s' |]; [| done]. exists s'. split; [done |].
  injection Hq as Hc Hn Ht. unfold fields. by rewrite Hc, Hn, Ht.
Qed.
End Served.

(** ** What a run asks of the channels *)

Lemma run_allowed `{Platform} e writable es a :
  a ∈ log (System.run (System.init e writable) es) → allowed e a.
Proof.
  intros Ha.
  destruct (grown_run e [] es (System.init e writable) (grown_init (System.init e writable)))
    as [_ _ _ _ _ _ (l' & Hl & Hall)].
  cbn in Hl. subst l'. by eapply (proj1 (Forall_forall _ _) Hall).
Qed.

(** X1.  In every run from a new exchange, every [assertExchange] made on a
    channel declares the exchange itself, with its name, type and options,
    and the exchange is neither one of the default exchanges nor the
    nameless one. *)
Theorem declaration_is_of_a_named_exchange `{Platform}
    e writable es ch name type options :
  OnChannel ch (AssertExchange name type options)
    ∈ log (System.run (System.init e writable) es) →
  name = ExchangeState.name e ∧ type = ExchangeState.type e
  ∧ options = ExchangeState.options e
  ∧ Exchange.isDefault name type = false ∧ name ≠ "".
Proof. intros Ha. apply (run_allowed _ _ _ _ Ha). Qed.

Lemma declaration_is_of_a_named_exchange_witness :
  "test.topic.bindings" = ExchangeState.name Examples.topic
  ∧ "topic" = ExchangeState.type Examples.topic
  ∧ Exchange.extend_exchange Exchange.DEFAULT_EXCHANGE_OPTIONS Exchange.no_options
    = ExchangeState.options Examples.topic
  ∧ Exchange.isDefault "test.topic.bindings" "topic" = false
  ∧ "test.topic.bindings" ≠ "".
Proof.
  apply (declaration_is_of_a_named_exchange (H := Scalars.scalars)
           Examples.topic Examples.never_drained Examples.topic_opening 10).
  apply list_elem_of_In. vm_compute. tauto.
Defined.

(** X2.  In every run from a new exchange, every [bindQueue] made on a
    channel binds to the exchange itself, which has a name, with a routing
    key that is not empty. *)
Theorem binding_has_a_key_and_a_named_exchange `{Platform}
    e writable es ch queue exchange key :
  OnChannel ch (BindQueue queue exchange key)
    ∈ log (System.run (System.init e writable) es) →
  exchange = ExchangeState.name e ∧ exchange ≠ "" ∧ key ≠ "".
Proof. intros Ha. apply (run_allowed _ _ _ _ Ha). Qed.

Lemma binding_has_a_key_and_a_named_exchange_witness :
  "test.topic.bindings" = ExchangeState.name Examples.topic
  ∧ "test.topic.bindings" ≠ "" ∧ "b.*" ≠ "".
Proof.
  apply (binding_has_a_key_and_a_named_exchange (H := Scalars.scalars)
           Examples.topic Examples.never_drained
           (Examples.declaring ++ [System.Complete 0 Done; System.Complete 0 Done])
           10 (Some "events")).
  apply list_elem_of_In. vm_compute. tauto.
Defined.

(** X3.  In every run from a new exchange, every [publish] made on a
    channel goes to the exchange itself or to the nameless exchange, and its
    options hold no [reply] function. *)
Theorem reply_function_is_never_published `{Platform}
    e writable es ch exchange key bytes options :
  OnChannel ch (Publish exchange key bytes options)
    ∈ log (System.run (System.init e writable) es) →
  (exchange = ExchangeState.name e ∨ exchange = "") ∧ reply options = None.
Proof. intros Ha. apply (run_allowed _ _ _ _ Ha). Qed.

Lemma reply_function_is_never_published_witness :
  ("" = ExchangeState.name Examples.nameless ∨ "" = "")
  ∧ reply (asking (Examples.publish_options "rpc" (Some 5)) (Some "amq.gen-1") "uuid-0")
    = None.
Proof.
  apply (reply_function_is_never_published (H := Scalars.scalars)
           Examples.nameless Examples.never_drained
           (Examples.opening
            ++ [System.CallPublish (str "ping") (Examples.publish_options "rpc" (Some 5))])
           10 "" (Some "rpc") (Examples.quoted "ping")).
  apply list_elem_of_In. vm_compute. tauto.
Defined.

(** X4.  No run changes the name, the type or the options of the exchange,
    or whether it has a reply queue. *)
Theorem exchange_identity_is_fixed `{Platform} w es :
  let w' := System.run w es in
  ExchangeState.name (ex w') = ExchangeState.name (ex w)
  ∧ ExchangeState.type (ex w') = ExchangeState.type (ex w)
  ∧ ExchangeState.options (ex w') = ExchangeState.options (ex w)
  ∧ (is_Some (ExchangeState.replyQueue (ex w'))
     ↔ is_Some (ExchangeState.replyQueue (ex w))).
Proof.
  intros w'. by destruct (grown_run (ex w) (log w) es w (grown_init w)).
Qed.

(** X5.  Once the ready flag is set, no run resets it: not even [bail]. *)
Theorem ready_is_never_reset `{Platform} w es :
  ExchangeState.ready (ex w) = true →
  ExchangeState.ready (ex (System.run w es)) = true.
Proof. intros Hr. by apply (grown_run (ex w) (log w) es w (grown_init w)). Qed.

Lemma ready_is_never_reset_witness :
  ExchangeState.ready
    (ex (System.run (H := Scalars.scalars) Examples.rpc_ready
           [System.ChannelClose 10; System.ChannelClose 11])) = true.
Proof.
  apply (ready_is_never_reset (H := Scalars.scalars) Examples.rpc_ready
           [System.ChannelClose 10; System.ChannelClose 11]).
  vm_compute. reflexivity.
Defined.

(** X6.  A correlation id that is in [pendingReplies] stays in it through
    every run. *)
Theorem pending_replies_are_never_removed `{Platform} w es id :
  is_Some (ExchangeState.pendingReplies (ex w) !! id) →
  is_Some (ExchangeState.pendingReplies (ex (System.run w es)) !! id).
Proof. intros Hr. by apply (grown_run (ex w) (log w) es w (grown_init w)). Qed.

Lemma pending_replies_are_never_removed_witness :
  is_Some (ExchangeState.pendingReplies
             (ex (System.run (H := Scalars.scalars) Examples.two_replies
                    [System.Deliver 0 (Some Examples.pong); System.ChannelClose 10]))
           !! "uuid-0").
Proof.
  apply (pending_replies_are_never_removed (H := Scalars.scalars) Examples.two_replies
           [System.Deliver 0 (Some Examples.pong); System.ChannelClose 10] "uuid-0").
  vm_compute. by eexists.
Defined.

(** ** Bailing *)

(** X7.  [bail(err)] of the exchange clears the connection and the channel
    and emits "close" with [err]; it bails no queue.  When the listeners of
    "close" only observe, the exchange is left without connection and
    channel, and the ready flag, the counter of publishes and the channel,
    name and consumer tag of every queue are as before. *)
Theorem bail_closes_the_exchange `{Platform} w err :
  let w' := exec (Exchange.bail err) w in
  ExchangeState.connection (ex w') = None
  ∧ ExchangeState.channel (ex w') = None
  ∧ ExchangeState.ready (ex w') = ExchangeState.ready (ex w)
  ∧ ExchangeState.publishing (ex w') = ExchangeState.publishing (ex w)
  ∧ (∀ q, fields <$> get_queue q w' = fields <$> get_queue q w)
  ∧ ∃ l', log w' = log w ++ Emit TheExchange "close" err :: l'.
Proof. apply exchange_bail_effect. Qed.

(** X8.  On an exchange that was ready, a [publish] after [bail] (whose
    listeners of "close" only observed) throws and sends nothing, and the
    counter of publishes is incremented all the same.  When
    [encodeMessage] throws, that exception is the one thrown and the table
    of replies is as before; otherwise a [TypeError] is thrown, after a
    [reply] function of the options has been stored in [pendingReplies] on
    an exchange with a reply queue. *)
Theorem publish_after_bail_throws `{Platform} w err message options :
  ExchangeState.ready (ex w) = true →
  let w1 := exec (Exchange.bail err) w in
  let w2 := exec (Exchange.publish message options) w1 in
  let result := outcome (Exchange.publish message options) w1 in
  let encoding :=
    Exchange.encodeMessage message
      (read (pContentType
               (Exchange.extend_publish Exchange.DEFAULT_PUBLISH_OPTIONS options))) in
  (∃ e, result = Throw e)
  ∧ log w2 = log w1
  ∧ ExchangeState.publishing (ex w2) = (ExchangeState.publishing (ex w) + 1)%Z
  ∧ (∀ e, encoding = Throw e →
       result = Throw e
       ∧ ExchangeState.pendingReplies (ex w2) = ExchangeState.pendingReplies (ex w1))
  ∧ (∀ msg, encoding = Normal msg →
       (∃ what, result = Throw (TypeError what))
       ∧ ∀ f, reply options = Some f → is_Some (ExchangeState.replyQueue (ex w)) →
           ExchangeState.pendingReplies (ex w2) !! uuid_v4 (uuids w1) = Some f).
Proof.
  intros Hr w1 w2 result encoding.
  destruct (exchange_bail_effect err w) as (_ & Hch & Hr1 & Hp & Hq & _).
  fold w1 in Hch, Hr1, Hp, Hq.
  destruct (publish_without_channel message options w1) as (Ht & Hl & Hp2 & He & Hn);
    [congruence | done |].
  split_and!; [done | done | by rewrite <- Hp | done |].
  intros msg Hmsg. destruct (Hn msg Hmsg) as [Hthrow Hf]. split; [done |].
  intros f Hf1 Hrq. apply Hf; [done |].
  specialize (Hq ReplyQ). cbn in Hq. rewrite <- (fmap_is_Some fields), Hq.
  by rewrite fmap_is_Some.
Qed.

Lemma publish_after_bail_throws_witness :
  let w1 := exec (Exchange.bail (H := Scalars.scalars) (Some (Error "lost")))
              Examples.rpc_ready in
  let options := Examples.publish_options "rpc" (Some 5) in
  let w2 := exec (Exchange.publish (H := Scalars.scalars) (str "ping") options) w1 in
  let w3 := exec (Exchange.publish (H := Scalars.scalars) (object 0) options) w1 in
  ((∃ what, outcome (Exchange.publish (H := Scalars.scalars) (str "ping") options) w1
            = Throw (TypeError what))
   ∧ ExchangeState.pendingReplies (ex w2) !! "uuid-0" = Some 5)
  ∧ outcome (Exchange.publish (H := Scalars.scalars) (object 0) options) w1
    = Throw (TypeError "Converting circular structure to JSON")
  ∧ ExchangeState.pendingReplies (ex w3) = ExchangeState.pendingReplies (ex w1).
Proof.
  assert (Hr : ExchangeState.ready (ex Examples.rpc_ready) = true)
    by (vm_compute; reflexivity).
  destruct (publish_after_bail_throws (H := Scalars.scalars) Examples.rpc_ready
              (Some (Error "lost")) (str "ping")
              (Examples.publish_options "rpc" (Some 5)) Hr)
    as (_ & _ & _ & _ & Hn).
  destruct (publish_after_bail_throws (H := Scalars.scalars) Examples.rpc_ready
              (Some (Error "lost")) (object 0)
              (Examples.publish_options "rpc" (Some 5)) Hr)
    as (_ & _ & _ & He & _).
  destruct (Hn (str (Examples.quoted "ping")) eq_refl) as [Ht Hf].
  split; [split; [exact Ht |] |].
  - apply (Hf 5); [reflexivity | vm_compute; by eexists].
  - apply (He (TypeError "Converting circular structure to JSON")). reflexivity.
Defined.

(** X9.  [bail(err)] of a queue clears its channel, its name and its
    consumer tag and emits "close" with [err].  When the listeners of the
    caller only observe, the queue is left cleared, and the other queues
    and the counter of publishes are as before, whichever listeners of the
    program the "close" runs. *)
Theorem queue_bail_clears_the_queue `{Platform} w q err :
  let w' := exec (QueueEvents.bail q err) w in
  (∀ s, get_queue q w' = Some s → cleared s)
  ∧ (is_Some (get_queue q w') ↔ is_Some (get_queue q w))
  ∧ (∀ q', q' ≠ q → fields <$> get_queue q' w' = fields <$> get_queue q' w)
  ∧ ExchangeState.publishing (ex w') = ExchangeState.publishing (ex w)
  ∧ ∃ l', log w' = log w ++ Emit (TheQueue q) "close" err :: l'.
Proof. apply queue_bail_effect. Qed.

(** X10.  After [bail] of the queue, the [ack] and the [nack] of any of its
    messages throw and change nothing: no acknowledgment and no reply
    reaches a channel. *)
Theorem no_settlement_after_queue_bail `{Platform} w q err msg reply opts :
  let w1 := exec (QueueEvents.bail q err) w in
  (∃ e, outcome (QueueEvents.ack q msg reply) w1 = Throw e)
  ∧ exec (QueueEvents.ack q msg reply) w1 = w1
  ∧ (∃ e, outcome (QueueEvents.nack q msg opts) w1 = Throw e)
  ∧ exec (QueueEvents.nack q msg opts) w1 = w1.
Proof.
  intros w1. destruct (queue_bail_effect q err w) as (Hc & _). fold w1 in Hc.
  assert (Hq : ∀ s, get_queue q w1 = Some s → QueueState.channel s = None).
  { intros s Hs. by destruct (Hc s Hs). }
  destruct (ack_without_channel q msg reply w1 Hq), (nack_without_channel q msg opts w1 Hq).
  done.
Qed.

(** X11.  When the first listener of a queue's "close" is the exchange's
    [bail], as [#createQueue] and [connect] register it, the [bail] of the
    queue bails the exchange: the queue's "close" is followed at once by
    the exchange's "close" with the same error.  When the listeners of the
    caller only observe, the exchange is left without connection and
    channel. *)
Theorem queue_failure_closes_the_exchange `{Platform} w q err r rest :
  filter (λ r, event r = "close") (Queue.getL q w) = r :: rest →
  fn r = LBail →
  let w' := exec (QueueEvents.bail q err) w in
  ExchangeState.connection (ex w') = None
  ∧ ExchangeState.channel (ex w') = None
  ∧ ∃ l', log w' = log w ++ Emit (TheQueue q) "close" err
                       :: Emit TheExchange "close" err :: l'.
Proof. apply queue_bail_reaches_exchange. Qed.

Lemma queue_failure_closes_the_exchange_witness :
  let w' := exec (QueueEvents.bail (H := Scalars.scalars) (UserQ 0)
                    (Some (Error "Channel closed")))
              Examples.consuming in
  ExchangeState.connection (ex w') = None
  ∧ ExchangeState.channel (ex w') = None
  ∧ ∃ l', log w' = log Examples.consuming
                   ++ Emit (TheQueue (UserQ 0)) "close" (Some (Error "Channel closed"))
                   :: Emit TheExchange "close" (Some (Error "Channel closed")) :: l'.
Proof.
  apply (queue_failure_closes_the_exchange (H := Scalars.scalars) Examples.consuming
           (UserQ 0) (Some (Error "Channel closed"))
           {| rid := 3; event := "close"; once := false; fn := LBail |} []).
  - vm_compute. reflexivity.
  - reflexivity.
Defined.

(** ** The counter of publishes *)

(** X12.  The function [onDrain] hands to [setImmediate] decrements the
    counter of publishes by one, whatever its value, and emits "drain"
    exactly when the counter reaches zero. *)
Theorem drain_is_emitted_at_zero `{Platform} w :
  let w' := exec Exchange.afterDrain w in
  ExchangeState.publishing (ex w') = (ExchangeState.publishing (ex w) - 1)%Z
  ∧ (ExchangeState.publishing (ex w) = 1%Z →
     ∃ l', log w' = log w ++ Emit TheExchange "drain" None :: l')
  ∧ (ExchangeState.publishing (ex w) ≠ 1%Z → log w' = log w).
Proof. apply afterDrain_effect. Qed.

(** ** [cancel] and [purge] *)

(** X13.  After [bail] of the queue, [cancel] and [purge] return without a
    call on the channel, so [done] is never called. *)
Theorem cancel_and_purge_do_nothing_after_bail `{Platform} w q err s :
  get_queue q (exec (QueueEvents.bail q err) w) = Some s →
  QueueAdmin.cancel s = None ∧ QueueAdmin.purge s = None.
Proof.
  intros Hs. destruct (queue_bail_effect q err w) as (Hc & _).
  destruct (Hc s Hs) as (Hch & Hn & Ht).
  unfold QueueAdmin.cancel, QueueAdmin.purge. by rewrite Hch, Ht.
Qed.

(** X14.  After [onConsume] got a consumer tag that is not empty for a
    queue with a channel, and the listeners of "consuming" only observed,
    [cancel] cancels that tag on that channel. *)
Theorem cancel_targets_the_tag_of_the_server `{Platform} w q s ch tag :
  get_queue q w = Some s → QueueState.channel s = Some ch → tag ≠ "" →
  ∃ s', get_queue q (exec (QueueEvents.onConsume q None tag) w) = Some s'
        ∧ QueueAdmin.cancel s' = Some (QueueAdmin.Cancel ch tag).
Proof.
  intros Hs Hch Htag. destruct (onConsume_effect q tag w s Hs) as (s' & Hs' & Hf).
  exists s'. split; [done |]. injection Hf as Hc Hn Ht.
  unfold QueueAdmin.cancel. rewrite Ht, Hc, Hch. cbn.
  by rewrite bool_decide_eq_false_2.
Qed.

(** X15.  After the declaration of a queue with a channel returned a name
    that is not empty, and the listeners of the caller on "ready" only
    observed, [purge] purges the queue of that name on that channel,
    whichever listeners of the program the "ready" ran. *)
Theorem purge_targets_the_declared_name `{Platform} w q s ch name :
  get_queue q w = Some s → QueueState.channel s = Some ch → name ≠ "" →
  ∃ s', get_queue q (exec (QueueEvents.onQueue q None name) w) = Some s'
        ∧ QueueAdmin.purge s' = Some (QueueAdmin.PurgeQueue ch name).
Proof.
  intros Hs Hch Hname. destruct (onQueue_effect q name w s Hs) as (s' & Hs' & Hf).
  exists s'. split; [done |]. injection Hf as Hc Hn Ht.
  unfold QueueAdmin.purge. rewrite Hn, Hc, Hch. cbn.
  by rewrite bool_decide_eq_false_2.
Qed.

Lemma cancel_and_purge_do_nothing_after_bail_witness :
  let s := QueueState.with_consumerTag None
             (QueueState.with_name None
                (QueueState.with_channel None Examples.tasks_queue)) in
  QueueAdmin.cancel s = None ∧ QueueAdmin.purge s = None.
Proof.
  apply (cancel_and_purge_do_nothing_after_bail (H := Scalars.scalars)
           Examples.consuming (UserQ 0) (Some (Error "Channel closed"))).
  vm_compute. reflexivity.
Defined.

Lemma cancel_targets_the_tag_of_the_server_witness :
  ∃ s', get_queue (UserQ 0)
          (exec (QueueEvents.onConsume (H := Scalars.scalars) (UserQ 0) None "amq.ctag-2")
             Examples.consuming) = Some s'
        ∧ QueueAdmin.cancel s' = Some (QueueAdmin.Cancel 12 "amq.ctag-2").
Proof.
  apply (cancel_targets_the_tag_of_the_server (H := Scalars.scalars)
           Examples.consuming (UserQ 0) Examples.tasks_queue 12 "amq.ctag-2").
  - vm_compute. reflexivity.
  - vm_compute. reflexivity.
  - discriminate.
Defined.

Lemma purge_targets_the_declared_name_witness :
  ∃ s', get_queue (UserQ 0)
          (exec (QueueEvents.onQueue (H := Scalars.scalars) (UserQ 0) None "tasks")
             Examples.consuming) = Some s'
        ∧ QueueAdmin.purge s' = Some (QueueAdmin.PurgeQueue 12 "tasks").
Proof.
  apply (purge_targets_the_declared_name (H := Scalars.scalars)
           Examples.consuming (UserQ 0) Examples.tasks_queue 12 "tasks").
  - vm_compute. reflexivity.
  - vm_compute. reflexivity.
  - discriminate.
Defined.

(** ** A request and its reply *)

(** X16.  A request and its reply.  [sendMessage] with a [reply] function
    publishes with [replyTo] the name of the reply queue and a new
    correlation id; [ack] of the delivered request with a value publishes
    the encoded value to the nameless exchange, routed to that name under
    the same correlation id, and acknowledges the request; and the delivery
    of that reply on the reply queue calls the [reply] function with the
    value, when the value decodes from its encoding and is truthy. *)
Theorem reply_reaches_the_requester `{Platform}
    w message options f rq n ch bytes wq q s chq v buffer :
  reply options = Some f →
  ExchangeState.replyQueue (ex w) = Some rq → QueueState.name rq = Some n → n ≠ "" →
  ExchangeState.channel (ex w) = Some ch →
  Exchange.encoded message options = Some bytes →
  uuid_v4 (uuids w) ≠ "" →
  get_queue q wq = Some s → QueueState.channel s = Some chq →
  let asked := asking options (Some n) (uuid_v4 (uuids w)) in
  let request := delivery (key asked) bytes asked in
  let answer := delivery (Some n) buffer (answering request) in
  Queue.encodeMessage v (contentType (properties request)) = Normal buffer →
  Queue.parseMessage answer = Normal v → truthy v = true →
  let w1 := exec (Exchange.sendMessage message options) w in
  log w1 = log w ++ [OnChannel ch (Publish (ExchangeState.name (ex w)) (key asked) bytes asked)]
  ∧ log (exec (QueueEvents.ack q request v) wq)
    = log wq ++ [OnChannel chq (Publish "" (Some n) buffer (answering request));
                 OnChannel chq (Ack request)]
  ∧ log (exec (QueueEvents.onMessage ReplyQ OnReply (Some answer)) w1)
    = log w1 ++ [InvokeReply f v].
Proof.
  intros Hf Hrq Hn Hne Hch Hb Hid Hs Hchq asked request answer Henc Hdec Hv w1.
  assert (Hw1 : Exchange.sendMessage message options w
                = (w1, Normal tt)
                ∧ log w1 = log w ++ [OnChannel ch
                     (Publish (ExchangeState.name (ex w)) (key asked) bytes asked)]
                ∧ ExchangeState.pendingReplies (ex w1)
                  = <[uuid_v4 (uuids w) := f]> (ExchangeState.pendingReplies (ex w))).
  { subst w1. unfold exec. unfold Exchange.encoded in Hb. cbn in Hb.
    unfold Exchange.sendMessage, Exchange.v4. unfold_M. cbn.
    destruct (Exchange.encodeMessage _ _) as [encoded |]; [| done]. cbn.
    rewrite Hf. cbn. rewrite Hrq. cbn. rewrite Hch, Hb. cbn.
    subst asked. unfold asking. cbn. rewrite Hn.
    destruct (writable w (writes w)); cbn; split_and!; reflexivity. }
  destruct Hw1 as (_ & Hl1 & Hp1). split_and!.
  - done.
  - unfold exec, QueueEvents.ack, QueueEvents.wants_reply. cbn.
    rewrite !bool_decide_eq_false_2 by done. cbn.
    cbn in Henc. rewrite Henc. unfold_M. cbn. rewrite Hs. cbn. rewrite Hchq. cbn.
    destruct q; cbn in Hs |- *; rewrite Hs; cbn; rewrite Hchq; cbn;
      by rewrite <- app_assoc.
  - unfold exec, QueueEvents.onMessage. rewrite Hdec, Hv. cbn.
    unfold Exchange.onReply. unfold_M. cbn. rewrite Hp1, lookup_insert_eq. done.
Qed.

Lemma reply_reaches_the_requester_witness :
  let options := Examples.publish_options "rpc" (Some 5) in
  let asked := asking options (Some "amq.gen-1") "uuid-0" in
  let request := delivery (key asked) (Examples.quoted "ping") asked in
  let answer := delivery (Some "amq.gen-1") (Examples.quoted "pong") (answering request) in
  let w1 := exec (Exchange.sendMessage (H := Scalars.scalars) (str "ping") options)
              Examples.rpc_ready in
  log w1 = log Examples.rpc_ready
           ++ [OnChannel 10 (Publish "" (key asked) (Examples.quoted "ping") asked)]
  ∧ log (exec (QueueEvents.ack (H := Scalars.scalars) (UserQ 0) request (str "pong"))
           Examples.consuming)
    = log Examples.consuming
      ++ [OnChannel 12 (Publish "" (Some "amq.gen-1") (Examples.quoted "pong")
                          (answering request));
          OnChannel 12 (Ack request)]
  ∧ log (exec (QueueEvents.onMessage (H := Scalars.scalars) ReplyQ OnReply (Some answer)) w1)
    = log w1 ++ [InvokeReply 5 (str "pong")].
Proof.
  apply (reply_reaches_the_requester (H := Scalars.scalars) Examples.rpc_ready
           (str "ping") (Examples.publish_options "rpc" (Some 5)) 5
           Examples.rpc_queue "amq.gen-1" 10 (Examples.quoted "ping")
           Examples.consuming (UserQ 0) Examples.tasks_queue 12
           (str "pong") (Examples.quoted "pong"));
    first [discriminate | vm_compute; reflexivity].
Defined.

(** ** Bindings made before the exchange has its channel *)

(** X18.  [#bindKeys] with at least one key on an exchange without a
    channel makes no call and leaves the rejection of [Promise.all] to the
    microtasks; its reaction bails the exchange, which emits "close" with
    the [TypeError]. *)
Theorem binding_without_channel_bails `{Platform} w q key keys :
  ExchangeState.channel (ex w) = None →
  let err := TypeError "Cannot read properties of undefined (reading 'bindQueue')" in
  let w1 := exec (Exchange.bindKeys q (key :: keys)) w in
  let w2 := exec (System.runTask (TBail err)) w1 in
  log w1 = log w ∧ pending w1 = pending w
  ∧ microtasks w1 = microtasks w ++ [TBail err]
  ∧ ExchangeState.connection (ex w2) = None
  ∧ ∃ l', log w2 = log w ++ Emit TheExchange "close" (Some err) :: l'.
Proof.
  intros Hc err w1 w2.
  assert (Hw1 : w1 = set_microtasks (λ ts, ts ++ [TBail err])
                       (set_joins <[q := {| remaining := length (key :: keys);
                                            settled := true |}]> w)).
  { unfold w1, exec, Exchange.bindKeys. rewrite gets_bind. cbn beta. rewrite Hc.
    erewrite bind_Normal; [| by apply forEach_bindKey_none]. done. }
  destruct (exchange_bail_effect (Some err) w1) as (Hcon & _ & _ & _ & _ & l' & Hl').
  assert (Hlog1 : log w1 = log w) by (by rewrite Hw1).
  split_and!; [done | by rewrite Hw1 | by rewrite Hw1 | exact Hcon |].
  exists l'. rewrite <- Hlog1. exact Hl'.
Qed.

Lemma binding_without_channel_bails_witness :
  let w := System.init Examples.topic Examples.never_drained in
  let err := TypeError "Cannot read properties of undefined (reading 'bindQueue')" in
  let w1 := exec (Exchange.bindKeys 0 ["a.*"; "b.*"]) w in
  let w2 := exec (System.runTask (H := Scalars.scalars) (TBail err)) w1 in
  log w1 = log w ∧ pending w1 = pending w
  ∧ microtasks w1 = microtasks w ++ [TBail err]
  ∧ ExchangeState.connection (ex w2) = None
  ∧ ∃ l', log w2 = log w ++ Emit TheExchange "close" (Some err) :: l'.
Proof.
  apply (binding_without_channel_bails (H := Scalars.scalars)
           (System.init Examples.topic Examples.never_drained) 0 "a.*" ["b.*"]).
  reflexivity.
Defined.

(** ** Messages that cannot be made a [Buffer] *)


